(** * logmux: a shallow embedding of [main.go] and its specification

    The development follows the layout of the program.  Part I models the
    pieces of the Go standard library the program calls ([strings.Split],
    [strconv.ParseInt], [bytes.TrimSpace], the [%q] verb of [fmt],
    [bufio.Reader.ReadBytes], [io.Writer], buffered channels).  Part II is
    the program itself, function by function.  Part III holds the theorems.

    Conventions: a Go [string] is a [string]; a [[]byte] is a [list byte];
    a Go [error] value is an [option error] with [None] for [nil]; the fixed
    width integers are [Z] with their range or wrap-around written out. *)

From Stdlib Require Import ZArith List Bool Lia.
From Stdlib Require Import Strings.String Strings.Ascii Strings.Byte.
From Stdlib Require Import Numbers.DecimalString.
Import ListNotations.

Local Open Scope string_scope.
Local Open Scope list_scope.
Local Open Scope nat_scope.

(* ================================================================= *)
(** * Part I: the Go library *)

(** ** Errors *)

(** [io.EOF] is a sentinel compared by identity; the other errors the
    program meets are built by [fmt.Errorf] or come from the operating
    system ([*os.PathError], [*net.OpError], [syscall.Errno]). *)
Inductive error : Type :=
| io_EOF
| Errorf (msg : string)
| SysError (msg : string).

(** [err == io.EOF] on a non-nil error. *)
Definition is_EOF (e : error) : bool :=
  match e with io_EOF => true | _ => false end.

(** ** Bytes and strings *)

Definition byte_val (b : byte) : Z := Z.of_N (Byte.to_N b).

Definition byte_of_val (z : Z) : byte :=
  match Byte.of_N (Z.to_N (z mod 256)) with
  | Some b => b
  | None => x00
  end.

(** [[]byte(s)] and [string(b)]. *)
Definition bytes_of_string (s : string) : list byte := list_byte_of_string s.
Definition string_of_bytes (b : list byte) : string := string_of_list_byte b.

(** The double quote and the line feed, as strings. *)
Definition dquote : string := String "034"%char EmptyString.
Definition newline : string := String "010"%char EmptyString.

(** The [%d] verb on a non-negative [int]. *)
Definition Itoa (n : nat) : string := NilEmpty.string_of_uint (Nat.to_uint n).

(** Go's slice expression [s[lo:hi]] on a list. *)
Definition slice {A : Type} (s : list A) (lo hi : nat) : list A :=
  firstn (hi - lo) (skipn lo s).

(** ** strings.Split with a one-byte separator *)

Fixpoint Split (s : string) (sep : ascii) : list string :=
  match s with
  | EmptyString => [EmptyString]
  | String c rest =>
      if Ascii.eqb c sep then EmptyString :: Split rest sep
      else match Split rest sep with
           | [] => [String c EmptyString]
           | p :: ps => String c p :: ps
           end
  end.

Fixpoint count_sep (s : string) (sep : ascii) : nat :=
  match s with
  | EmptyString => 0
  | String c rest => (if Ascii.eqb c sep then 1 else 0) + count_sep rest sep
  end.

(** ** strconv.ParseInt(s, 10, 64) *)

Inductive NumErr : Type := ErrSyntax | ErrRange.

Definition maxUint64 : Z := 2 ^ 64 - 1.

(** The loop of [ParseUint] for base 10 and bit size 64.  [n] is the
    [uint64] accumulator; the two overflow tests are those of the library,
    with the wrap-around of [n*base] and [n+d] written out. *)
Fixpoint ParseUint_loop (s : string) (n : Z) : Z * option NumErr :=
  match s with
  | EmptyString => (n, None)
  | String c rest =>
      let v := Z.of_nat (nat_of_ascii c) in
      if (48 <=? v)%Z && (v <=? 57)%Z then
        let d := (v - 48)%Z in
        let cutoff := (maxUint64 / 10 + 1)%Z in
        if (cutoff <=? n)%Z then (maxUint64, Some ErrRange)
        else
          let n10 := ((n * 10) mod 2 ^ 64)%Z in
          let n1 := ((n10 + d) mod 2 ^ 64)%Z in
          if (n1 <? n10)%Z || (maxUint64 <? n1)%Z then (maxUint64, Some ErrRange)
          else ParseUint_loop rest n1
      else (0%Z, Some ErrSyntax)
  end.

Definition ParseUint (s : string) : Z * option NumErr :=
  match s with
  | EmptyString => (0%Z, Some ErrSyntax)
  | _ => ParseUint_loop s 0
  end.

Definition ParseInt (s : string) : Z * option NumErr :=
  match s with
  | EmptyString => (0%Z, Some ErrSyntax)
  | String c rest =>
      let neg := Ascii.eqb c "-" in
      let s1 := if Ascii.eqb c "+" || neg then rest else s in
      let '(un, err) := ParseUint s1 in
      match err with
      | Some ErrSyntax => (0%Z, Some ErrSyntax)
      | _ =>
          let cutoff := (2 ^ 63)%Z in
          if negb neg && (cutoff <=? un)%Z then ((cutoff - 1)%Z, Some ErrRange)
          else if neg && (cutoff <? un)%Z then ((- cutoff)%Z, Some ErrRange)
          else ((if neg then - un else un)%Z, None)
      end
  end.

(** ** unicode/utf8 *)

Definition RuneSelf : Z := 128.
Definition RuneError : Z := 65533.
Definition MaxRune : Z := 1114111.

Definition in_range (lo hi x : Z) : bool := ((lo <=? x) && (x <=? hi))%Z.

(** Continuation byte, [locb <= b <= hicb]. *)
Definition is_cont (b : Z) : bool := in_range 128 191 b.

(** [utf8.DecodeRune]: the rune at the head of [p] and its width.  The
    ranges are those of the library's [first] and [acceptRanges] tables. *)
Definition DecodeRune (p : list byte) : Z * nat :=
  match p with
  | [] => (RuneError, 0)
  | c0 :: t =>
      let p0 := byte_val c0 in
      if (p0 <? RuneSelf)%Z then (p0, 1)
      else if (p0 <? 194)%Z || (244 <? p0)%Z then (RuneError, 1)
      else
        let sz := if (p0 <? 224)%Z then 2 else if (p0 <? 240)%Z then 3 else 4 in
        let lo := if (p0 =? 224)%Z then 160%Z else if (p0 =? 240)%Z then 144%Z else 128%Z in
        let hi := if (p0 =? 237)%Z then 159%Z else if (p0 =? 244)%Z then 143%Z else 191%Z in
        if List.length p <? sz then (RuneError, 1)
        else
          match t with
          | [] => (RuneError, 1)
          | c1 :: t1 =>
              let b1 := byte_val c1 in
              if negb (in_range lo hi b1) then (RuneError, 1)
              else if sz <=? 2 then
                (Z.lor (Z.shiftl (Z.land p0 31) 6) (Z.land b1 63), 2)
              else
                match t1 with
                | [] => (RuneError, 1)
                | c2 :: t2 =>
                    let b2 := byte_val c2 in
                    if negb (is_cont b2) then (RuneError, 1)
                    else if sz <=? 3 then
                      (Z.lor (Z.lor (Z.shiftl (Z.land p0 15) 12)
                                    (Z.shiftl (Z.land b1 63) 6))
                             (Z.land b2 63), 3)
                    else
                      match t2 with
                      | [] => (RuneError, 1)
                      | c3 :: _ =>
                          let b3 := byte_val c3 in
                          if negb (is_cont b3) then (RuneError, 1)
                          else
                            (Z.lor (Z.lor (Z.lor (Z.shiftl (Z.land p0 7) 18)
                                                 (Z.shiftl (Z.land b1 63) 12))
                                          (Z.shiftl (Z.land b2 63) 6))
                                   (Z.land b3 63), 4)
                      end
                end
          end
  end.

(** [utf8.RuneStart]. *)
Definition RuneStart (b : byte) : bool :=
  negb (Z.land (byte_val b) 192 =? 128)%Z.

(** The backward scan of [utf8.DecodeLastRune]: from [start] down to
    [lim], stopping at the first byte that can start a rune. *)
Fixpoint lastRune_scan (p : list byte) (start lim : Z) (fuel : nat) : Z :=
  match fuel with
  | O => start
  | S f =>
      if (start <? lim)%Z then start
      else if RuneStart (nth (Z.to_nat start) p x00) then start
      else lastRune_scan p (start - 1) lim f
  end.

Definition DecodeLastRune (p : list byte) : Z * nat :=
  match List.length p with
  | O => (RuneError, 0)
  | S last =>
      let r := byte_val (nth last p x00) in
      if (r <? RuneSelf)%Z then (r, 1)
      else
        let e := Z.of_nat (List.length p) in
        let lim := Z.max 0 (e - 4) in
        let start := lastRune_scan p (e - 2) lim 4 in
        let start := Z.to_nat (Z.max 0 start) in
        let '(r, size) := DecodeRune (skipn start p) in
        if Nat.eqb (start + size) (List.length p) then (r, size) else (RuneError, 1)
  end.

(** [utf8.AppendRune]. *)
Definition AppendRune (r : Z) : list byte :=
  if in_range 0 127 r then [byte_of_val r]
  else if in_range 0 2047 r then
    [byte_of_val (Z.lor 192 (Z.shiftr r 6));
     byte_of_val (Z.lor 128 (Z.land r 63))]
  else if negb (in_range 0 MaxRune r) || in_range 55296 57343 r then
    [xef; xbf; xbd]
  else if (r <=? 65535)%Z then
    [byte_of_val (Z.lor 224 (Z.shiftr r 12));
     byte_of_val (Z.lor 128 (Z.land (Z.shiftr r 6) 63));
     byte_of_val (Z.lor 128 (Z.land r 63))]
  else
    [byte_of_val (Z.lor 240 (Z.shiftr r 18));
     byte_of_val (Z.lor 128 (Z.land (Z.shiftr r 12) 63));
     byte_of_val (Z.lor 128 (Z.land (Z.shiftr r 6) 63));
     byte_of_val (Z.lor 128 (Z.land r 63))].

Definition ValidRune (r : Z) : bool :=
  in_range 0 55295 r || in_range 57344 MaxRune r.

(** ** bytes.TrimSpace *)

(** [unicode.IsSpace]: the Latin-1 switch, then the White_Space table. *)
Definition IsSpace (r : Z) : bool :=
  if in_range 0 255 r then
    in_range 9 13 r || (r =? 32)%Z || (r =? 133)%Z || (r =? 160)%Z
  else
    (r =? 5760)%Z || in_range 8192 8202 r || in_range 8232 8233 r
    || (r =? 8239)%Z || (r =? 8287)%Z || (r =? 12288)%Z.

(** The library's [asciiSpace] table. *)
Definition asciiSpace (c : byte) : bool :=
  match c with
  | x09 | x0a | x0b | x0c | x0d | x20 => true
  | _ => false
  end.

Definition nonASCII (c : byte) : bool := (RuneSelf <=? byte_val c)%Z.

(** [bytes.TrimLeftFunc(s, unicode.IsSpace)]: drop whole runes while they
    are spaces.  [fuel] bounds the number of runes by the length. *)
Fixpoint TrimLeftFunc_IsSpace (fuel : nat) (s : list byte) : list byte :=
  match fuel, s with
  | O, _ => []
  | _, [] => []
  | S f, c :: _ =>
      let '(r, wid) := if nonASCII c then DecodeRune s else (byte_val c, 1) in
      if IsSpace r then TrimLeftFunc_IsSpace f (skipn wid s) else s
  end.

(** [lastIndexFunc(s, unicode.IsSpace, false)]: the index of the last rune
    of [s[0:i]] that is not a space, [None] for -1. *)
Fixpoint lastIndexFunc_notSpace (fuel : nat) (s : list byte) (i : nat) : option nat :=
  match fuel, i with
  | O, _ => None
  | _, O => None
  | S f, S i1 =>
      let c := nth i1 s x00 in
      let '(r, size) := if nonASCII c then DecodeLastRune (firstn i s)
                        else (byte_val c, 1) in
      if negb (IsSpace r) then Some (i - size)
      else lastIndexFunc_notSpace f s (i - size)
  end.

(** [bytes.TrimRightFunc(s, unicode.IsSpace)]: keep [s] up to the end of
    that rune. *)
Definition TrimRightFunc_IsSpace (s : list byte) : list byte :=
  match lastIndexFunc_notSpace (List.length s) s (List.length s) with
  | None => slice s 0 0
  | Some i =>
      if nonASCII (nth i s x00)
      then let '(_, wid) := DecodeRune (skipn i s) in slice s 0 (i + wid)
      else slice s 0 (i + 1)
  end.

Definition TrimFunc_IsSpace (s : list byte) : list byte :=
  TrimRightFunc_IsSpace (TrimLeftFunc_IsSpace (List.length s) s).

(** The two ASCII fast paths of [TrimSpace].  [inl] is the slice reached
    when the loop stops on an ASCII byte (or runs out), [inr] the slice
    handed to the Unicode-aware [TrimFunc] when a byte [>= RuneSelf] shows
    up.  The second loop walks the slice from its end, so it takes it
    reversed. *)
Fixpoint TrimSpace_start (s : list byte) : list byte + list byte :=
  match s with
  | [] => inl []
  | c :: rest =>
      if nonASCII c then inr s
      else if asciiSpace c then TrimSpace_start rest
      else inl s
  end.

Fixpoint TrimSpace_stop (r : list byte) : list byte + list byte :=
  match r with
  | [] => inl []
  | c :: rest =>
      if nonASCII c then inr r
      else if asciiSpace c then TrimSpace_stop rest
      else inl r
  end.

Definition TrimSpace (s : list byte) : list byte :=
  match TrimSpace_start s with
  | inr s1 => TrimFunc_IsSpace s1
  | inl s1 =>
      match TrimSpace_stop (rev s1) with
      | inr r => TrimFunc_IsSpace (rev r)
      | inl r => rev r
      end
  end.

(** ** The %q verb: strconv.Quote *)

(** [strconv.IsPrint] decides runes up to [0xFF] by comparison and the
    others by binary search in the tables [isPrint16], [isNotPrint16],
    [isPrint32] and [isNotPrint32] of the Go distribution.  The tables are
    taken as a parameter. *)
Class UnicodeTables : Type := { isPrintTable : Z -> bool }.

Section Quote.
Context {tables : UnicodeTables}.

Definition IsPrint (r : Z) : bool :=
  if (r <=? 255)%Z then
    if in_range 32 126 r then true
    else if in_range 161 255 r then negb (r =? 173)%Z
    else false
  else isPrintTable r.

(** [lowerhex[n & 0xF]]. *)
Definition lowerhex (n : Z) : byte :=
  let d := Z.land n 15 in
  if (d <? 10)%Z then byte_of_val (48 + d) else byte_of_val (87 + d).

Definition hex_digits (r : Z) (shifts : list Z) : list byte :=
  map (fun s => lowerhex (Z.shiftr r s)) shifts.

(** [appendEscapedRune] with the double quote as quote character and
    neither [ASCIIonly] nor [graphicOnly]. *)
Definition appendEscapedRune (r : Z) : list byte :=
  if (r =? 34)%Z || (r =? 92)%Z then [x5c; byte_of_val r]
  else if IsPrint r then AppendRune r
  else if (r =? 7)%Z then [x5c; x61]
  else if (r =? 8)%Z then [x5c; x62]
  else if (r =? 12)%Z then [x5c; x66]
  else if (r =? 10)%Z then [x5c; x6e]
  else if (r =? 13)%Z then [x5c; x72]
  else if (r =? 9)%Z then [x5c; x74]
  else if (r =? 11)%Z then [x5c; x76]
  else if (r <? 32)%Z || (r =? 127)%Z then
    [x5c; x78] ++ hex_digits r [4; 0]%Z
  else if negb (ValidRune r) then
    [x5c; x75] ++ hex_digits RuneError [12; 8; 4; 0]%Z
  else if (r <? 65536)%Z then
    [x5c; x75] ++ hex_digits r [12; 8; 4; 0]%Z
  else
    [x5c; x55] ++ hex_digits r [28; 24; 20; 16; 12; 8; 4; 0]%Z.

(** The loop of [appendQuotedWith]; [fuel] bounds the runes by the
    length of [s]. *)
Fixpoint appendQuoted_loop (fuel : nat) (s : list byte) : list byte :=
  match fuel, s with
  | O, _ => []
  | _, [] => []
  | S f, c :: _ =>
      let '(r, width) := if nonASCII c then DecodeRune s else (byte_val c, 1) in
      if Nat.eqb width 1 && (r =? RuneError)%Z then
        ([x5c; x78] ++ hex_digits (byte_val c) [4; 0]%Z)
          ++ appendQuoted_loop f (skipn width s)
      else appendEscapedRune r ++ appendQuoted_loop f (skipn width s)
  end.

(** [strconv.Quote(s)], which is what [%q] prints for a string. *)
Definition Quote (s : string) : string :=
  let b := bytes_of_string s in
  string_of_bytes ([x22] ++ appendQuoted_loop (List.length b) b ++ [x22]).
End Quote.

(** ** bufio.Reader and io.Writer *)

(** A [*bufio.Reader] over a pipe: the bytes its file will still deliver
    and the error the file reports once they are used up ([io.EOF] when the
    writers have closed, or an I/O error). *)
Record Reader : Type := mkReader {
  rd_pending : list byte;
  rd_err : error
}.

(** Splits [p] after the first [delim]; [None] when there is none. *)
Fixpoint cut_after (delim : byte) (p : list byte) : option (list byte * list byte) :=
  match p with
  | [] => None
  | c :: rest =>
      if Byte.eqb c delim then Some ([c], rest)
      else match cut_after delim rest with
           | Some (line, rest') => Some (c :: line, rest')
           | None => None
           end
  end.

(** [ReadBytes(delim)]: the bytes up to and including the delimiter; when
    the file fails first, the bytes read so far together with the error. *)
Definition ReadBytes (r : Reader) (delim : byte) : list byte * option error * Reader :=
  match cut_after delim (rd_pending r) with
  | Some (line, rest) => (line, None, mkReader rest (rd_err r))
  | None => (rd_pending r, Some (rd_err r), mkReader [] (rd_err r))
  end.

(** What one call of [Write] on the connection does: accept the whole
    buffer, or fail with an error after accepting [n] bytes of it. *)
Inductive WriteResult : Type :=
| WriteOk
| WriteErr (n : nat) (e : error).

(** The [io.Writer] behind the sink: every buffer handed to [Write] so far
    ([w_calls]), the bytes the connection accepted ([w_sent]), and how the
    coming calls will fare ([w_script]; all succeed once it is used up). *)
Record Writer : Type := mkWriter {
  w_calls : list (list byte);
  w_sent : list byte;
  w_script : list WriteResult
}.

Definition Write (w : Writer) (p : list byte) : nat * option error * Writer :=
  match w_script w with
  | [] => (List.length p, None, mkWriter (w_calls w ++ [p]) (w_sent w ++ p) [])
  | WriteOk :: script =>
      (List.length p, None, mkWriter (w_calls w ++ [p]) (w_sent w ++ p) script)
  | WriteErr n e :: script =>
      (List.length (firstn n p), Some e,
       mkWriter (w_calls w ++ [p]) (w_sent w ++ firstn n p) script)
  end.

(** ** Buffered channels of errors *)

Record Chan : Type := mkChan {
  ch_cap : nat;
  ch_buf : list error
}.

(** [make(chan error, cap)]. *)
Definition make_chan (cap : nat) : Chan := mkChan cap [].

(** [ch <- e] with no receiver waiting: [None] when the buffer is full and
    the sender has to wait. *)
Definition chan_send (ch : Chan) (e : error) : option Chan :=
  if List.length (ch_buf ch) <? ch_cap ch
  then Some (mkChan (ch_cap ch) (ch_buf ch ++ [e]))
  else None.

(** [<-ch]: [None] when the buffer is empty and the receiver has to wait. *)
Definition chan_recv (ch : Chan) : option (error * Chan) :=
  match ch_buf ch with
  | [] => None
  | e :: rest => Some (e, mkChan (ch_cap ch) rest)
  end.

(** ** The operating system *)

(** What the program sees of its environment: the outcome of dialling the
    sink, the file system entries it stats (with their [os.ModeNamedPipe]
    bit), the outcome of [syscall.Mkfifo] on a free path, the pipe behind
    each inherited descriptor, the outcomes of the coming [os.OpenFile]
    calls on FIFOs in the order they complete, and what has been printed on
    [os.Stderr]. *)
Record OS : Type := mkOS {
  os_dial : string -> error + (list WriteResult);
  os_files : list (string * bool);
  os_mkfifo : string -> option error;
  os_fds : Z -> list byte * error;
  os_opens : list (error + (list byte * error));
  os_stderr : list string
}.

Definition os_print (os : OS) (line : string) : OS :=
  mkOS (os_dial os) (os_files os) (os_mkfifo os) (os_fds os) (os_opens os)
       (os_stderr os ++ [line]).

Definition os_add_fifo (os : OS) (path : string) : OS :=
  mkOS (os_dial os) ((path, true) :: os_files os) (os_mkfifo os) (os_fds os)
       (os_opens os) (os_stderr os).

Definition os_pop_open (os : OS) : OS :=
  mkOS (os_dial os) (os_files os) (os_mkfifo os) (os_fds os)
       (tl (os_opens os)) (os_stderr os).

(** [os.Stat(path)]: the mode bit of the entry, [None] when stat fails. *)
Fixpoint os_stat (files : list (string * bool)) (path : string) : option bool :=
  match files with
  | [] => None
  | (p, fifo) :: rest => if String.eqb p path then Some fifo else os_stat rest path
  end.

(** How a call ends: it returns an error value, it panics (nil
    dereference), or it never returns (a FIFO nobody opens for writing, a
    channel nobody sends on). *)
Inductive outcome : Type :=
| Returns (err : option error)
| Panics
| Blocks.

(** [err.Error()], as the [%s] verb prints an error. *)
Definition error_string (e : error) : string :=
  match e with
  | io_EOF => "EOF"
  | Errorf msg => msg
  | SysError msg => msg
  end.

(* ================================================================= *)
(** * Part II: the program *)

(** ** LogstashService *)

(** [url] is the host of the parsed URL, [None] for a nil [*url.URL];
    [sink] is [None] until [Open] has dialled. *)
Record LogstashService : Type := mkLogstashService {
  url : option string;
  ls_raw : string;
  sink : option Writer
}.

Definition LogstashService_Open (s : LogstashService) (os : OS)
  : outcome * LogstashService :=
  match url s with
  | None => (Panics, s)
  | Some host =>
      match os_dial os host with
      | inl err => (Returns (Some err), s)
      | inr script =>
          (Returns None, mkLogstashService (url s) (ls_raw s) (Some (mkWriter [] [] script)))
      end
  end.

(** ** Streams *)

Record BaseStream : Type := mkBaseStream {
  tag : string;
  raw : string;
  source : option Reader
}.

Record NamedPipeStream : Type := mkNamedPipeStream {
  np_base : BaseStream;
  path : string
}.

Record PipeStream : Type := mkPipeStream {
  p_base : BaseStream;
  fd : Z
}.

(** The two implementations of the [Stream] interface. *)
Inductive Stream : Type :=
| IsPipeStream (p : PipeStream)
| IsNamedPipeStream (n : NamedPipeStream).

Definition base (s : Stream) : BaseStream :=
  match s with
  | IsPipeStream p => p_base p
  | IsNamedPipeStream n => np_base n
  end.

Definition Source (s : Stream) : option Reader := source (base s).
Definition Raw (s : Stream) : string := raw (base s).
Definition Tag (s : Stream) : string := tag (base s).

(** Assignment to the embedded [BaseStream.source]. *)
Definition set_source (s : Stream) (r : option Reader) : Stream :=
  match s with
  | IsPipeStream p =>
      IsPipeStream (mkPipeStream (mkBaseStream (tag (p_base p)) (raw (p_base p)) r) (fd p))
  | IsNamedPipeStream n =>
      IsNamedPipeStream
        (mkNamedPipeStream (mkBaseStream (tag (np_base n)) (raw (np_base n)) r) (path n))
  end.

Definition MarkClosed (s : Stream) : Stream := set_source s None.

(** [newBufferedReader(file)]. *)
Definition newBufferedReader (file : list byte * error) : Reader :=
  mkReader (fst file) (snd file).

Definition NamedPipeStream_Open (n : NamedPipeStream) (os : OS) : option error * OS :=
  match os_stat (os_files os) (path n) with
  | None =>
      match os_mkfifo os (path n) with
      | Some err => (Some err, os)
      | None => (None, os_add_fifo os (path n))
      end
  | Some false => (Some (Errorf ("not overwriting non-named pipe: " ++ path n)%string), os)
  | Some true => (None, os)
  end.

(** The open of a FIFO for reading waits for a writer: when no further
    open completes, the call never returns. *)
Definition NamedPipeStream_Preread (n : NamedPipeStream) (os : OS)
  : outcome * NamedPipeStream * OS :=
  match source (np_base n) with
  | Some _ => (Returns None, n, os)
  | None =>
      match os_opens os with
      | [] => (Blocks, n, os)
      | inl err :: _ => (Returns (Some err), n, os_pop_open os)
      | inr file :: _ =>
          let os1 := os_print (os_pop_open os)
                       ("opened named pipe for tag " ++ tag (np_base n) ++ ": "
                        ++ path n ++ newline)%string in
          (Returns None,
           mkNamedPipeStream
             (mkBaseStream (tag (np_base n)) (raw (np_base n))
                           (Some (newBufferedReader file)))
             (path n),
           os1)
      end
  end.

Definition PipeStream_Preread (p : PipeStream) : option error :=
  match source (p_base p) with
  | None => Some io_EOF
  | Some _ => None
  end.

Definition PipeStream_Open (p : PipeStream) (os : OS) : option error * PipeStream :=
  (None,
   mkPipeStream
     (mkBaseStream (tag (p_base p)) (raw (p_base p))
                   (Some (newBufferedReader (os_fds os (fd p)))))
     (fd p)).

(** Dispatch of the interface methods. *)
Definition Open (s : Stream) (os : OS) : option error * Stream * OS :=
  match s with
  | IsPipeStream p =>
      let '(err, p') := PipeStream_Open p os in (err, IsPipeStream p', os)
  | IsNamedPipeStream n =>
      let '(err, os') := NamedPipeStream_Open n os in (err, s, os')
  end.

Definition Preread (s : Stream) (os : OS) : outcome * Stream * OS :=
  match s with
  | IsPipeStream p => (Returns (PipeStream_Preread p), s, os)
  | IsNamedPipeStream n =>
      let '(o, n', os') := NamedPipeStream_Preread n os in (o, IsNamedPipeStream n', os')
  end.

(** ** Mux *)

Record Mux : Type := mkMux {
  logstash : LogstashService;
  streams : list Stream
}.

(** The loop of [Configure] over [m.streams]; the streams are pointers, so
    each [Open] leaves its effect in the slice. *)
Fixpoint Configure_streams (ss : list Stream) (os : OS) : option error * list Stream * OS :=
  match ss with
  | [] => (None, [], os)
  | s :: rest =>
      match Open s os with
      | (Some err, s', os') => (Some err, s' :: rest, os')
      | (None, s', os') =>
          let '(err, rest', os'') := Configure_streams rest os' in
          (err, s' :: rest', os'')
      end
  end.

Definition Mux_Configure (m : Mux) (os : OS) : outcome * Mux * OS :=
  match LogstashService_Open (logstash m) os with
  | (Returns None, l') =>
      let '(err, ss', os') := Configure_streams (streams m) os in
      (Returns err, mkMux l' ss', os')
  | (o, l') => (o, mkMux l' (streams m), os)
  end.

(** ** The line tagger *)

Fixpoint hasNonSpace (buf : list byte) : bool :=
  match buf with
  | [] => false
  | b :: rest =>
      if negb (Byte.eqb b x20) && negb (Byte.eqb b x09)
         && negb (Byte.eqb b x0d) && negb (Byte.eqb b x0a)
      then true
      else hasNonSpace rest
  end.

Section Tagger.
Context {tables : UnicodeTables}.

(** The two [fmt.Sprintf] calls of [processLine]. *)
Definition Sprintf_tag_member (tag : string) : string :=
  ("," ++ dquote ++ "tag" ++ dquote ++ ":" ++ Quote tag ++ "}")%string.

Definition Sprintf_tag_object (tag : string) : string :=
  ("{" ++ dquote ++ "tag" ++ dquote ++ ":" ++ Quote tag ++ "}")%string.

Definition processLine (buf : list byte) (tag : string) : list byte :=
  let buf := TrimSpace buf in
  if List.length buf =? 0 then buf
  else
    let lst := List.length buf - 1 in
    let buf :=
      if Byte.eqb (nth 0 buf x00) x7b && Byte.eqb (nth lst buf x00) x7d then
        if hasNonSpace (slice buf 1 lst)
        then slice buf 0 lst ++ bytes_of_string (Sprintf_tag_member tag)
        else bytes_of_string (Sprintf_tag_object tag)
      else
        let tmp := bytes_of_string tag ++ bytes_of_string ": " in
        tmp ++ buf
    in
    buf ++ [x0a].

(** ** The runner *)

(** One iteration.  The stream and the sink are reached through pointers:
    the function returns them as the call leaves them. *)
Definition readOne (s : Stream) (l : LogstashService) (os : OS)
  : outcome * (Stream * LogstashService * OS) :=
  match Preread s os with
  | (Returns None, s1, os1) =>
      match Source s1 with
      | None => (Panics, (s1, l, os1))
      | Some rd =>
          let '(buf, err, rd') := ReadBytes rd x0a in
          let s2 := set_source s1 (Some rd') in
          let written :=
            if 0 <? List.length buf then
              match sink l with
              | None => None
              | Some w =>
                  let '(_, e2, w') := Write w (processLine buf (Tag s2)) in
                  Some (e2, mkLogstashService (url l) (ls_raw l) (Some w'))
              end
            else Some (None, l)
          in
          match written with
          | None => (Panics, (s2, l, os1))
          | Some (e2, l2) =>
              match err with
              | Some io_EOF => (Returns None, (MarkClosed s2, l2, os1))
              | Some e => (Returns (Some e), (s2, l2, os1))
              | None =>
                  match e2 with
                  | Some e => (Returns (Some e), (s2, l2, os1))
                  | None => (Returns None, (s2, l2, os1))
                  end
              end
          end
      end
  | (o, s1, os1) => (o, (s1, l, os1))
  end.

(** How a runner ends: it reports an error on the channel and stops, it
    panics, it waits for ever in a call, or it is still looping when the
    fuel of the model is spent. *)
Inductive runner_end : Type :=
| Reported (err : error)
| RunnerPanics
| RunnerBlocks
| StillRunning.

(** [Run(s, l, ch, single)]: the value sent on [ch] is the [Reported]
    error. *)
Fixpoint Run (fuel : nat) (s : Stream) (l : LogstashService) (os : OS) (single : bool)
  : runner_end * (Stream * LogstashService * OS) :=
  match fuel with
  | O => (StillRunning, (s, l, os))
  | S f =>
      match readOne s l os with
      | (Returns (Some err), (s', l', os')) =>
          let os'' :=
            if negb single
            then os_print os' (Tag s' ++ ": ending log read loop on condition: "
                               ++ error_string err ++ newline)%string
            else os' in
          (Reported err, (s', l', os''))
      | (Returns None, (s', l', os')) => Run f s' l' os' single
      | (Panics, st) => (RunnerPanics, st)
      | (Blocks, st) => (RunnerBlocks, st)
      end
  end.
End Tagger.

(** ** Mux.Run *)

(** [ch := make(chan error, 10)]. *)
Definition Mux_Run_chan (m : Mux) : Chan := make_chan 10.

(** [isSingle := len(m.streams) == 1], handed to every runner. *)
Definition Mux_Run_isSingle (m : Mux) : bool := List.length (streams m) =? 1.

(** The launch loop: [n++] once per stream. *)
Definition Mux_Run_launch (m : Mux) : Z :=
  fold_left (fun n _ => (n + 1)%Z) (streams m) 0%Z.

(** Where [Run] stands: in its [range] loop with counter [n], or back
    from the call with [err]. *)
Inductive main_state : Type :=
| Ranging (n : Z)
| Returned (err : option error).

(** The body of [for err := range ch], on the value received. *)
Definition Mux_Run_body (n : Z) (err : error) : main_state :=
  let n := (n - 1)%Z in
  if negb (is_EOF err) then Returned (Some err)
  else if (n =? 0)%Z then Returned None
  else Ranging n.

(** [for err := range ch].  A channel is first-in first-out, so the loop
    sees the reported errors in the order the runners sent them:
    [delivered].  The channel is never closed; when nothing more is sent
    the loop waits for ever. *)
Fixpoint Mux_Run_range (n : Z) (delivered : list error) : outcome :=
  match delivered with
  | [] => Blocks
  | err :: rest =>
      match Mux_Run_body n err with
      | Returned r => Returns r
      | Ranging n' => Mux_Run_range n' rest
      end
  end.

Definition Mux_Run (m : Mux) (os : OS) (delivered : list error) : outcome :=
  match Mux_Configure m os with
  | (Returns None, m', _) =>
      let ch := Mux_Run_chan m' in
      let isSingle := Mux_Run_isSingle m' in
      let n := Mux_Run_launch m' in
      Mux_Run_range n delivered
  | (o, _, _) => o
  end.

(** The runners that report after the loop has returned: each sends in
    turn on [ch] with nobody receiving.  The result is the channel and the
    reports whose sender is left waiting. *)
Fixpoint late_reports (ch : Chan) (reports : list error) : Chan * list error :=
  match reports with
  | [] => (ch, [])
  | e :: rest =>
      match chan_send ch e with
      | Some ch' => late_reports ch' rest
      | None => let '(ch', waiting) := late_reports ch rest in (ch', e :: waiting)
      end
  end.

(** ** The goroutines of Mux.Run *)

(** The run once the runners are launched.  A runner is in its loop, or
    has left it with an error and stands at [ch <- err], or has sent and
    returned; the runners differ only by that, so the state counts the
    first and the last and lists the errors of the second.  [received] is
    the history of the values the loop of [Run] has taken from the
    channel. *)
Record system : Type := mkSystem {
  looping : nat;
  sending : list error;
  finished : nat;
  chan : Chan;
  main : main_state;
  received : list error
}.

(** After the launch loop of [Run]. *)
Definition Mux_Run_start (m : Mux) : system :=
  mkSystem (List.length (streams m)) [] 0 (Mux_Run_chan m)
           (Ranging (Mux_Run_launch m)) [].

(** The moves of the scheduler: a runner leaves its loop with the error
    [readOne] returned; a runner at its send puts its error in the buffer,
    if there is room; the loop of [Run] takes the oldest value of the
    buffer and runs its body. *)
Inductive step : system -> system -> Prop :=
| step_runner_ends (k : nat) (snd_ : list error) (fin : nat) (ch : Chan)
    (mn : main_state) (rcv : list error) (e : error) :
    step (mkSystem (S k) snd_ fin ch mn rcv)
         (mkSystem k (snd_ ++ [e]) fin ch mn rcv)
| step_runner_sends (k : nat) (s1 : list error) (e : error) (s2 : list error)
    (fin : nat) (ch ch' : Chan) (mn : main_state) (rcv : list error) :
    chan_send ch e = Some ch' ->
    step (mkSystem k (s1 ++ e :: s2) fin ch mn rcv)
         (mkSystem k (s1 ++ s2) (S fin) ch' mn rcv)
| step_main_receives (k : nat) (snd_ : list error) (fin : nat) (ch ch' : Chan)
    (n : Z) (rcv : list error) (e : error) :
    chan_recv ch = Some (e, ch') ->
    step (mkSystem k snd_ fin ch (Ranging n) rcv)
         (mkSystem k snd_ fin ch' (Mux_Run_body n e) (rcv ++ [e])).

(** The states a run reaches from [start]. *)
Inductive reaches (start : system) : system -> Prop :=
| reaches_start : reaches start start
| reaches_step (mid final : system) :
    reaches start mid -> step mid final -> reaches start final.

(** Where the loop stands after receiving [delivered], from counter [n]. *)
Fixpoint range_state (n : Z) (delivered : list error) : main_state :=
  match delivered with
  | [] => Ranging n
  | err :: rest =>
      match Mux_Run_body n err with
      | Returned r => Returned r
      | Ranging n' => range_state n' rest
      end
  end.

(** The moves, as data: the error a runner ends with, the place in
    [sending] of the runner that sends, or the receive of the loop. *)
Inductive move : Type :=
| RunnerEnds (e : error)
| RunnerSends (i : nat)
| MainReceives.

(** One move, when it can be made. *)
Definition do_move (mv : move) (st : system) : option system :=
  match mv with
  | RunnerEnds e =>
      match looping st with
      | O => None
      | S k => Some (mkSystem k (sending st ++ [e]) (finished st) (chan st)
                              (main st) (received st))
      end
  | RunnerSends i =>
      match nth_error (sending st) i with
      | None => None
      | Some e =>
          match chan_send (chan st) e with
          | None => None
          | Some ch' =>
              Some (mkSystem (looping st)
                             (firstn i (sending st) ++ skipn (S i) (sending st))
                             (S (finished st)) ch' (main st) (received st))
          end
      end
  | MainReceives =>
      match main st, chan_recv (chan st) with
      | Ranging n, Some (e, ch') =>
          Some (mkSystem (looping st) (sending st) (finished st) ch'
                         (Mux_Run_body n e) (received st ++ [e]))
      | _, _ => None
      end
  end.

(** A schedule: the moves in order, as long as each can be made. *)
Fixpoint do_moves (mvs : list move) (st : system) : option system :=
  match mvs with
  | [] => Some st
  | mv :: rest =>
      match do_move mv st with
      | None => None
      | Some st' => do_moves rest st'
      end
  end.

(** ** parseStreamArg *)

Definition parseStreamArg (raw : string) : option Stream * option error :=
  let parts := Split raw ":" in
  match parts with
  | [p0; p1] =>
      let baseStream := mkBaseStream p1 raw None in
      match ParseInt p0 with
      | (fd, None) => (Some (IsPipeStream (mkPipeStream baseStream fd)), None)
      | (_, Some _) => (Some (IsNamedPipeStream (mkNamedPipeStream baseStream p0)), None)
      end
  | _ =>
      (None,
       Some (Errorf ("Specified stream " ++ raw ++ " has wrong number of components ("
                     ++ Itoa (List.length parts) ++ ")")%string))
  end.

(** ** parseArgs, mainInner, main *)

(** What [fs.Parse(os.Args[1:])] leaves behind: its error, the value of
    the [help] flag, the [LogstashService] as the [logstash] flag filled it
    through [Set] (its [url] is nil when the flag was not given), and the
    arguments after the flags. *)
Record ParsedFlags : Type := mkParsedFlags {
  flag_err : option error;
  flag_help : bool;
  flag_logstash : LogstashService;
  flag_args : list string
}.

(** The loop of [parseArgs] over [fs.Args()], with [acc] for
    [ret.streams].  [parseStreamArg] returns a stream or an error; a result
    with neither would append a nil stream, which the model has no value
    for, and ends the loop with what it has. *)
Fixpoint parseArgs_streams (args : list string) (acc : list Stream)
  : option (list Stream) * option error :=
  match args with
  | [] => (Some acc, None)
  | arg :: rest =>
      match parseStreamArg arg with
      | (_, Some err) => (None, Some err)
      | (Some stream, None) => parseArgs_streams rest (acc ++ [stream])
      | (None, None) => (Some acc, None)
      end
  end.

(** [parseArgs]: the [Mux], the error, and whether [printHelp] wrote the
    help text on the standard output. *)
Definition parseArgs (f : ParsedFlags) : option Mux * option error * bool :=
  match flag_err f with
  | Some err => (None, Some err, false)
  | None =>
      if flag_help f then (None, Some (Errorf "help wanted"), true)
      else
        match url (flag_logstash f) with
        | None => (None, Some (Errorf "require a --logstash parameter"), false)
        | Some _ =>
            if List.length (flag_args f) =? 0
            then (None, Some (Errorf "neet at least 1 stream for input; got 0"), false)
            else
              match parseArgs_streams (flag_args f) [] with
              | (Some ss, None) => (Some (mkMux (flag_logstash f) ss), None, false)
              | (_, err) => (None, err, false)
              end
        end
  end.

Definition mainInner (f : ParsedFlags) (os : OS) (delivered : list error) : outcome :=
  match parseArgs f with
  | (Some mux, None, _) => Mux_Run mux os delivered
  | (_, err, _) => Returns err
  end.

(** [main] (the name [main] is taken by the state of the goroutines): the
    line it prints on [os.Stderr] and the argument of [os.Exit], 0 for the
    return from [main]; [None] when [mainInner] does not return. *)
Definition main_exit (f : ParsedFlags) (os : OS) (delivered : list error)
  : option (list string * Z) :=
  match mainInner f os delivered with
  | Returns None => Some ([], 0%Z)
  | Returns (Some err) =>
      Some ([("logmux fatal error: " ++ error_string err ++ newline)%string], (-1)%Z)
  | Panics => None
  | Blocks => None
  end.

(** ** Notions used in the statements *)

(** [strings.Join(parts, sep)] with a one-byte separator, the inverse of
    [Split]. *)
Fixpoint Join (parts : list string) (sep : ascii) : string :=
  match parts with
  | [] => EmptyString
  | [p] => p
  | p :: rest => (p ++ String sep (Join rest sep))%string
  end.

(** The bytes [hasNonSpace] passes over: space, tab, carriage return and
    line feed. *)
Definition blank (b : byte) : bool :=
  match b with
  | x20 | x09 | x0d | x0a => true
  | _ => false
  end.

(** The tag member and the tag object as the specification writes them:
    the tag itself between two double quotes. *)
Definition spec_tag_member (tag : string) : string :=
  ("," ++ dquote ++ "tag" ++ dquote ++ ":" ++ dquote ++ tag ++ dquote)%string.

Definition spec_tag_object (tag : string) : string :=
  ("{" ++ dquote ++ "tag" ++ dquote ++ ":" ++ dquote ++ tag ++ dquote ++ "}")%string.

(** Tags that [%q] prints as they are: printable ASCII without the double
    quote and the backslash. *)
Definition plain_byte (b : byte) : bool :=
  in_range 32 126 (byte_val b) && negb (Byte.eqb b x22) && negb (Byte.eqb b x5c).

Definition plain_tag (tag : string) : bool :=
  forallb plain_byte (bytes_of_string tag).

(** Tables for the examples: no rune above [0xFF] is printable.  The
    examples use ASCII tags, which never reach the tables. *)
Definition sample_tables : UnicodeTables := {| isPrintTable := fun _ => false |}.

(** [k] read attempts in a row on one stream, whatever each returns: the
    outcomes, and the stream, the sink and the system after the last. *)
Fixpoint read_attempts {tables : UnicodeTables} (k : nat)
    (s : Stream) (l : LogstashService) (os : OS)
  : list outcome * (Stream * LogstashService * OS) :=
  match k with
  | O => ([], (s, l, os))
  | S k' =>
      let '(o, (s', l', os')) := readOne s l os in
      let '(outs, st) := read_attempts k' s' l' os' in
      (o :: outs, st)
  end.

(** Values for the examples: the descriptor stream of ["3:app.error"],
    closed or open on given data; a sink whose connection works and one
    whose next write fails; a system with nothing to offer. *)
Definition closed_pipe : PipeStream :=
  mkPipeStream (mkBaseStream "app.error" "3:app.error" None) 3.

Definition open_pipe (data : string) (err : error) : PipeStream :=
  mkPipeStream
    (mkBaseStream "app.error" "3:app.error" (Some (mkReader (bytes_of_string data) err))) 3.

Definition closed_fifo : NamedPipeStream :=
  mkNamedPipeStream (mkBaseStream "nginx.access" "/var/log/x:nginx.access" None) "/var/log/x".

Definition sink_with (script : list WriteResult) : LogstashService :=
  mkLogstashService (Some "localhost:5000") "tcp://localhost:5000"
                    (Some (mkWriter [] [] script)).

Definition healthy_sink : LogstashService := sink_with [].

Definition broken_sink : LogstashService :=
  sink_with [WriteErr 0 (SysError "write: broken pipe")].

Definition quiet_os : OS :=
  mkOS (fun _ => inr []) [] (fun _ => None) (fun _ => ([], io_EOF)) [] [].

Definition refusing_os : OS :=
  mkOS (fun _ => inr []) [("/var/log/x", true)] (fun _ => None) (fun _ => ([], io_EOF))
       [inl (SysError "open /var/log/x: permission denied")] [].

(** What holds of every state of a run of [m]: each runner is in one of
    its three places; each value sent is in the buffer or was received; the
    channel is the one [Run] made; the loop stands where the values
    received have taken it. *)
Definition run_invariant (m : Mux) (st : system) : Prop :=
  looping st + List.length (sending st) + finished st = List.length (streams m)
  /\ List.length (received st) + List.length (ch_buf (chan st)) = finished st
  /\ ch_cap (chan st) = 10
  /\ main st = range_state (Mux_Run_launch m) (received st).

(** A multiplexer over [k] descriptor streams. *)
Definition pipes_mux (k : nat) : Mux :=
  mkMux (mkLogstashService (Some "localhost:5000") "tcp://localhost:5000" None)
        (repeat (IsPipeStream closed_pipe) k).

(** A run of two runners: one ends on [io.EOF], the other on a read error;
    both send; the loop receives the two errors in that order. *)
Definition two_pipes_schedule : list move :=
  [RunnerEnds io_EOF; RunnerEnds (SysError "read: input/output error");
   RunnerSends 0; RunnerSends 0; MainReceives; MainReceives].

Definition two_pipes_failed : system :=
  mkSystem 0 [] 2 (mkChan 10 [])
           (Returned (Some (SysError "read: input/output error")))
           [io_EOF; SysError "read: input/output error"].

(** A run of twelve runners: the first ends on a read error, sends it, and
    the loop returns on it; the eleven others end on [io.EOF], and ten of
    them send. *)
Definition twelve_pipes_schedule : list move :=
  [RunnerEnds (SysError "read: input/output error"); RunnerSends 0; MainReceives]
    ++ repeat (RunnerEnds io_EOF) 11 ++ repeat (RunnerSends 0) 10.

Definition twelve_pipes_stuck : system :=
  mkSystem 0 [io_EOF] 11 (mkChan 10 (repeat io_EOF 10))
           (Returned (Some (SysError "read: input/output error")))
           [SysError "read: input/output error"].

(** The pipe of the scenario: one JSON line, then the end of the stream. *)
Definition boom_line : string :=
  ("{" ++ dquote ++ "msg" ++ dquote ++ ":" ++ dquote ++ "boom" ++ dquote ++ "}" ++ newline)%string.

Definition boom_tagged : string :=
  ("{" ++ dquote ++ "msg" ++ dquote ++ ":" ++ dquote ++ "boom" ++ dquote ++ ","
       ++ dquote ++ "tag" ++ dquote ++ ":" ++ dquote ++ "app.error" ++ dquote ++ "}"
       ++ newline)%string.

Definition boom_os : OS :=
  mkOS (fun _ => inr []) [] (fun _ => None)
       (fun fd => if (fd =? 3)%Z then (bytes_of_string boom_line, io_EOF) else ([], io_EOF))
       [] [].

(** The lines of a pipe, as [ReadBytes] cuts them: each ends with its
    line feed, but for the last when the pipe ends without one.  [cur]
    holds the bytes of the line under way. *)
Fixpoint split_lines (cur : list byte) (data : list byte) : list (list byte) :=
  match data with
  | [] => match cur with [] => [] | _ => [cur] end
  | c :: rest =>
      if Byte.eqb c x0a then (cur ++ [c]) :: split_lines [] rest
      else split_lines (cur ++ [c]) rest
  end.

Definition lines (data : list byte) : list (list byte) := split_lines [] data.

(** Two values of one stream: the same kind, with the same tag, raw
    specification and descriptor or path. *)
Definition same_stream (s s' : Stream) : Prop :=
  Tag s' = Tag s /\ Raw s' = Raw s
  /\ match s, s' with
     | IsPipeStream p, IsPipeStream p' => fd p' = fd p
     | IsNamedPipeStream n, IsNamedPipeStream n' => path n' = path n
     | _, _ => False
     end.

(** What [Open] makes of a stream in the system [os]. *)
Definition opened_in (os : OS) (s s' : Stream) : Prop :=
  match s with
  | IsPipeStream p =>
      s' = IsPipeStream
             (mkPipeStream
                (mkBaseStream (tag (p_base p)) (raw (p_base p))
                              (Some (newBufferedReader (os_fds os (fd p)))))
                (fd p))
  | IsNamedPipeStream n =>
      s' = s /\ os_stat (os_files os) (path n) = Some true
  end.

(** No error of the script of a writer, and no failing open of the system,
    is [io.EOF]. *)
Definition script_without_EOF (script : list WriteResult) : Prop :=
  Forall (fun r => match r with WriteErr _ io_EOF => False | _ => True end) script.

Definition opens_without_EOF (opens : list (error + (list byte * error))) : Prop :=
  Forall (fun r => match r with inl io_EOF => False | _ => True end) opens.

Definition sink_without_EOF (l : LogstashService) : Prop :=
  match sink l with
  | None => True
  | Some w => script_without_EOF (w_script w)
  end.

(** A closed string literal.  [printable] holds of the bytes that are no
    control characters: from the space on, but for the delete character.
    [literal_byte] holds of those that may stand for themselves between the
    quotes: printable, and neither the double quote nor the backslash.
    [literal_body] reads what stands between the quotes: a backslash takes
    the byte after it, which has to be there and printable; every other
    byte has to be a [literal_byte]. *)
Definition printable (b : byte) : bool :=
  ((32 <=? byte_val b) && negb (byte_val b =? 127))%Z.

Definition literal_byte (b : byte) : bool :=
  (printable b && negb (byte_val b =? 34) && negb (byte_val b =? 92))%Z.

Fixpoint literal_body (l : list byte) : bool :=
  match l with
  | [] => true
  | c :: rest =>
      if (byte_val c =? 92)%Z then
        match rest with
        | [] => false
        | e :: rest' => printable e && literal_body rest'
        end
      else literal_byte c && literal_body rest
  end.

(** What [processLine] puts in front of the quoted tag: the trimmed line
    up to its closing brace and the start of a member, or the start of an
    object. *)
Definition tag_member_front (interior : list byte) : list byte :=
  if hasNonSpace interior
  then (x7b :: interior) ++ bytes_of_string ("," ++ dquote ++ "tag" ++ dquote ++ ":")%string
  else bytes_of_string ("{" ++ dquote ++ "tag" ++ dquote ++ ":")%string.

(** What [Configure] may change in the system: entries are added to the
    file system, the entries that were there keep their kind, and nothing
    else moves. *)
Definition files_kept (os os' : OS) : Prop :=
  forall p b, os_stat (os_files os) p = Some b -> os_stat (os_files os') p = Some b.

Definition only_files_change (os os' : OS) : Prop :=
  os_dial os' = os_dial os /\ os_mkfifo os' = os_mkfifo os /\ os_fds os' = os_fds os
  /\ os_opens os' = os_opens os /\ os_stderr os' = os_stderr os.

(** Values for the examples: a named-pipe stream on a path that holds a
    regular file, and the system that has that file. *)
Definition fifo_on_file : NamedPipeStream :=
  mkNamedPipeStream (mkBaseStream "syslog" "/etc/passwd:syslog" None) "/etc/passwd".

Definition os_with_file : OS :=
  mkOS (fun _ => inr []) [("/etc/passwd", false)] (fun _ => None) (fun _ => ([], io_EOF))
       [] [].

(** What a runner hands to the sink for the data of a pipe: every line, as
    [processLine] tags it. *)
Definition forwarded {tables : UnicodeTables} (tag : string) (data : list byte)
  : list (list byte) :=
  map (fun line => processLine line tag) (lines data).

(** A connection whose coming writes all succeed, and the sink once the
    buffers [out] have gone through such a connection [w]. *)
Definition no_write_fails (w : Writer) : Prop :=
  Forall (fun r => r = WriteOk) (w_script w).

Definition sink_after (l : LogstashService) (w : Writer) (out : list (list byte))
  : LogstashService :=
  mkLogstashService (url l) (ls_raw l)
    (Some (mkWriter (w_calls w ++ out) (w_sent w ++ List.concat out)
                    (skipn (List.length out) (w_script w)))).

(** The two notices on [os.Stderr]. *)
Definition opening_notice (tag path : string) : string :=
  ("opened named pipe for tag " ++ tag ++ ": " ++ path ++ newline)%string.

Definition ending_notice (tag : string) (err : error) : string :=
  (tag ++ ": ending log read loop on condition: " ++ error_string err ++ newline)%string.

(** The system once a runner has reported [err]: the notice is printed
    unless the stream is the only one. *)
Definition os_after_report (os : OS) (single : bool) (tag : string) (err : error) : OS :=
  if single then os else os_print os (ending_notice tag err).

(** The system once the opens of [k] files by the stream have completed. *)
Definition os_after_opens (os : OS) (k : nat) (tag path : string) : OS :=
  mkOS (os_dial os) (os_files os) (os_mkfifo os) (os_fds os)
       (skipn k (os_opens os)) (os_stderr os ++ repeat (opening_notice tag path) k).

(** What a runner hands to the sink for the files a FIFO delivers one
    after the other. *)
Definition forwarded_files {tables : UnicodeTables} (tag : string)
    (files : list (list byte * error)) : list (list byte) :=
  List.concat (map (fun file => forwarded tag (fst file)) files).

(** A system for the examples: the FIFO is opened by a writer that sends
    one line and closes, and the next open fails. *)
Definition one_writer_os : OS :=
  mkOS (fun _ => inr []) [("/var/log/x", true)] (fun _ => None) (fun _ => ([], io_EOF))
       [inr (bytes_of_string ("GET /" ++ newline), io_EOF);
        inl (SysError "open /var/log/x: permission denied")] [].

(** What a runner may change: the stream keeps its identity and the sink
    its address; the connection only gets more calls and more bytes; of the
    system, opens are used up and lines are added to [os.Stderr], and
    nothing else moves. *)
Definition writer_grows (w w' : Writer) : Prop :=
  (exists calls, w_calls w' = w_calls w ++ calls)
  /\ (exists sent, w_sent w' = w_sent w ++ sent).

Definition runner_frame (s : Stream) (l : LogstashService) (os : OS)
    (s' : Stream) (l' : LogstashService) (os' : OS) : Prop :=
  same_stream s s'
  /\ url l' = url l /\ ls_raw l' = ls_raw l
  /\ match sink l, sink l' with
     | None, None => True
     | Some w, Some w' => writer_grows w w'
     | _, _ => False
     end
  /\ os_dial os' = os_dial os /\ os_files os' = os_files os
  /\ os_mkfifo os' = os_mkfifo os /\ os_fds os' = os_fds os
  /\ (exists k, os_opens os' = skipn k (os_opens os))
  /\ (exists printed, os_stderr os' = os_stderr os ++ printed).

(** What is left to do once every runner has left its loop: two moves for
    a runner at its send, one for a value in the buffer. *)
Definition moves_left (st : system) : nat :=
  2 * List.length (sending st) + List.length (ch_buf (chan st)).

(** States for the examples: two runners have left their loop on [io.EOF]
    and stand at their send; then both have sent. *)
Definition two_pipes_ended : system :=
  mkSystem 0 [io_EOF; io_EOF] 0 (mkChan 10 []) (Ranging 2) [].

(** The state of [k + 12] runners in which the loop has returned on the
    error [e] of one, ten others have filled the buffer with [io.EOF], and
    the [k + 1] last stand at their send. *)
Definition stuck_senders (k : nat) (e : error) : system :=
  mkSystem 0 (repeat io_EOF (S k)) 11 (mkChan 10 (repeat io_EOF 10))
           (Returned (Some e)) [e].

(** A whole line: bytes that are no line feed, and the line feed. *)
Definition whole_line (line : list byte) : Prop :=
  exists body, line = body ++ [x0a] /\ Forall (fun b => b <> x0a) body.

(* ================================================================= *)
(** * Part III: theorems *)

(** ** strings.Split *)

Lemma Split_length (s : string) (sep : ascii) :
  List.length (Split s sep) = S (count_sep s sep).
Proof.
  induction s as [|c rest IH]; simpl; [reflexivity|].
  destruct (Ascii.eqb c sep); simpl.
  - now rewrite IH.
  - destruct (Split rest sep) as [|p ps]; simpl in *; [discriminate IH | exact IH].
Qed.

Lemma Split_nonempty (s : string) (sep : ascii) : Split s sep <> [].
Proof.
  intro H. pose proof (Split_length s sep) as L. rewrite H in L. discriminate L.
Qed.

Lemma Join_Split (s : string) (sep : ascii) : Join (Split s sep) sep = s.
Proof.
  induction s as [|c rest IH]; [reflexivity|].
  simpl. destruct (Ascii.eqb_spec c sep) as [->|ne].
  - pose proof (Split_nonempty rest sep) as NE.
    simpl. destruct (Split rest sep) as [|p ps]; [contradiction|].
    simpl. now rewrite <- IH.
  - destruct (Split rest sep) as [|p ps] eqn:E; [now apply Split_nonempty in E|].
    rewrite <- IH. destruct ps; reflexivity.
Qed.

Lemma Split_parts_free (s : string) (sep : ascii) :
  Forall (fun p => count_sep p sep = 0) (Split s sep).
Proof.
  induction s as [|c rest IH]; simpl.
  - constructor; [reflexivity | constructor].
  - destruct (Ascii.eqb c sep) eqn:E.
    + constructor; [reflexivity | exact IH].
    + destruct (Split rest sep) as [|p ps].
      * constructor; [simpl; now rewrite E | constructor].
      * inversion IH as [|? ? Hp Hps]; subst.
        constructor; [simpl; now rewrite E | exact Hps].
Qed.

Lemma Split_two_iff (s : string) (sep : ascii) :
  List.length (Split s sep) = 2 <-> count_sep s sep = 1.
Proof. rewrite Split_length. lia. Qed.

(** ** strconv.ParseInt *)

Lemma ParseUint_loop_range (s : string) (n : Z) :
  (0 <= n <= maxUint64)%Z ->
  (0 <= fst (ParseUint_loop s n) <= maxUint64)%Z.
Proof.
  revert n. induction s as [|c rest IH]; intros n Hn; simpl; [exact Hn|].
  destruct ((48 <=? _)%Z && (_ <=? 57)%Z); [|simpl; unfold maxUint64; lia].
  destruct (_ <=? n)%Z; [simpl; unfold maxUint64; lia|].
  match goal with |- context [if ?b then _ else _] => destruct b eqn:E end.
  - simpl; unfold maxUint64; lia.
  - apply IH. apply orb_false_iff in E as [_ E]. apply Z.ltb_ge in E.
    split; [|exact E]. apply Z.mod_pos_bound. lia.
Qed.

(** A successful [ParseInt] yields an [int64]. *)
Lemma ParseInt_int64 (s : string) (v : Z) :
  ParseInt s = (v, None) -> (- 2 ^ 63 <= v < 2 ^ 63)%Z.
Proof.
  unfold ParseInt. destruct s as [|c rest]; [discriminate|].
  set (neg := Ascii.eqb c "-").
  set (s1 := if Ascii.eqb c "+" || neg then rest else String c rest).
  assert (R : (0 <= fst (ParseUint s1) <= maxUint64)%Z).
  { unfold ParseUint. destruct s1; [simpl; unfold maxUint64; lia|].
    apply ParseUint_loop_range. unfold maxUint64; lia. }
  destruct (ParseUint s1) as [un err]. simpl in R.
  assert (K : forall w, (if negb neg && (2 ^ 63 <=? un)%Z
                         then ((2 ^ 63 - 1)%Z, Some ErrRange)
                         else if neg && (2 ^ 63 <? un)%Z
                              then ((- 2 ^ 63)%Z, Some ErrRange)
                              else ((if neg then (- un)%Z else un), None)) = (w, None) ->
                        (- 2 ^ 63 <= w < 2 ^ 63)%Z).
  { intros w. destruct neg; cbn [negb andb].
    - destruct (2 ^ 63 <? un)%Z eqn:E; [discriminate|].
      apply Z.ltb_ge in E. intros [= <-]. lia.
    - destruct (2 ^ 63 <=? un)%Z eqn:E; [discriminate|].
      apply Z.leb_gt in E. intros [= <-]. lia. }
  destruct err as [[|]|]; [discriminate | apply K | apply K].
Qed.

(** ** parseStreamArg *)

Lemma parseStreamArg_two (raw p0 p1 : string) :
  Split raw ":" = [p0; p1] ->
  parseStreamArg raw =
    match ParseInt p0 with
    | (fd, None) =>
        (Some (IsPipeStream (mkPipeStream (mkBaseStream p1 raw None) fd)), None)
    | (_, Some _) =>
        (Some (IsNamedPipeStream (mkNamedPipeStream (mkBaseStream p1 raw None) p0)), None)
    end.
Proof. intros E. unfold parseStreamArg. now rewrite E. Qed.

Lemma parseStreamArg_other (raw : string) :
  List.length (Split raw ":") <> 2 ->
  parseStreamArg raw =
    (None,
     Some (Errorf ("Specified stream " ++ raw ++ " has wrong number of components ("
                   ++ Itoa (List.length (Split raw ":")) ++ ")")%string)).
Proof.
  intros NE. unfold parseStreamArg.
  destruct (Split raw ":") as [|p0 [|p1 [|p2 ps]]]; try reflexivity.
  now contradiction NE.
Qed.

Lemma parseStreamArg_two_parts (raw : string) :
  List.length (Split raw ":") = 2 -> exists s, parseStreamArg raw = (Some s, None).
Proof.
  intros L. destruct (Split raw ":") as [|p0 [|p1 [|p2 ps]]] eqn:E; try discriminate L.
  rewrite (parseStreamArg_two _ _ _ E).
  destruct (ParseInt p0) as [v [e|]]; eexists; reflexivity.
Qed.

Lemma parseStreamArg_ok_iff (raw : string) :
  snd (parseStreamArg raw) = None <-> List.length (Split raw ":") = 2.
Proof.
  split.
  - intros H. destruct (Nat.eq_dec (List.length (Split raw ":")) 2) as [L|NE]; [exact L|].
    rewrite (parseStreamArg_other _ NE) in H. discriminate H.
  - intros L. destruct (parseStreamArg_two_parts raw L) as [s E]. now rewrite E.
Qed.

(** C8.  A stream specification parses iff [strings.Split] on the colon
    yields exactly two parts.  With two parts [p0] and [p1]: when
    [strconv.ParseInt(p0, 10, 64)] succeeds with [fd], the result is the
    descriptor stream of descriptor [fd] and tag [p1]; otherwise it is the
    named-pipe stream of path [p0] and tag [p1].  With any other number of
    parts the result is no stream and a configuration error. *)
Theorem parseStreamArg_spec (raw : string) :
  (snd (parseStreamArg raw) = None <-> List.length (Split raw ":") = 2)
  /\ ((exists s, parseStreamArg raw = (Some s, None)) <-> List.length (Split raw ":") = 2)
  /\ (forall p0 p1 fd,
        Split raw ":" = [p0; p1] -> ParseInt p0 = (fd, None) ->
        parseStreamArg raw =
          (Some (IsPipeStream (mkPipeStream (mkBaseStream p1 raw None) fd)), None))
  /\ (forall p0 p1 v e,
        Split raw ":" = [p0; p1] -> ParseInt p0 = (v, Some e) ->
        parseStreamArg raw =
          (Some (IsNamedPipeStream (mkNamedPipeStream (mkBaseStream p1 raw None) p0)), None))
  /\ (List.length (Split raw ":") <> 2 ->
      exists msg, parseStreamArg raw = (None, Some (Errorf msg))).
Proof.
  split; [apply parseStreamArg_ok_iff|]. split; [|split; [|split]].
  - split; [|apply parseStreamArg_two_parts].
    intros [s H]. apply parseStreamArg_ok_iff. now rewrite H.
  - intros p0 p1 fd E P. rewrite (parseStreamArg_two _ _ _ E). now rewrite P.
  - intros p0 p1 v e E P. rewrite (parseStreamArg_two _ _ _ E). now rewrite P.
  - intros NE. rewrite (parseStreamArg_other _ NE). eexists; reflexivity.
Qed.

(** C10.  [parseStreamArg] checks nothing but the number of parts: [":tag"]
    is a named-pipe stream with the empty path, ["5:"] a descriptor stream
    with the empty tag, and ["-3:tag"] a descriptor stream with descriptor
    -3. *)
Theorem parseStreamArg_degenerate :
  parseStreamArg ":tag" =
    (Some (IsNamedPipeStream (mkNamedPipeStream (mkBaseStream "tag" ":tag" None) "")), None)
  /\ parseStreamArg "5:" =
       (Some (IsPipeStream (mkPipeStream (mkBaseStream "" "5:" None) 5)), None)
  /\ parseStreamArg "-3:tag" =
       (Some (IsPipeStream (mkPipeStream (mkBaseStream "tag" "-3:tag" None) (-3))), None).
Proof. repeat split; vm_compute; reflexivity. Qed.

(** ** Strings and bytes *)

Lemma string_of_bytes_app (a b : list byte) :
  string_of_bytes (a ++ b) = (string_of_bytes a ++ string_of_bytes b)%string.
Proof.
  unfold string_of_bytes, string_of_list_byte.
  induction a as [|c a IH]; simpl; [reflexivity | now rewrite IH].
Qed.

Lemma bytes_of_string_app (a b : string) :
  bytes_of_string (a ++ b)%string = bytes_of_string a ++ bytes_of_string b.
Proof.
  unfold bytes_of_string, list_byte_of_string.
  induction a as [|c a IH]; simpl; [reflexivity | now rewrite IH].
Qed.

Lemma append_assoc (a b c : string) :
  ((a ++ b) ++ c = a ++ (b ++ c))%string.
Proof. induction a as [|x a IH]; simpl; [reflexivity | now rewrite IH]. Qed.

Lemma string_of_bytes_of_string (s : string) :
  string_of_bytes (bytes_of_string s) = s.
Proof. apply string_of_list_byte_of_string. Qed.

(** ** The %q verb on plain tags *)

Section QuoteFacts.
Context {tables : UnicodeTables}.

Lemma appendQuoted_loop_cons (f : nat) (c : byte) (rest : list byte) :
  appendQuoted_loop (S f) (c :: rest) =
    let '(r, width) := if nonASCII c then DecodeRune (c :: rest) else (byte_val c, 1) in
    if Nat.eqb width 1 && (r =? RuneError)%Z then
      ([x5c; x78] ++ hex_digits (byte_val c) [4; 0]%Z)
        ++ appendQuoted_loop f (skipn width (c :: rest))
    else appendEscapedRune r ++ appendQuoted_loop f (skipn width (c :: rest)).
Proof. reflexivity. Qed.

Lemma plain_byte_quoted (c : byte) :
  plain_byte c = true ->
  nonASCII c = false
  /\ (byte_val c =? RuneError)%Z = false
  /\ appendEscapedRune (byte_val c) = [c].
Proof.
  intros H. destruct c; vm_compute in H; try discriminate H;
    repeat split; vm_compute; reflexivity.
Qed.

Lemma appendQuoted_loop_plain (b : list byte) :
  forallb plain_byte b = true ->
  forall fuel, List.length b <= fuel -> appendQuoted_loop fuel b = b.
Proof.
  induction b as [|c rest IH]; intros P fuel L.
  - destruct fuel; reflexivity.
  - destruct fuel as [|f]; [simpl in L; lia|].
    simpl in P. apply andb_true_iff in P as [Pc Prest].
    destruct (plain_byte_quoted c Pc) as (NA & NE & ESC).
    rewrite appendQuoted_loop_cons, NA, NE, andb_false_r, ESC.
    simpl. f_equal. apply IH; [exact Prest | simpl in L; lia].
Qed.

(** On a plain tag [%q] prints the tag between two double quotes. *)
Lemma Quote_plain (tag : string) :
  plain_tag tag = true -> Quote tag = (dquote ++ tag ++ dquote)%string.
Proof.
  intros P. unfold Quote.
  rewrite (appendQuoted_loop_plain _ P _ (le_n _)).
  rewrite !string_of_bytes_app, string_of_bytes_of_string. reflexivity.
Qed.

Lemma Sprintf_tag_member_plain (tag : string) :
  plain_tag tag = true -> Sprintf_tag_member tag = (spec_tag_member tag ++ "}")%string.
Proof.
  intros P. unfold Sprintf_tag_member, spec_tag_member. rewrite (Quote_plain _ P).
  unfold dquote. simpl. now rewrite !append_assoc.
Qed.

Lemma Sprintf_tag_object_plain (tag : string) :
  plain_tag tag = true -> Sprintf_tag_object tag = spec_tag_object tag.
Proof.
  intros P. unfold Sprintf_tag_object, spec_tag_object. rewrite (Quote_plain _ P).
  unfold dquote. simpl. now rewrite !append_assoc.
Qed.

End QuoteFacts.

(** ** hasNonSpace and the slices of processLine *)

Lemma hasNonSpace_cons (b : byte) (rest : list byte) :
  hasNonSpace (b :: rest) = if blank b then hasNonSpace rest else true.
Proof. destruct b; reflexivity. Qed.

Lemma hasNonSpace_true_iff (buf : list byte) :
  hasNonSpace buf = true <-> Exists (fun b => blank b = false) buf.
Proof.
  induction buf as [|b rest IH].
  - split; [discriminate | intros H; inversion H].
  - rewrite hasNonSpace_cons, Exists_cons. destruct (blank b) eqn:E.
    + rewrite IH. split; [auto | intros [H|H]; [discriminate | exact H]].
    + split; auto.
Qed.

Lemma hasNonSpace_false_iff (buf : list byte) :
  hasNonSpace buf = false <-> Forall (fun b => blank b = true) buf.
Proof.
  induction buf as [|b rest IH].
  - split; [constructor | reflexivity].
  - rewrite hasNonSpace_cons, Forall_cons_iff. destruct (blank b) eqn:E.
    + rewrite IH. tauto.
    + split; [discriminate | intros [H _]; discriminate H].
Qed.

Section Braces.
Variable interior : list byte.

Lemma braces_length :
  List.length (x7b :: interior ++ [x7d]) - 1 = S (List.length interior).
Proof. simpl. rewrite length_app. simpl. lia. Qed.

Lemma braces_last :
  nth (S (List.length interior)) (x7b :: interior ++ [x7d]) x00 = x7d.
Proof. simpl. rewrite app_nth2 by lia. now rewrite Nat.sub_diag. Qed.

Lemma braces_interior :
  slice (x7b :: interior ++ [x7d]) 1 (S (List.length interior)) = interior.
Proof.
  unfold slice. simpl.
  rewrite Nat.sub_0_r, firstn_app, Nat.sub_diag, firstn_all. simpl. apply app_nil_r.
Qed.

Lemma braces_front :
  slice (x7b :: interior ++ [x7d]) 0 (S (List.length interior)) = x7b :: interior.
Proof.
  unfold slice. simpl. f_equal.
  rewrite firstn_app, Nat.sub_diag, firstn_all. simpl. apply app_nil_r.
Qed.

End Braces.

(** A non-empty slice that starts with an opening brace and ends with a
    closing one has the shape used in the statements below. *)
Lemma brace_shape (t : list byte) :
  nth 0 t x00 = x7b -> nth (List.length t - 1) t x00 = x7d ->
  exists interior, t = x7b :: interior ++ [x7d].
Proof.
  intros F L. destruct t as [|c rest]; [discriminate F|].
  simpl in F. subst c.
  destruct rest as [|d rest'] using rev_ind; [discriminate L|].
  clear IHrest'. exists rest'. f_equal.
  simpl in L. rewrite length_app in L. simpl in L.
  replace (List.length rest' + 1 - 0) with (S (List.length rest')) in L by lia.
  simpl in L. rewrite app_nth2 in L by lia. rewrite Nat.sub_diag in L. simpl in L.
  now subst d.
Qed.

(** ** processLine *)

Section ProcessLine.
Context {tables : UnicodeTables}.

Lemma processLine_empty (buf : list byte) (tag : string) :
  TrimSpace buf = [] -> processLine buf tag = [].
Proof. intros E. unfold processLine. now rewrite E. Qed.

(** The object branch of [processLine], on the shape of the trimmed line. *)
Lemma processLine_object (buf : list byte) (tag : string) (interior : list byte) :
  TrimSpace buf = x7b :: interior ++ [x7d] ->
  processLine buf tag =
    (if hasNonSpace interior
     then (x7b :: interior) ++ bytes_of_string (Sprintf_tag_member tag)
     else bytes_of_string (Sprintf_tag_object tag)) ++ [x0a].
Proof.
  intros E. unfold processLine. rewrite E, braces_length.
  rewrite braces_last, braces_interior, braces_front.
  reflexivity.
Qed.

(** The text branch of [processLine]. *)
Lemma processLine_text (buf : list byte) (tag : string) :
  TrimSpace buf <> [] ->
  Byte.eqb (nth 0 (TrimSpace buf) x00) x7b
    && Byte.eqb (nth (List.length (TrimSpace buf) - 1) (TrimSpace buf) x00) x7d = false ->
  processLine buf tag =
    (bytes_of_string tag ++ bytes_of_string ": ") ++ TrimSpace buf ++ [x0a].
Proof.
  intros NE B. unfold processLine. rewrite B.
  destruct (TrimSpace buf) as [|c t]; [contradiction|].
  simpl. now rewrite <- !app_assoc.
Qed.

(** C4, as amended.  When the trimmed line is an opening brace, an interior
    with at least one byte that is not blank, and a closing brace, the
    result is the trimmed line up to the closing brace, then the member
    [,"tag":q] with [q] the tag as [%q] prints it, then the closing brace
    and one line feed.  When the tag is plain, [q] is the tag between
    double quotes, and the member is the one the specification writes. *)
Theorem processLine_object_with_members
    (buf : list byte) (tag : string) (interior : list byte) :
  TrimSpace buf = x7b :: interior ++ [x7d] ->
  Exists (fun b => blank b = false) interior ->
  processLine buf tag =
    (x7b :: interior)
      ++ bytes_of_string ("," ++ dquote ++ "tag" ++ dquote ++ ":" ++ Quote tag ++ "}")%string
      ++ [x0a]
  /\ (plain_tag tag = true ->
      processLine buf tag =
        (x7b :: interior) ++ bytes_of_string (spec_tag_member tag ++ "}")%string ++ [x0a]).
Proof.
  intros E N. apply hasNonSpace_true_iff in N.
  rewrite (processLine_object _ _ _ E), N, <- app_assoc.
  split; [reflexivity|].
  intros P. now rewrite (Sprintf_tag_member_plain _ P).
Qed.

(** C5, as amended.  When the trimmed line is an opening brace, an interior
    that is empty or all blank, and a closing brace, the result is the
    object [{"tag":q}] with [q] the tag as [%q] prints it, and one line
    feed.  When the tag is plain this is the object the specification
    writes. *)
Theorem processLine_empty_object
    (buf : list byte) (tag : string) (interior : list byte) :
  TrimSpace buf = x7b :: interior ++ [x7d] ->
  Forall (fun b => blank b = true) interior ->
  processLine buf tag =
    bytes_of_string ("{" ++ dquote ++ "tag" ++ dquote ++ ":" ++ Quote tag ++ "}")%string
      ++ [x0a]
  /\ (plain_tag tag = true ->
      processLine buf tag = bytes_of_string (spec_tag_object tag) ++ [x0a]).
Proof.
  intros E B. apply hasNonSpace_false_iff in B.
  rewrite (processLine_object _ _ _ E), B.
  split; [reflexivity|].
  intros P. now rewrite (Sprintf_tag_object_plain _ P).
Qed.

End ProcessLine.

(** The examples of the tagger. *)

Lemma processLine_object_with_members_witness :
  processLine (tables := sample_tables)
    (bytes_of_string ("{" ++ dquote ++ "a" ++ dquote ++ ":1}" ++ newline)%string) "app.error"
  = bytes_of_string ("{" ++ dquote ++ "a" ++ dquote ++ ":1," ++ dquote ++ "tag" ++ dquote
                     ++ ":" ++ dquote ++ "app.error" ++ dquote ++ "}" ++ newline)%string.
Proof.
  refine (eq_trans
    (proj2 (processLine_object_with_members (tables := sample_tables)
              (bytes_of_string ("{" ++ dquote ++ "a" ++ dquote ++ ":1}" ++ newline)%string)
              "app.error"
              (bytes_of_string (dquote ++ "a" ++ dquote ++ ":1")%string)
              _ _) _) _).
  - vm_compute; reflexivity.
  - apply Exists_cons_hd. reflexivity.
  - reflexivity.
  - vm_compute; reflexivity.
Defined.

Lemma processLine_empty_object_witness :
  processLine (tables := sample_tables) (bytes_of_string ("{ }" ++ newline)%string) "app.error"
  = bytes_of_string ("{" ++ dquote ++ "tag" ++ dquote ++ ":" ++ dquote ++ "app.error"
                     ++ dquote ++ "}" ++ newline)%string.
Proof.
  refine (eq_trans
    (proj2 (processLine_empty_object (tables := sample_tables)
              (bytes_of_string ("{ }" ++ newline)%string) "app.error" [x20] _ _) _) _).
  - vm_compute; reflexivity.
  - repeat constructor.
  - reflexivity.
  - vm_compute; reflexivity.
Defined.

(** C4, as stated, fails: no printability table makes [processLine] splice
    the tag itself between double quotes for every tag.  With a double
    quote inside the tag, the member holds it escaped by a backslash. *)
Lemma processLine_member_not_literal :
  ~ exists tables : UnicodeTables,
      forall (buf : list byte) (tag : string) (interior : list byte),
        TrimSpace buf = x7b :: interior ++ [x7d] ->
        Exists (fun b => blank b = false) interior ->
        processLine buf tag =
          (x7b :: interior) ++ bytes_of_string (spec_tag_member tag ++ "}")%string ++ [x0a].
Proof.
  intros [T H].
  specialize (H (bytes_of_string ("{" ++ dquote ++ "a" ++ dquote ++ ":1}" ++ newline)%string)
                ("my" ++ dquote ++ "tag")%string
                (bytes_of_string (dquote ++ "a" ++ dquote ++ ":1")%string)).
  assert (E : processLine
                (bytes_of_string ("{" ++ dquote ++ "a" ++ dquote ++ ":1}" ++ newline)%string)
                ("my" ++ dquote ++ "tag")%string
              = bytes_of_string ("{" ++ dquote ++ "a" ++ dquote ++ ":1," ++ dquote ++ "tag"
                                 ++ dquote ++ ":" ++ dquote ++ "my\" ++ dquote ++ "tag"
                                 ++ dquote ++ "}" ++ newline)%string)
    by (vm_compute; reflexivity).
  rewrite E in H. clear E.
  assert (K : bytes_of_string ("{" ++ dquote ++ "a" ++ dquote ++ ":1," ++ dquote ++ "tag"
                               ++ dquote ++ ":" ++ dquote ++ "my\" ++ dquote ++ "tag"
                               ++ dquote ++ "}" ++ newline)%string
              <> (x7b :: bytes_of_string (dquote ++ "a" ++ dquote ++ ":1")%string)
                   ++ bytes_of_string (spec_tag_member ("my" ++ dquote ++ "tag") ++ "}")%string
                   ++ [x0a])
    by (vm_compute; discriminate).
  apply K, H.
  - vm_compute; reflexivity.
  - apply Exists_cons_hd. reflexivity.
Qed.

(** C5, as stated, fails the same way on the blank object. *)
Lemma processLine_object_not_literal :
  ~ exists tables : UnicodeTables,
      forall (buf : list byte) (tag : string) (interior : list byte),
        TrimSpace buf = x7b :: interior ++ [x7d] ->
        Forall (fun b => blank b = true) interior ->
        processLine buf tag = bytes_of_string (spec_tag_object tag) ++ [x0a].
Proof.
  intros [T H].
  specialize (H (bytes_of_string ("{ }" ++ newline)%string)
                ("my" ++ dquote ++ "tag")%string [x20]).
  assert (E : processLine (bytes_of_string ("{ }" ++ newline)%string)
                ("my" ++ dquote ++ "tag")%string
              = bytes_of_string ("{" ++ dquote ++ "tag" ++ dquote ++ ":" ++ dquote
                                 ++ "my\" ++ dquote ++ "tag" ++ dquote ++ "}" ++ newline)%string)
    by (vm_compute; reflexivity).
  rewrite E in H. clear E.
  assert (K : bytes_of_string ("{" ++ dquote ++ "tag" ++ dquote ++ ":" ++ dquote
                               ++ "my\" ++ dquote ++ "tag" ++ dquote ++ "}" ++ newline)%string
              <> bytes_of_string (spec_tag_object ("my" ++ dquote ++ "tag")) ++ [x0a])
    by (vm_compute; discriminate).
  apply K, H.
  - vm_compute; reflexivity.
  - repeat constructor.
Qed.

(** ** Streams *)

Lemma Tag_set_source (s : Stream) (r : option Reader) : Tag (set_source s r) = Tag s.
Proof. destruct s; reflexivity. Qed.

Lemma Raw_set_source (s : Stream) (r : option Reader) : Raw (set_source s r) = Raw s.
Proof. destruct s; reflexivity. Qed.

Lemma Source_set_source (s : Stream) (r : option Reader) : Source (set_source s r) = r.
Proof. destruct s; reflexivity. Qed.

Lemma set_source_twice (s : Stream) (r r' : option Reader) :
  set_source (set_source s r) r' = set_source s r'.
Proof. destruct s; reflexivity. Qed.

Lemma set_source_same (s : Stream) : set_source s (Source s) = s.
Proof. destruct s as [[[] ?]|[[] ?]]; reflexivity. Qed.

(** A failing [Preread] leaves the stream as it was, and prints nothing. *)
Lemma Preread_error_keeps_stream (s : Stream) (os : OS) (e : error) (s1 : Stream) (os1 : OS) :
  Preread s os = (Returns (Some e), s1, os1) ->
  s1 = s /\ Source s = None /\ os_stderr os1 = os_stderr os.
Proof.
  destruct s as [p|n]; simpl.
  - unfold PipeStream_Preread. destruct (source (p_base p)) eqn:E; intros [= <- <- <-].
    repeat split. unfold Source. simpl. exact E.
  - unfold NamedPipeStream_Preread, Source. simpl.
    destruct (source (np_base n)) eqn:E; [intros [= ]|].
    destruct (os_opens os) as [|[err|file] rest]; intros [= <- <- <-];
      repeat split.
Qed.

(** A successful [Preread] leaves a stream that has a source. *)
Lemma Preread_ok_has_source (s : Stream) (os : OS) (s1 : Stream) (os1 : OS) :
  Preread s os = (Returns None, s1, os1) -> exists rd, Source s1 = Some rd.
Proof.
  destruct s as [p|n]; simpl.
  - unfold PipeStream_Preread, Source. simpl.
    destruct (source (p_base p)) as [rd|] eqn:E; intros [= <- <-].
    exists rd. exact E.
  - unfold NamedPipeStream_Preread, Source. simpl.
    destruct (source (np_base n)) as [rd|] eqn:E.
    + intros [= <- <-]. exists rd. exact E.
    + destruct (os_opens os) as [|[err|file] rest]; intros [= <- <-].
      eexists. reflexivity.
Qed.

(** ** The sink *)

Lemma Write_logs_call (w : Writer) (p : list byte) :
  w_calls (snd (Write w p)) = w_calls w ++ [p].
Proof. unfold Write. destruct (w_script w) as [|[|n e] script]; reflexivity. Qed.

Lemma Write_empty_sends_nothing (w : Writer) :
  w_sent (snd (Write w [])) = w_sent w.
Proof.
  unfold Write. destruct (w_script w) as [|[|n e] script]; simpl;
    rewrite ?firstn_nil; apply app_nil_r.
Qed.

(** ** bytes.TrimSpace on blank lines *)

Lemma asciiSpace_is_ASCII (c : byte) : asciiSpace c = true -> nonASCII c = false.
Proof. destruct c; try discriminate; reflexivity. Qed.

Lemma TrimSpace_start_blank (buf : list byte) :
  Forall (fun c => asciiSpace c = true) buf -> TrimSpace_start buf = inl [].
Proof.
  induction 1 as [|c rest Hc _ IH]; [reflexivity|].
  simpl. now rewrite (asciiSpace_is_ASCII c Hc), Hc.
Qed.

(** A line of spaces, tabs, line feeds, vertical tabs, form feeds and
    carriage returns trims to nothing. *)
Lemma TrimSpace_blank (buf : list byte) :
  Forall (fun c => asciiSpace c = true) buf -> TrimSpace buf = [].
Proof. intros B. unfold TrimSpace. now rewrite (TrimSpace_start_blank buf B). Qed.

(** ** readOne *)

Section ReadOne.
Context {tables : UnicodeTables}.

(** [readOne] once [Preread] has succeeded and [ReadBytes] has returned. *)
Lemma readOne_after_read (s : Stream) (l : LogstashService) (os : OS)
    (s1 : Stream) (os1 : OS) (rd : Reader) (buf : list byte) (err : option error) (rd' : Reader) :
  Preread s os = (Returns None, s1, os1) ->
  Source s1 = Some rd ->
  ReadBytes rd x0a = (buf, err, rd') ->
  readOne s l os =
    let s2 := set_source s1 (Some rd') in
    match (if 0 <? List.length buf then
             match sink l with
             | None => None
             | Some w =>
                 Some (snd (fst (Write w (processLine buf (Tag s1)))),
                       mkLogstashService (url l) (ls_raw l)
                         (Some (snd (Write w (processLine buf (Tag s1))))))
             end
           else Some (None, l)) with
    | None => (Panics, (s2, l, os1))
    | Some (e2, l2) =>
        match err with
        | Some io_EOF => (Returns None, (MarkClosed s2, l2, os1))
        | Some e => (Returns (Some e), (s2, l2, os1))
        | None =>
            match e2 with
            | Some e => (Returns (Some e), (s2, l2, os1))
            | None => (Returns None, (s2, l2, os1))
            end
        end
    end.
Proof.
  intros P S R. unfold readOne. rewrite P, S, R, Tag_set_source.
  destruct (0 <? List.length buf); [|reflexivity].
  destruct (sink l) as [w|]; [|reflexivity].
  destruct (Write w (processLine buf (Tag s1))) as [[n e2] w']. reflexivity.
Qed.

(** C9.  When [Preread] returns an error, [readOne] returns that error;
    the stream is as it was, with its tag, its raw specification and its
    source; the source was absent, so nothing was read; the sink is as it
    was, so nothing was written; nothing was printed. *)
Theorem readOne_Preread_error
    (s : Stream) (l : LogstashService) (os : OS) (e : error) (s1 : Stream) (os1 : OS) :
  Preread s os = (Returns (Some e), s1, os1) ->
  readOne s l os = (Returns (Some e), (s, l, os1))
  /\ Tag s1 = Tag s /\ Raw s1 = Raw s /\ Source s1 = Source s
  /\ Source s = None
  /\ os_stderr os1 = os_stderr os.
Proof.
  intros P. destruct (Preread_error_keeps_stream _ _ _ _ _ P) as (-> & N & Q).
  unfold readOne. rewrite P. repeat split; assumption.
Qed.

(** C1, what the code does.  When [Preread] succeeds, the read returns
    bytes together with [io.EOF], and the write of the tagged bytes fails
    with [e2], [readOne] marks the stream closed and returns nil: the
    write failure [e2] is not what it returns. *)
Theorem readOne_EOF_hides_write_error
    (s : Stream) (l : LogstashService) (os : OS) (s1 : Stream) (os1 : OS)
    (rd : Reader) (buf : list byte) (rd' : Reader) (w : Writer) (n : nat) (e2 : error)
    (w' : Writer) :
  Preread s os = (Returns None, s1, os1) ->
  Source s1 = Some rd ->
  ReadBytes rd x0a = (buf, Some io_EOF, rd') ->
  buf <> [] ->
  sink l = Some w ->
  Write w (processLine buf (Tag s1)) = (n, Some e2, w') ->
  readOne s l os =
    (Returns None,
     (set_source s1 None, mkLogstashService (url l) (ls_raw l) (Some w'), os1))
  /\ fst (readOne s l os) <> Returns (Some e2).
Proof.
  intros P S R NE K W.
  rewrite (readOne_after_read _ _ _ _ _ _ _ _ _ P S R), K, W.
  destruct buf as [|c buf]; [contradiction|].
  simpl. unfold MarkClosed. rewrite set_source_twice. split; [reflexivity | discriminate].
Qed.

(** C6, as amended.  When the line read is not empty and trims to nothing,
    [processLine] returns the empty slice and [readOne] hands it to
    [Write]: the call is made, with no bytes, and the connection receives
    nothing. *)
Theorem readOne_blank_line
    (s : Stream) (l : LogstashService) (os : OS) (s1 : Stream) (os1 : OS)
    (rd : Reader) (buf : list byte) (err : option error) (rd' : Reader) (w : Writer) :
  Preread s os = (Returns None, s1, os1) ->
  Source s1 = Some rd ->
  ReadBytes rd x0a = (buf, err, rd') ->
  buf <> [] ->
  TrimSpace buf = [] ->
  sink l = Some w ->
  processLine buf (Tag s1) = []
  /\ exists o s' w',
       readOne s l os = (o, (s', mkLogstashService (url l) (ls_raw l) (Some w'), os1))
       /\ w_calls w' = w_calls w ++ [[]]
       /\ w_sent w' = w_sent w.
Proof.
  intros P S R NE T K.
  pose proof (processLine_empty buf (Tag s1) T) as E.
  split; [exact E|].
  rewrite (readOne_after_read _ _ _ _ _ _ _ _ _ P S R), K, E.
  destruct buf as [|c buf]; [contradiction|].
  cbn [List.length Nat.ltb Nat.leb].
  pose proof (Write_logs_call w []) as C.
  pose proof (Write_empty_sends_nothing w) as N.
  destruct (Write w []) as [[n e2] w']. simpl in C, N. simpl.
  destruct err as [[| |]|]; [| | |destruct e2];
    (eexists _, _, w'; split; [reflexivity | split; assumption]).
Qed.

(** ** Closed descriptor streams *)

Lemma readOne_closed_pipe (p : PipeStream) (l : LogstashService) (os : OS) :
  source (p_base p) = None ->
  readOne (IsPipeStream p) l os = (Returns (Some io_EOF), (IsPipeStream p, l, os)).
Proof.
  intros C. unfold readOne. simpl. unfold PipeStream_Preread. now rewrite C.
Qed.

Lemma read_attempts_closed_pipe (p : PipeStream) (l : LogstashService) (os : OS) :
  source (p_base p) = None ->
  forall k,
    read_attempts k (IsPipeStream p) l os =
      (repeat (Returns (Some io_EOF)) k, (IsPipeStream p, l, os)).
Proof.
  intros C. induction k as [|k IH]; [reflexivity|].
  simpl. now rewrite (readOne_closed_pipe p l os C), IH.
Qed.

(** C7.  A descriptor stream whose source is cleared stays closed:
    [Preread] returns [io.EOF] at once, and any number of read attempts
    each return [io.EOF] and leave the stream (still without a source), the
    sink (nothing more written) and the system as they were; a runner
    started on it reports [io.EOF] at its first iteration. *)
Theorem PipeStream_closed_for_good
    (p : PipeStream) (l : LogstashService) (os : OS) :
  source (p_base p) = None ->
  Preread (IsPipeStream p) os = (Returns (Some io_EOF), IsPipeStream p, os)
  /\ (forall k,
        read_attempts k (IsPipeStream p) l os =
          (repeat (Returns (Some io_EOF)) k, (IsPipeStream p, l, os)))
  /\ (forall fuel single,
        fst (Run (S fuel) (IsPipeStream p) l os single) = Reported io_EOF).
Proof.
  intros C. split; [|split].
  - simpl. unfold PipeStream_Preread. now rewrite C.
  - intros k. exact (read_attempts_closed_pipe p l os C k).
  - intros fuel single. simpl. now rewrite (readOne_closed_pipe p l os C).
Qed.

(** Reading [io.EOF] is what clears the source of a descriptor stream. *)
Lemma readOne_EOF_closes_pipe (p : PipeStream) (l : LogstashService) (os : OS)
    (rd : Reader) (rd' : Reader) :
  source (p_base p) = Some rd ->
  ReadBytes rd x0a = ([], Some io_EOF, rd') ->
  readOne (IsPipeStream p) l os =
    (Returns None,
     (IsPipeStream (mkPipeStream (mkBaseStream (tag (p_base p)) (raw (p_base p)) None) (fd p)),
      l, os)).
Proof.
  intros S R.
  assert (P : Preread (IsPipeStream p) os = (Returns None, IsPipeStream p, os)).
  { simpl. unfold PipeStream_Preread. now rewrite S. }
  rewrite (readOne_after_read _ _ _ _ _ _ _ _ _ P S R). reflexivity.
Qed.

End ReadOne.

(** The examples of the runner. *)

Lemma readOne_Preread_error_witness :
  readOne (tables := sample_tables) (IsNamedPipeStream closed_fifo) healthy_sink refusing_os
  = (Returns (Some (SysError "open /var/log/x: permission denied")),
     (IsNamedPipeStream closed_fifo, healthy_sink, os_pop_open refusing_os)).
Proof.
  exact (proj1 (readOne_Preread_error (tables := sample_tables)
                  (IsNamedPipeStream closed_fifo) healthy_sink refusing_os
                  (SysError "open /var/log/x: permission denied")
                  (IsNamedPipeStream closed_fifo) (os_pop_open refusing_os) eq_refl)).
Defined.

Lemma readOne_EOF_hides_write_error_witness :
  readOne (tables := sample_tables) (IsPipeStream (open_pipe "last words" io_EOF))
          broken_sink quiet_os
  = (Returns None,
     (IsPipeStream closed_pipe,
      mkLogstashService (Some "localhost:5000") "tcp://localhost:5000"
        (Some (mkWriter [bytes_of_string ("app.error: last words" ++ newline)%string] [] [])),
      quiet_os)).
Proof.
  refine (eq_trans (proj1
    (readOne_EOF_hides_write_error (tables := sample_tables)
       (IsPipeStream (open_pipe "last words" io_EOF)) broken_sink quiet_os
       (IsPipeStream (open_pipe "last words" io_EOF)) quiet_os
       (mkReader (bytes_of_string "last words") io_EOF)
       (bytes_of_string "last words") (mkReader [] io_EOF)
       (mkWriter [] [] [WriteErr 0 (SysError "write: broken pipe")])
       0 (SysError "write: broken pipe")
       (mkWriter [bytes_of_string ("app.error: last words" ++ newline)%string] [] [])
       eq_refl eq_refl eq_refl _ eq_refl _)) _).
  - discriminate.
  - vm_compute; reflexivity.
  - reflexivity.
Defined.

Lemma readOne_blank_line_witness :
  processLine (tables := sample_tables) [x0a] "app.error" = []
  /\ exists o s' w',
       readOne (tables := sample_tables) (IsPipeStream (open_pipe newline io_EOF))
               healthy_sink quiet_os
       = (o, (s', mkLogstashService (Some "localhost:5000") "tcp://localhost:5000" (Some w'),
              quiet_os))
       /\ w_calls w' = [[]]
       /\ w_sent w' = [].
Proof.
  refine (readOne_blank_line (tables := sample_tables)
            (IsPipeStream (open_pipe newline io_EOF)) healthy_sink quiet_os
            (IsPipeStream (open_pipe newline io_EOF)) quiet_os
            (mkReader [x0a] io_EOF) [x0a] None (mkReader [] io_EOF) (mkWriter [] [] [])
            eq_refl eq_refl eq_refl _ eq_refl eq_refl).
  discriminate.
Defined.

(** C6, as stated, fails: the write is not skipped.  On a line that is one
    line feed, [readOne] calls [Write], which the sink records. *)
Lemma readOne_blank_line_not_skipped :
  ~ exists tables : UnicodeTables,
      forall (s : Stream) (l : LogstashService) (os : OS) (s1 : Stream) (os1 : OS)
             (rd : Reader) (buf : list byte) (err : option error) (rd' : Reader),
        Preread s os = (Returns None, s1, os1) ->
        Source s1 = Some rd ->
        ReadBytes rd x0a = (buf, err, rd') ->
        TrimSpace buf = [] ->
        snd (fst (snd (readOne s l os))) = l.
Proof.
  intros [T H].
  specialize (H (IsPipeStream (open_pipe newline io_EOF)) healthy_sink quiet_os
                (IsPipeStream (open_pipe newline io_EOF)) quiet_os
                (mkReader [x0a] io_EOF) [x0a] None (mkReader [] io_EOF)
                eq_refl eq_refl eq_refl eq_refl).
  vm_compute in H. discriminate H.
Qed.

Lemma PipeStream_closed_for_good_witness :
  read_attempts (tables := sample_tables) 3 (IsPipeStream closed_pipe) healthy_sink quiet_os
  = ([Returns (Some io_EOF); Returns (Some io_EOF); Returns (Some io_EOF)],
     (IsPipeStream closed_pipe, healthy_sink, quiet_os)).
Proof.
  exact (proj1 (proj2 (PipeStream_closed_for_good (tables := sample_tables)
                         closed_pipe healthy_sink quiet_os eq_refl)) 3).
Defined.

(** ** Mux.Run *)

Lemma Mux_Run_launch_length (m : Mux) :
  Mux_Run_launch m = Z.of_nat (List.length (streams m)).
Proof.
  unfold Mux_Run_launch.
  assert (G : forall (ss : list Stream) (n : Z),
             fold_left (fun n _ => (n + 1)%Z) ss n = (n + Z.of_nat (List.length ss))%Z).
  { induction ss as [|s ss IH]; intros n; simpl List.length; simpl fold_left.
    - lia.
    - rewrite IH. lia. }
  now rewrite G.
Qed.

Lemma Configure_streams_length (ss : list Stream) (os : OS) :
  List.length (snd (fst (Configure_streams ss os))) = List.length ss.
Proof.
  revert os. induction ss as [|s ss IH]; intros os; [reflexivity|].
  simpl. destruct (Open s os) as [[[err|] s'] os1]; [reflexivity|].
  specialize (IH os1). destruct (Configure_streams ss os1) as [[err rest'] os2].
  simpl in *. now rewrite IH.
Qed.

Lemma Mux_Configure_length (m : Mux) (os : OS) (o : outcome) (m' : Mux) (os' : OS) :
  Mux_Configure m os = (o, m', os') ->
  List.length (streams m') = List.length (streams m).
Proof.
  unfold Mux_Configure.
  destruct (LogstashService_Open (logstash m) os) as [[[err|]| |] l'];
    try (intros [= <- <- <-]; reflexivity).
  pose proof (Configure_streams_length (streams m) os) as L.
  destruct (Configure_streams (streams m) os) as [[err ss'] os1].
  intros [= <- <- <-]. exact L.
Qed.

(** The loop returns the first error that is not [io.EOF], if it comes
    before the counter is down to zero. *)
Lemma Mux_Run_range_error (pre : list error) (e : error) (rest : list error) :
  Forall (fun x => x = io_EOF) pre ->
  e <> io_EOF ->
  forall n : Z, (Z.of_nat (List.length pre) < n)%Z ->
  Mux_Run_range n (pre ++ e :: rest) = Returns (Some e).
Proof.
  intros A NE. induction A as [|x pre -> _ IH]; intros n L.
  - simpl. unfold Mux_Run_body.
    destruct e; [contradiction | reflexivity | reflexivity].
  - simpl List.length in L. simpl. unfold Mux_Run_body. simpl.
    destruct (Z.eqb_spec (n - 1) 0) as [Z0|_]; [lia|].
    apply IH. lia.
Qed.

(** The loop returns nil on as many [io.EOF] as the counter says, and
    waits on fewer. *)
Lemma Mux_Run_range_all_EOF (delivered : list error) :
  Forall (fun x => x = io_EOF) delivered ->
  forall n : Z,
  (Z.of_nat (List.length delivered) <= n)%Z ->
  Mux_Run_range n delivered =
    if (negb (n =? 0) && (n =? Z.of_nat (List.length delivered)))%Z
    then Returns None else Blocks.
Proof.
  induction 1 as [|x rest -> _ IH]; intros n L.
  - simpl. destruct (Z.eqb_spec n 0) as [->|]; reflexivity.
  - simpl List.length in *. cbn [Mux_Run_range]. unfold Mux_Run_body.
    cbn [is_EOF negb].
    destruct (Z.eqb_spec (n - 1) 0) as [Z0|NZ].
    + assert (n = 1%Z) as -> by lia.
      destruct rest; [reflexivity | simpl List.length in L; lia].
    + rewrite IH by lia.
      repeat match goal with
             | |- context [Z.eqb ?a ?b] => destruct (Z.eqb_spec a b)
             end; simpl; try reflexivity; lia.
Qed.

(** A list of errors is all [io.EOF], or has a first one that is not. *)
Lemma first_error (delivered : list error) :
  Forall (fun x => x = io_EOF) delivered
  \/ exists pre e rest,
       delivered = pre ++ e :: rest /\ Forall (fun x => x = io_EOF) pre /\ e <> io_EOF.
Proof.
  induction delivered as [|x rest [A|(pre & e & rest' & -> & A & NE)]].
  - left. constructor.
  - destruct x.
    + left. constructor; [reflexivity | exact A].
    + right. exists [], (Errorf msg), rest. repeat split; [constructor | discriminate].
    + right. exists [], (SysError msg), rest. repeat split; [constructor | discriminate].
  - destruct x.
    + right. exists (io_EOF :: pre), e, rest'. repeat split; [|exact NE].
      constructor; [reflexivity | exact A].
    + right. exists [], (Errorf msg), (pre ++ e :: rest').
      repeat split; [constructor | discriminate].
    + right. exists [], (SysError msg), (pre ++ e :: rest').
      repeat split; [constructor | discriminate].
Qed.

(** The policy of the loop, on the counter [k] and the delivered errors. *)
Lemma Mux_Run_range_policy (k : nat) (delivered : list error) :
  List.length delivered <= k ->
  (Mux_Run_range (Z.of_nat k) delivered = Returns None
   <-> Forall (fun e => e = io_EOF) delivered
       /\ delivered <> []
       /\ List.length delivered = k)
  /\ (forall pre e rest,
        delivered = pre ++ e :: rest ->
        Forall (fun x => x = io_EOF) pre ->
        e <> io_EOF ->
        Mux_Run_range (Z.of_nat k) delivered = Returns (Some e)).
Proof.
  intros L.
  assert (E : forall pre e rest,
             delivered = pre ++ e :: rest ->
             Forall (fun x => x = io_EOF) pre ->
             e <> io_EOF ->
             Mux_Run_range (Z.of_nat k) delivered = Returns (Some e)).
  { intros pre e rest -> A NE.
    apply Mux_Run_range_error; [exact A | exact NE|].
    rewrite length_app in L. simpl in L. lia. }
  split; [|exact E].
  destruct (first_error delivered) as [A|(pre & e & rest & D & A & NE)].
  - rewrite (Mux_Run_range_all_EOF _ A) by lia.
    destruct (Z.eqb_spec (Z.of_nat k) 0) as [Z0|NZ];
    destruct (Z.eqb_spec (Z.of_nat k) (Z.of_nat (List.length delivered))) as [EQ|NQ]; simpl.
    + split; [discriminate|]. intros (_ & N & _).
      destruct delivered; [contradiction | simpl in L; lia].
    + split; [discriminate|]. intros (_ & _ & Q). lia.
    + split; [|reflexivity]. intros _. repeat split; [exact A | | lia].
      intros ->. simpl in EQ. lia.
    + split; [discriminate|]. intros (_ & _ & Q). lia.
  - rewrite (E _ _ _ D A NE). split; [discriminate|].
    intros (F & _). rewrite D in F. apply Forall_app in F as [_ F].
    inversion F; subst. contradiction.
Qed.

(** C2.  After a successful [Configure], with [delivered] the errors the
    runners have sent on the channel in the order of delivery (each runner
    sends at most one): [Run] returns nil exactly when every delivered error
    is [io.EOF] and the counter, one per stream less one per delivery, has
    come down to zero; and when the first delivered error that is not
    [io.EOF] is [e], [Run] returns [e], whatever is delivered after it. *)
Theorem Mux_Run_policy
    (m : Mux) (os : OS) (m' : Mux) (os' : OS) (delivered : list error) :
  Mux_Configure m os = (Returns None, m', os') ->
  List.length delivered <= List.length (streams m) ->
  (Mux_Run m os delivered = Returns None
   <-> Forall (fun e => e = io_EOF) delivered
       /\ delivered <> []
       /\ List.length delivered = List.length (streams m))
  /\ (forall pre e rest,
        delivered = pre ++ e :: rest ->
        Forall (fun x => x = io_EOF) pre ->
        e <> io_EOF ->
        Mux_Run m os delivered = Returns (Some e)).
Proof.
  intros C L.
  pose proof (Mux_Configure_length _ _ _ _ _ C) as LM.
  assert (R : Mux_Run m os delivered
              = Mux_Run_range (Z.of_nat (List.length (streams m))) delivered).
  { unfold Mux_Run. rewrite C, Mux_Run_launch_length, LM. reflexivity. }
  rewrite R. apply Mux_Run_range_policy. exact L.
Qed.

Lemma Mux_Run_policy_witness :
  Mux_Run (pipes_mux 2) quiet_os [io_EOF; io_EOF] = Returns None
  /\ Mux_Run (pipes_mux 2) quiet_os [io_EOF; SysError "read: input/output error"]
     = Returns (Some (SysError "read: input/output error")).
Proof.
  split.
  - refine (proj2 (proj1 (Mux_Run_policy (pipes_mux 2) quiet_os _ _ [io_EOF; io_EOF]
                            eq_refl _)) _).
    + simpl. lia.
    + repeat split; [repeat constructor | discriminate].
  - refine (proj2 (Mux_Run_policy (pipes_mux 2) quiet_os _ _
                     [io_EOF; SysError "read: input/output error"] eq_refl _)
                  [io_EOF] (SysError "read: input/output error") [] eq_refl _ _).
    + simpl. lia.
    + repeat constructor.
    + discriminate.
Defined.

(** ** The runs of the goroutines *)

Lemma range_state_snoc (delivered : list error) (e : error) :
  forall n : Z,
  range_state n (delivered ++ [e]) =
    match range_state n delivered with
    | Ranging n' => Mux_Run_body n' e
    | Returned r => Returned r
    end.
Proof.
  induction delivered as [|x rest IH]; intros n; simpl.
  - destruct (Mux_Run_body n e); reflexivity.
  - destruct (Mux_Run_body n x) as [n'|r]; [apply IH | reflexivity].
Qed.

(** [Run] has returned [r] on [delivered] exactly when the loop stands at
    [Returned r] after receiving it. *)
Lemma Mux_Run_range_state (delivered : list error) :
  forall n : Z,
  Mux_Run_range n delivered =
    match range_state n delivered with
    | Ranging _ => Blocks
    | Returned r => Returns r
    end.
Proof.
  induction delivered as [|x rest IH]; intros n; simpl; [reflexivity|].
  destruct (Mux_Run_body n x) as [n'|r]; [apply IH | reflexivity].
Qed.

Lemma do_move_sound (mv : move) (st st' : system) :
  do_move mv st = Some st' -> step st st'.
Proof.
  destruct st as [k snd_ fin ch mn rcv].
  destruct mv as [e|i|]; cbn [do_move looping sending finished chan main received].
  - destruct k as [|k]; [discriminate|]. intros [= <-]. constructor.
  - destruct (nth_error snd_ i) as [e|] eqn:N; [|discriminate].
    destruct (chan_send ch e) as [ch'|] eqn:SD; [|discriminate].
    intros [= <-].
    destruct (nth_error_split _ _ N) as (s1 & s2 & -> & <-).
    assert (F : firstn (List.length s1) (s1 ++ e :: s2) = s1).
    { rewrite firstn_app, Nat.sub_diag, firstn_all. apply app_nil_r. }
    assert (K : skipn (S (List.length s1)) (s1 ++ e :: s2) = s2).
    { change (S (List.length s1)) with (1 + List.length s1).
      rewrite <- skipn_skipn, skipn_app, Nat.sub_diag, skipn_all. reflexivity. }
    rewrite F. change (step (mkSystem k (s1 ++ e :: s2) fin ch mn rcv)
                            (mkSystem k (s1 ++ skipn (S (List.length s1)) (s1 ++ e :: s2))
                                      (S fin) ch' mn rcv)).
    rewrite K. now constructor.
  - destruct mn as [n|r]; [|discriminate].
    destruct (chan_recv ch) as [[e ch']|] eqn:R; [|discriminate].
    intros [= <-]. now constructor.
Qed.

Lemma do_moves_sound (mvs : list move) :
  forall st st', do_moves mvs st = Some st' -> forall start, reaches start st -> reaches start st'.
Proof.
  induction mvs as [|mv rest IH]; intros st st'; simpl.
  - intros [= <-] start R. exact R.
  - destruct (do_move mv st) as [mid|] eqn:M; [|discriminate].
    intros D start R. apply (IH _ _ D).
    apply reaches_step with st; [exact R | exact (do_move_sound mv st mid M)].
Qed.

Lemma step_keeps_invariant (m : Mux) (st st' : system) :
  run_invariant m st -> step st st' -> run_invariant m st'.
Proof.
  unfold run_invariant. intros (T & B & C & M) ST.
  destruct ST as [k snd_ fin ch mn rcv e
                |k s1 e s2 fin ch ch' mn rcv SND
                |k snd_ fin ch ch' n rcv e RCV]; simpl in *.
  - rewrite length_app. simpl. repeat split; try assumption; lia.
  - unfold chan_send in SND.
    destruct (List.length (ch_buf ch) <? ch_cap ch); [|discriminate].
    injection SND as <-. simpl.
    rewrite length_app in T. rewrite !length_app. simpl in *.
    repeat split; try assumption; lia.
  - unfold chan_recv in RCV. destruct ch as [cap buf]. simpl in *.
    destruct buf as [|x buf]; [discriminate|]. injection RCV as <- <-. simpl in *.
    rewrite length_app, range_state_snoc, <- M. simpl.
    repeat split; try assumption; lia.
Qed.

Lemma run_invariant_holds (m : Mux) (st : system) :
  reaches (Mux_Run_start m) st -> run_invariant m st.
Proof.
  induction 1 as [|mid final _ IH ST].
  - unfold run_invariant. simpl. repeat split. lia.
  - exact (step_keeps_invariant m mid final IH ST).
Qed.

(** In every run, the loop has received at most one error per stream, and
    stands where [Mux_Run_range] says. *)
Lemma run_delivers (m : Mux) (st : system) :
  reaches (Mux_Run_start m) st ->
  List.length (received st) <= List.length (streams m)
  /\ Mux_Run_range (Mux_Run_launch m) (received st) =
       match main st with
       | Ranging _ => Blocks
       | Returned r => Returns r
       end.
Proof.
  intros R. destruct (run_invariant_holds m st R) as (T & B & _ & M).
  split; [lia|]. rewrite M. apply Mux_Run_range_state.
Qed.

(** X1.  The policy on the runs of the goroutines: in every state a run
    reaches, [Run] has returned nil exactly when every error received is
    [io.EOF] and there are as many of them as streams, at least one; and
    when an error that is not [io.EOF] was received after [io.EOF] only,
    [Run] has returned it. *)
Theorem every_run_follows_policy (m : Mux) (st : system) :
  reaches (Mux_Run_start m) st ->
  (main st = Returned None
   <-> Forall (fun e => e = io_EOF) (received st)
       /\ received st <> []
       /\ List.length (received st) = List.length (streams m))
  /\ (forall pre e rest,
        received st = pre ++ e :: rest ->
        Forall (fun x => x = io_EOF) pre ->
        e <> io_EOF ->
        main st = Returned (Some e)).
Proof.
  intros R. destruct (run_delivers m st R) as (L & M).
  rewrite Mux_Run_launch_length in M.
  destruct (Mux_Run_range_policy _ _ L) as (P1 & P2).
  rewrite M in P1. split.
  - rewrite <- P1. destruct (main st) as [n|r]; split; try discriminate; congruence.
  - intros pre e rest D A NE. specialize (P2 pre e rest D A NE).
    rewrite M in P2. destruct (main st) as [n|r]; [discriminate | congruence].
Qed.

Lemma every_run_follows_policy_witness :
  reaches (Mux_Run_start (pipes_mux 2)) two_pipes_failed
  /\ main two_pipes_failed = Returned (Some (SysError "read: input/output error")).
Proof.
  assert (R : reaches (Mux_Run_start (pipes_mux 2)) two_pipes_failed).
  { refine (do_moves_sound two_pipes_schedule _ _ _ _ (reaches_start _)).
    vm_compute; reflexivity. }
  split; [exact R|].
  refine (proj2 (every_run_follows_policy (pipes_mux 2) two_pipes_failed R)
                [io_EOF] (SysError "read: input/output error") [] eq_refl _ _).
  - repeat constructor.
  - discriminate.
Defined.

(** Once [Run] has returned and the buffer is full, nothing moves but the
    runners that leave their loop: the channel stays full, and a runner at
    its send stays there. *)
Lemma full_after_return (st st' : system) (r : option error) :
  main st = Returned r ->
  List.length (ch_buf (chan st)) = ch_cap (chan st) ->
  reaches st st' ->
  chan st' = chan st /\ main st' = Returned r /\ finished st' = finished st
  /\ List.length (sending st) <= List.length (sending st').
Proof.
  intros M F R. induction R as [|mid final _ (C & M' & N & G) ST].
  - repeat split; [exact M | lia].
  - destruct ST as [k snd_ fin ch mn rcv e
                  |k s1 e s2 fin ch ch' mn rcv SND
                  |k snd_ fin ch ch' n rcv e RCV]; simpl in *.
    + rewrite length_app. simpl. repeat split; try assumption; lia.
    + subst ch. unfold chan_send in SND. rewrite F, Nat.ltb_irrefl in SND. discriminate.
    + discriminate M'.
Qed.

(** ** The aggregation channel *)

Lemma late_reports_spec (reports : list error) :
  forall ch : Chan,
  late_reports ch reports =
    (mkChan (ch_cap ch)
            (ch_buf ch ++ firstn (ch_cap ch - List.length (ch_buf ch)) reports),
     skipn (ch_cap ch - List.length (ch_buf ch)) reports).
Proof.
  induction reports as [|e rest IH]; intros [cap buf]; simpl.
  - now rewrite firstn_nil, skipn_nil, app_nil_r.
  - unfold chan_send. simpl. destruct (Nat.ltb_spec (List.length buf) cap) as [LT|GE].
    + rewrite IH. simpl. rewrite length_app. simpl.
      replace (cap - List.length buf) with (S (cap - (List.length buf + 1))) by lia.
      simpl. now rewrite <- app_assoc.
    + rewrite IH. simpl.
      replace (cap - List.length buf) with 0 by lia.
      simpl. reflexivity.
Qed.

(** C3, as amended.  The channel [Run] makes has capacity 10 whatever the
    streams are; so it holds one report per stream exactly when there are
    at most 10 streams.  With nobody receiving, the first 10 reports go
    through and the senders of the others wait. *)
Theorem Mux_Run_chan_capacity (m : Mux) :
  ch_cap (Mux_Run_chan m) = 10
  /\ (List.length (streams m) <= ch_cap (Mux_Run_chan m) <-> List.length (streams m) <= 10)
  /\ (forall reports, snd (late_reports (Mux_Run_chan m) reports) = skipn 10 reports)
  /\ (forall reports,
        snd (late_reports (Mux_Run_chan m) reports) = [] <-> List.length reports <= 10).
Proof.
  assert (K : forall reports, snd (late_reports (Mux_Run_chan m) reports) = skipn 10 reports).
  { intros reports. rewrite late_reports_spec. reflexivity. }
  repeat split; try (simpl; lia); try exact K.
  - rewrite K. intros E.
    pose proof (length_skipn 10 reports) as S. rewrite E in S. simpl in S. lia.
  - rewrite K. intros L. apply skipn_all2. exact L.
Qed.

(** C3, as stated, fails: with 11 streams the channel is smaller than the
    number of streams. *)
Lemma Mux_Run_chan_too_small :
  ~ (forall m : Mux, List.length (streams m) <= ch_cap (Mux_Run_chan m)).
Proof.
  intros H. specialize (H (pipes_mux 11)). vm_compute in H.
  repeat apply le_S_n in H. inversion H.
Qed.

(** With 12 streams, when the loop has returned on the first report,
    ten of the eleven other runners fill the buffer and the last one waits
    at its send for ever. *)
Lemma twelve_streams_one_waits :
  reaches (Mux_Run_start (pipes_mux 12)) twelve_pipes_stuck
  /\ chan_send (chan twelve_pipes_stuck) io_EOF = None
  /\ forall st, reaches twelve_pipes_stuck st ->
                chan st = chan twelve_pipes_stuck /\ sending st <> [].
Proof.
  split; [|split].
  - refine (do_moves_sound twelve_pipes_schedule _ _ _ _ (reaches_start _)).
    vm_compute; reflexivity.
  - reflexivity.
  - intros st R.
    destruct (full_after_return twelve_pipes_stuck st _ eq_refl eq_refl R) as (C & _ & _ & L).
    split; [exact C|]. intros E. rewrite E in L. simpl in L. lia.
Qed.

(** ** The library models on examples *)

Example Split_examples :
  Split "a:b:c" ":" = ["a"; "b"; "c"]
  /\ Split "abc" ":" = ["abc"]
  /\ Split "" ":" = [""]
  /\ Split ":tag" ":" = [""; "tag"]
  /\ Split "5:" ":" = ["5"; ""].
Proof. repeat split. Qed.

Example ParseInt_examples :
  ParseInt "7" = (7%Z, None)
  /\ ParseInt "+5" = (5%Z, None)
  /\ ParseInt "-3" = ((-3)%Z, None)
  /\ ParseInt "007" = (7%Z, None)
  /\ ParseInt "" = (0%Z, Some ErrSyntax)
  /\ ParseInt "-" = (0%Z, Some ErrSyntax)
  /\ ParseInt "1_0" = (0%Z, Some ErrSyntax)
  /\ ParseInt "0x10" = (0%Z, Some ErrSyntax)
  /\ ParseInt " 1" = (0%Z, Some ErrSyntax)
  /\ ParseInt "9223372036854775807" = (9223372036854775807%Z, None)
  /\ ParseInt "9223372036854775808" = (9223372036854775807%Z, Some ErrRange)
  /\ ParseInt "-9223372036854775808" = ((-9223372036854775808)%Z, None)
  /\ ParseInt "-9223372036854775809" = ((-9223372036854775808)%Z, Some ErrRange)
  /\ ParseInt "99999999999999999999" = (9223372036854775807%Z, Some ErrRange).
Proof. repeat split; vm_compute; reflexivity. Qed.

Example TrimSpace_examples :
  TrimSpace (bytes_of_string ("  hello world " ++ newline)%string) = bytes_of_string "hello world"
  /\ TrimSpace [x0a] = []
  /\ TrimSpace [x20; x09; x0b; x0c; x0d; x0a] = []
  (* a no-break space, the letter A, an em space and a space *)
  /\ TrimSpace [xc2; xa0; x41; xe2; x80; x83; x20] = [x41]
  (* a truncated rune at the end is kept *)
  /\ TrimSpace [x20; x41; xe2; x80] = [x41; xe2; x80].
Proof. repeat split; vm_compute; reflexivity. Qed.

Example Quote_examples :
  Quote (tables := sample_tables) "app.error" = (dquote ++ "app.error" ++ dquote)%string
  /\ Quote (tables := sample_tables) ("a" ++ dquote ++ "b")%string
     = (dquote ++ "a\" ++ dquote ++ "b" ++ dquote)%string
  /\ Quote (tables := sample_tables) "a\b" = (dquote ++ "a\\b" ++ dquote)%string
  /\ Quote (tables := sample_tables) ("a" ++ newline)%string
     = (dquote ++ "a\n" ++ dquote)%string
  /\ Quote (tables := sample_tables) (String "001"%char EmptyString)
     = (dquote ++ "\x01" ++ dquote)%string
  /\ bytes_of_string (Quote (tables := sample_tables) (string_of_bytes [xc3; xa9]))
     = [x22; xc3; xa9; x22]
  /\ Quote (tables := sample_tables) (string_of_bytes [xff])
     = (dquote ++ "\xff" ++ dquote)%string
  /\ Quote (tables := sample_tables) (string_of_bytes [xe2; x82; xac])
     = (dquote ++ "\u20ac" ++ dquote)%string.
Proof. repeat split; vm_compute; reflexivity. Qed.

Example ReadBytes_examples :
  ReadBytes (mkReader (bytes_of_string ("one" ++ newline ++ "two")%string) io_EOF) x0a
    = (bytes_of_string ("one" ++ newline)%string, None,
       mkReader (bytes_of_string "two") io_EOF)
  /\ ReadBytes (mkReader (bytes_of_string "two") io_EOF) x0a
     = (bytes_of_string "two", Some io_EOF, mkReader [] io_EOF)
  /\ ReadBytes (mkReader [] io_EOF) x0a = ([], Some io_EOF, mkReader [] io_EOF).
Proof. repeat split. Qed.

(** The specifications of the documentation: two that parse and one with
    three parts; a number too large for an [int64] is taken for a path. *)
Example parseStreamArg_examples :
  parseStreamArg "7:launch.log"
    = (Some (IsPipeStream (mkPipeStream (mkBaseStream "launch.log" "7:launch.log" None) 7)),
       None)
  /\ parseStreamArg "/var/log/x:nginx.access"
     = (Some (IsNamedPipeStream
                (mkNamedPipeStream
                   (mkBaseStream "nginx.access" "/var/log/x:nginx.access" None)
                   "/var/log/x")),
        None)
  /\ parseStreamArg "a:b:c"
     = (None, Some (Errorf "Specified stream a:b:c has wrong number of components (3)"))
  /\ parseStreamArg "99999999999999999999:big"
     = (Some (IsNamedPipeStream
                (mkNamedPipeStream
                   (mkBaseStream "big" "99999999999999999999:big" None)
                   "99999999999999999999")),
        None).
Proof. repeat split; vm_compute; reflexivity. Qed.

(** ** More on parseStreamArg *)

(** X3.  A specification parses exactly when it holds one colon. *)
Theorem parseStreamArg_one_colon (raw : string) :
  snd (parseStreamArg raw) = None <-> count_sep raw ":" = 1.
Proof.
  rewrite <- Split_two_iff. apply parseStreamArg_ok_iff.
Qed.

(** X4.  A parsed stream keeps the raw specification and has no source
    yet.  The descriptor of a parsed descriptor stream is an [int64]; the
    tag, and the path of a named-pipe stream, hold no colon. *)
Theorem parseStreamArg_fields (raw : string) (s : Stream) :
  parseStreamArg raw = (Some s, None) ->
  Raw s = raw
  /\ count_sep (Tag s) ":" = 0
  /\ match s with
     | IsPipeStream p => (- 2 ^ 63 <= fd p < 2 ^ 63)%Z
     | IsNamedPipeStream n => count_sep (path n) ":" = 0
     end
  /\ Source s = None.
Proof.
  unfold parseStreamArg. pose proof (Split_parts_free raw ":") as F.
  destruct (Split raw ":") as [|p0 [|p1 [|p2 ps]]]; try discriminate.
  inversion F as [|? ? F0 F']; subst. inversion F' as [|? ? F1 _]; subst.
  destruct (ParseInt p0) as [v [e|]] eqn:P; intros [= <-];
    repeat split; try assumption; simpl; apply (ParseInt_int64 p0 v P).
Qed.

Lemma parseStreamArg_fields_witness :
  Raw (IsPipeStream (mkPipeStream (mkBaseStream "launch.log" "7:launch.log" None) 7))
    = "7:launch.log"
  /\ count_sep "launch.log" ":" = 0
  /\ (- 2 ^ 63 <= 7 < 2 ^ 63)%Z
  /\ Source (IsPipeStream (mkPipeStream (mkBaseStream "launch.log" "7:launch.log" None) 7))
     = None.
Proof.
  exact (parseStreamArg_fields "7:launch.log"
           (IsPipeStream (mkPipeStream (mkBaseStream "launch.log" "7:launch.log" None) 7))
           eq_refl).
Defined.

(** ** More on the tagger *)

(** X2.  A line that is not empty once trimmed and is not an object (it
    does not both start with an opening brace and end with a closing one)
    comes out as the tag, a colon and a space, the trimmed line, and one
    line feed. *)
Theorem processLine_plain_text {tables : UnicodeTables} (buf : list byte) (tag : string) :
  TrimSpace buf <> [] ->
  Byte.eqb (nth 0 (TrimSpace buf) x00) x7b
    && Byte.eqb (nth (List.length (TrimSpace buf) - 1) (TrimSpace buf) x00) x7d = false ->
  processLine buf tag = bytes_of_string (tag ++ ": ")%string ++ TrimSpace buf ++ [x0a].
Proof.
  intros NE B. rewrite (processLine_text buf tag NE B). now rewrite bytes_of_string_app.
Qed.

Lemma processLine_plain_text_witness :
  processLine (tables := sample_tables) (bytes_of_string ("  GET /index.html " ++ newline)%string)
              "nginx.access"
  = bytes_of_string ("nginx.access: GET /index.html" ++ newline)%string.
Proof.
  refine (eq_trans
    (processLine_plain_text (tables := sample_tables)
       (bytes_of_string ("  GET /index.html " ++ newline)%string) "nginx.access" _ _) _).
  - vm_compute; discriminate.
  - vm_compute; reflexivity.
  - vm_compute; reflexivity.
Defined.

(** Vertical tab and form feed are spaces for [TrimSpace] and content for
    [hasNonSpace]: an object that holds only a vertical tab gets the member,
    after a comma. *)
Lemma processLine_vertical_tab :
  processLine (tables := sample_tables) [x7b; x0b; x7d; x0a] "t"
  = [x7b; x0b] ++ bytes_of_string ("," ++ dquote ++ "tag" ++ dquote ++ ":" ++ dquote ++ "t"
                                   ++ dquote ++ "}" ++ newline)%string.
Proof. vm_compute; reflexivity. Qed.

(** ** More on the runner *)

Lemma cut_after_length (delim : byte) (p line rest : list byte) :
  cut_after delim p = Some (line, rest) ->
  List.length p = List.length line + List.length rest /\ line <> [].
Proof.
  revert line. induction p as [|c p IH]; intros line; simpl; [discriminate|].
  destruct (Byte.eqb c delim).
  - intros [= <- <-]. split; [reflexivity | discriminate].
  - destruct (cut_after delim p) as [[line' rest']|]; [|discriminate].
    intros [= <- <-]. destruct (IH line' eq_refl) as (L & _).
    split; [simpl; lia | discriminate].
Qed.

(** What [ReadBytes] returns: a line with no error and strictly less left
    to read, or what was left with the error of the file and nothing left. *)
Lemma ReadBytes_cases (rd : Reader) (delim : byte) :
  (exists line rest,
      ReadBytes rd delim = (line, None, mkReader rest (rd_err rd))
      /\ line <> []
      /\ List.length rest < List.length (rd_pending rd))
  \/ ReadBytes rd delim = (rd_pending rd, Some (rd_err rd), mkReader [] (rd_err rd)).
Proof.
  unfold ReadBytes. destruct (cut_after delim (rd_pending rd)) as [[line rest]|] eqn:E.
  - left. exists line, rest. destruct (cut_after_length _ _ _ _ E) as (L & NE).
    repeat split; [exact NE|]. destruct line; [contradiction | simpl in L; lia].
  - right. reflexivity.
Qed.

Section Runner.
Context {tables : UnicodeTables}.

(** A named-pipe stream that was closed is opened again by the next
    [Preread]: the stream gets a reader on the file, with a notice on
    [os.Stderr], and its tag, raw specification and path stay. *)
Theorem NamedPipeStream_reopens
    (n : NamedPipeStream) (os : OS) (file : list byte * error)
    (rest : list (error + (list byte * error))) :
  source (np_base n) = None ->
  os_opens os = inr file :: rest ->
  exists n' os',
    Preread (IsNamedPipeStream n) os = (Returns None, IsNamedPipeStream n', os')
    /\ source (np_base n') = Some (mkReader (fst file) (snd file))
    /\ tag (np_base n') = tag (np_base n)
    /\ raw (np_base n') = raw (np_base n)
    /\ path n' = path n
    /\ os_opens os' = rest
    /\ os_stderr os' =
         os_stderr os ++ [("opened named pipe for tag " ++ tag (np_base n) ++ ": "
                           ++ path n ++ newline)%string].
Proof.
  intros C O. simpl. unfold NamedPipeStream_Preread. rewrite C, O.
  eexists _, _. split; [reflexivity|]. simpl. rewrite O. repeat split.
Qed.

Lemma NamedPipeStream_reopens_witness :
  exists n' os',
    Preread (IsNamedPipeStream closed_fifo)
            (mkOS (fun _ => inr []) [] (fun _ => None) (fun _ => ([], io_EOF))
                  [inr (bytes_of_string "GET /", io_EOF)] [])
    = (Returns None, IsNamedPipeStream n', os')
    /\ source (np_base n') = Some (mkReader (bytes_of_string "GET /") io_EOF)
    /\ tag (np_base n') = "nginx.access"
    /\ raw (np_base n') = "/var/log/x:nginx.access"
    /\ path n' = "/var/log/x"
    /\ os_opens os' = []
    /\ os_stderr os' =
         [("opened named pipe for tag nginx.access: /var/log/x" ++ newline)%string].
Proof.
  exact (NamedPipeStream_reopens closed_fifo
           (mkOS (fun _ => inr []) [] (fun _ => None) (fun _ => ([], io_EOF))
                 [inr (bytes_of_string "GET /", io_EOF)] [])
           (bytes_of_string "GET /", io_EOF) [] eq_refl eq_refl).
Defined.

(** X5.  [readOne] panics only on a sink that was never opened: after a
    successful [Preread] the source is there. *)
Theorem readOne_panics_without_sink (s : Stream) (l : LogstashService) (os : OS) :
  sink l <> None -> fst (readOne s l os) <> Panics.
Proof.
  intros K. unfold readOne.
  destruct (Preread s os) as [[[[e|]| |] s1] os1] eqn:P; simpl; try discriminate.
  - destruct (Preread_ok_has_source _ _ _ _ P) as (rd & S1). rewrite S1.
    destruct (ReadBytes rd x0a) as [[buf err] rd'].
    destruct (0 <? List.length buf).
    + destruct (sink l) as [w|]; [|contradiction].
      destruct (Write w _) as [[n e2] w'].
      destruct err as [[| |]|]; [| | |destruct e2]; simpl; discriminate.
    + destruct err as [[| |]|]; simpl; discriminate.
  - destruct s as [p|n]; simpl in P.
    + discriminate P.
    + unfold NamedPipeStream_Preread in P.
      destruct (source (np_base n)); [discriminate P|].
      destruct (os_opens os) as [|[e|f] r]; discriminate P.
Qed.

(** One iteration on an open descriptor stream with a sink: it returns; and
    when it returns nil, the stream is closed or has strictly less left to
    read, and the sink is still there. *)
Lemma readOne_pipe_progress (p : PipeStream) (l : LogstashService) (os : OS)
    (rd : Reader) (w : Writer) :
  source (p_base p) = Some rd ->
  sink l = Some w ->
  exists o p' l',
    readOne (IsPipeStream p) l os = (Returns o, (IsPipeStream p', l', os))
    /\ (o = None ->
        (exists w', sink l' = Some w')
        /\ forall rd', source (p_base p') = Some rd' ->
                       List.length (rd_pending rd') < List.length (rd_pending rd)).
Proof.
  intros SRC K.
  assert (P : Preread (IsPipeStream p) os = (Returns None, IsPipeStream p, os)).
  { simpl. unfold PipeStream_Preread. now rewrite SRC. }
  destruct (ReadBytes_cases rd x0a) as [(line & rest & R & NE & LT)|R];
    rewrite (readOne_after_read _ _ _ _ _ _ _ _ _ P SRC R), K.
  - destruct line as [|c line]; [contradiction|].
    cbn [List.length Nat.ltb Nat.leb].
    destruct (Write w _) as [[n e2] w']. cbn [fst snd].
    destruct e2 as [e|]; eexists _, _, _; (split; [reflexivity|]).
    + discriminate.
    + intros _. split; [eexists; reflexivity|]. simpl. intros rd' [= <-]. exact LT.
  - destruct (0 <? List.length (rd_pending rd)).
    + destruct (Write w _) as [[n e2] w']. cbn [fst snd].
      destruct (rd_err rd) as [| |]; eexists _, _, _; (split; [reflexivity|]);
        try discriminate.
      intros _. split; [eexists; reflexivity|]. simpl. discriminate.
    + destruct (rd_err rd) as [| |]; eexists _, _, _; (split; [reflexivity|]);
        try discriminate.
      intros _. split; [eexists; exact K|]. simpl. discriminate.
Qed.

(** X6.  The runner of a descriptor stream ends: when its pipe delivers at
    most [n] more bytes before it ends or fails, and the sink is open, the
    runner reports an error within [n + 2] iterations. *)
Theorem PipeStream_runner_reports (n : nat) :
  forall (p : PipeStream) (l : LogstashService) (os : OS) (single : bool) (w : Writer),
    sink l = Some w ->
    (forall rd, source (p_base p) = Some rd -> List.length (rd_pending rd) <= n) ->
    exists e st, Run (S (S n)) (IsPipeStream p) l os single = (Reported e, st).
Proof.
  induction n as [|n IH]; intros p l os single w K B.
  - destruct (source (p_base p)) as [rd|] eqn:SRC.
    + destruct (readOne_pipe_progress p l os rd w SRC K) as (o & p' & l' & R & Q).
      cbn [Run]. rewrite R. destruct o as [e|]; [eexists _, _; reflexivity|].
      destruct (Q eq_refl) as (_ & LT).
      destruct (source (p_base p')) as [rd'|] eqn:SRC'.
      * specialize (LT rd' eq_refl). specialize (B rd eq_refl). lia.
      * rewrite (readOne_closed_pipe p' l' os SRC'). eexists _, _; reflexivity.
    + cbn [Run]. rewrite (readOne_closed_pipe p l os SRC). eexists _, _; reflexivity.
  - destruct (source (p_base p)) as [rd|] eqn:SRC.
    + destruct (readOne_pipe_progress p l os rd w SRC K) as (o & p' & l' & R & Q).
      change (Run (S (S (S n))) (IsPipeStream p) l os single)
        with (match readOne (IsPipeStream p) l os with
              | (Returns (Some err), (s', l', os')) =>
                  (Reported err,
                   (s', l',
                    if negb single
                    then os_print os' (Tag s' ++ ": ending log read loop on condition: "
                                       ++ error_string err ++ newline)%string
                    else os'))
              | (Returns None, (s', l', os')) => Run (S (S n)) s' l' os' single
              | (Panics, st) => (RunnerPanics, st)
              | (Blocks, st) => (RunnerBlocks, st)
              end).
      rewrite R. destruct o as [e|]; [eexists _, _; reflexivity|].
      destruct (Q eq_refl) as ((w' & K') & LT).
      apply (IH p' l' os single w' K').
      intros rd' SRC'. specialize (LT rd' SRC'). specialize (B rd eq_refl). lia.
    + cbn [Run]. rewrite (readOne_closed_pipe p l os SRC). eexists _, _; reflexivity.
Qed.

(** X7.  A descriptor stream that reads [io.EOF] is closed for good: the
    iteration returns nil with the source cleared, and every later attempt
    returns [io.EOF] and changes nothing. *)
Theorem PipeStream_EOF_is_final
    (p : PipeStream) (l : LogstashService) (os : OS) (rd : Reader) (w : Writer) :
  source (p_base p) = Some rd ->
  sink l = Some w ->
  cut_after x0a (rd_pending rd) = None ->
  rd_err rd = io_EOF ->
  exists p' l',
    readOne (IsPipeStream p) l os = (Returns None, (IsPipeStream p', l', os))
    /\ source (p_base p') = None
    /\ forall k,
         read_attempts k (IsPipeStream p') l' os =
           (repeat (Returns (Some io_EOF)) k, (IsPipeStream p', l', os)).
Proof.
  intros SRC K C E.
  assert (P : Preread (IsPipeStream p) os = (Returns None, IsPipeStream p, os)).
  { simpl. unfold PipeStream_Preread. now rewrite SRC. }
  assert (R : ReadBytes rd x0a = (rd_pending rd, Some io_EOF, mkReader [] io_EOF)).
  { unfold ReadBytes. now rewrite C, E. }
  rewrite (readOne_after_read _ _ _ _ _ _ _ _ _ P SRC R), K.
  destruct (0 <? List.length (rd_pending rd));
    eexists _, _; (split; [reflexivity|]); (split; [reflexivity|]);
    intros k; apply read_attempts_closed_pipe; reflexivity.
Qed.

End Runner.

Lemma readOne_panics_without_sink_witness :
  fst (readOne (tables := sample_tables) (IsPipeStream (open_pipe "x" io_EOF))
               healthy_sink quiet_os) <> Panics.
Proof.
  refine (readOne_panics_without_sink (tables := sample_tables)
            (IsPipeStream (open_pipe "x" io_EOF)) healthy_sink quiet_os _).
  discriminate.
Defined.

Lemma PipeStream_runner_reports_witness :
  exists e st,
    Run (tables := sample_tables) 12 (IsPipeStream (open_pipe "last words" io_EOF))
        healthy_sink quiet_os true = (Reported e, st).
Proof.
  refine (PipeStream_runner_reports (tables := sample_tables) 10
            (open_pipe "last words" io_EOF) healthy_sink quiet_os true
            (mkWriter [] [] []) eq_refl _).
  intros rd [= <-]. simpl. lia.
Defined.

Lemma PipeStream_EOF_is_final_witness :
  exists p' l',
    readOne (tables := sample_tables) (IsPipeStream (open_pipe "last words" io_EOF))
            healthy_sink quiet_os
    = (Returns None, (IsPipeStream p', l', quiet_os))
    /\ source (p_base p') = None
    /\ forall k,
         read_attempts (tables := sample_tables) k (IsPipeStream p') l' quiet_os =
           (repeat (Returns (Some io_EOF)) k, (IsPipeStream p', l', quiet_os)).
Proof.
  exact (PipeStream_EOF_is_final (tables := sample_tables)
           (open_pipe "last words" io_EOF) healthy_sink quiet_os
           (mkReader (bytes_of_string "last words") io_EOF) (mkWriter [] [] [])
           eq_refl eq_refl eq_refl eq_refl).
Defined.

(** The lost write failure, seen from the runner: the descriptor stream
    ends on a line without a line feed, the write of that line fails, and
    the runner still reports [io.EOF], on which [Run] returns nil. *)
Lemma lost_write_error_scenario :
  fst (Run (tables := sample_tables) 3 (IsPipeStream (open_pipe "last words" io_EOF))
           broken_sink quiet_os true) = Reported io_EOF
  /\ Mux_Run (pipes_mux 1) quiet_os [io_EOF] = Returns None.
Proof. split; vm_compute; reflexivity. Qed.

(** ** The scenario of one descriptor stream *)

(** One descriptor stream tagged [app.error] whose pipe delivers the
    line [{"msg":"boom"}] and closes: [Configure] succeeds; the runner writes the
    tagged line to the sink, nothing else, and reports [io.EOF]; [Run]
    returns nil on that report. *)
Theorem single_stream_scenario :
  let m := mkMux (mkLogstashService (Some "localhost:5000") "tcp://localhost:5000" None)
                 [IsPipeStream closed_pipe] in
  exists s l,
    Mux_Configure m boom_os = (Returns None, mkMux l [s], boom_os)
    /\ (exists s' l' w,
          Run (tables := sample_tables) 3 s l boom_os true = (Reported io_EOF, (s', l', boom_os))
          /\ sink l' = Some w
          /\ w_sent w = bytes_of_string boom_tagged
          /\ w_calls w = [bytes_of_string boom_tagged]
          /\ Source s' = None)
    /\ Mux_Run m boom_os [io_EOF] = Returns None.
Proof.
  eexists _, _. split; [vm_compute; reflexivity|]. split.
  - eexists _, _, _. split; [vm_compute; reflexivity|].
    repeat split.
  - vm_compute; reflexivity.
Qed.

(** ** parseStreamArg, back to the specification *)

(** X8.  A parsed stream gives its specification back: the path of a named-pipe
    stream, a colon and the tag; for a descriptor stream, the digits that
    [ParseInt] read as the descriptor, a colon and the tag. *)
Theorem parseStreamArg_round_trip (raw : string) (s : Stream) :
  parseStreamArg raw = (Some s, None) ->
  match s with
  | IsNamedPipeStream n => raw = (path n ++ ":" ++ tag (np_base n))%string
  | IsPipeStream p =>
      exists p0, raw = (p0 ++ ":" ++ tag (p_base p))%string /\ ParseInt p0 = (fd p, None)
  end.
Proof.
  unfold parseStreamArg. pose proof (Join_Split raw ":") as J.
  destruct (Split raw ":") as [|p0 [|p1 [|p2 ps]]]; try discriminate.
  simpl in J.
  destruct (ParseInt p0) as [v [e|]] eqn:P; intros [= <-]; simpl.
  - now rewrite <- J.
  - exists p0. split; [now rewrite <- J | exact P].
Qed.

Lemma parseStreamArg_round_trip_witness :
  "/var/log/x:nginx.access" = ("/var/log/x" ++ ":" ++ "nginx.access")%string.
Proof.
  exact (parseStreamArg_round_trip "/var/log/x:nginx.access"
           (IsNamedPipeStream closed_fifo) eq_refl).
Defined.

(** ** parseArgs *)

Lemma parseStreamArg_never_neither (raw : string) :
  parseStreamArg raw <> (None, None).
Proof.
  intros H. destruct (Nat.eq_dec (List.length (Split raw ":")) 2) as [L|NE].
  - destruct (parseStreamArg_two_parts raw L) as [s E]. rewrite E in H. discriminate H.
  - rewrite (parseStreamArg_other raw NE) in H. discriminate H.
Qed.

Lemma parseStreamArg_one_colon_stream (raw : string) :
  count_sep raw ":" = 1 ->
  exists s, parseStreamArg raw = (Some s, None) /\ Raw s = raw /\ Source s = None.
Proof.
  intros C. apply Split_two_iff in C.
  destruct (Split raw ":") as [|p0 [|p1 [|p2 ps]]] eqn:E; try discriminate C.
  rewrite (parseStreamArg_two _ _ _ E).
  destruct (ParseInt p0) as [v [e|]]; eexists; repeat split.
Qed.

Lemma parseStreamArg_error_colons (raw : string) (e : error) :
  snd (parseStreamArg raw) = Some e -> count_sep raw ":" <> 1.
Proof.
  intros H C. destruct (parseStreamArg_one_colon_stream raw C) as (s & E & _).
  rewrite E in H. discriminate H.
Qed.

(** The loop over well-formed arguments: one stream per argument, in
    order, after what was there. *)
Lemma parseArgs_streams_ok (args : list string) :
  Forall (fun a => count_sep a ":" = 1) args ->
  forall acc, exists ss,
    parseArgs_streams args acc = (Some (acc ++ ss), None)
    /\ map Raw ss = args
    /\ Forall (fun s => Source s = None) ss.
Proof.
  induction 1 as [|a args Ha _ IH]; intros acc.
  - exists []. rewrite app_nil_r. repeat split. constructor.
  - destruct (parseStreamArg_one_colon_stream a Ha) as (s & E & R & N).
    destruct (IH (acc ++ [s])) as (ss & E' & M & F).
    exists (s :: ss). simpl. rewrite E, E', <- app_assoc. simpl.
    repeat split; [now rewrite R, M | now constructor].
Qed.

(** The loop stops on the first argument that is not well formed, with the
    error of [parseStreamArg] on it. *)
Lemma parseArgs_streams_first_error (pre : list string) (a : string) (post : list string) :
  Forall (fun a => count_sep a ":" = 1) pre ->
  count_sep a ":" <> 1 ->
  forall acc,
    parseArgs_streams (pre ++ a :: post) acc = (None, snd (parseStreamArg a))
    /\ snd (parseStreamArg a) <> None.
Proof.
  intros F NA. assert (B : snd (parseStreamArg a) <> None).
  { intros H. apply parseStreamArg_ok_iff in H. apply Split_two_iff in H. contradiction. }
  induction F as [|b pre Hb _ IH]; intros acc; (split; [|exact B]).
  - simpl. destruct (parseStreamArg a) as [[s|] [e|]] eqn:E; simpl in *;
      try reflexivity; contradiction.
  - simpl. destruct (parseStreamArg_one_colon_stream b Hb) as (s & E & _).
    rewrite E. apply IH.
Qed.

(** A list of arguments is all well formed, or has a first one that is
    not. *)
Lemma first_malformed (args : list string) :
  Forall (fun a => count_sep a ":" = 1) args
  \/ exists pre a post,
       args = pre ++ a :: post
       /\ Forall (fun a => count_sep a ":" = 1) pre
       /\ count_sep a ":" <> 1.
Proof.
  induction args as [|x args [A|(pre & a & post & -> & A & NA)]].
  - left. constructor.
  - destruct (Nat.eq_dec (count_sep x ":") 1) as [Hx|Hx].
    + left. now constructor.
    + right. exists [], x, args. repeat split; [constructor | exact Hx].
  - destruct (Nat.eq_dec (count_sep x ":") 1) as [Hx|Hx].
    + right. exists (x :: pre), a, post. repeat split; [now constructor | exact NA].
    + right. exists [], x, (pre ++ a :: post). repeat split; [constructor | exact Hx].
Qed.

(** X9.  [parseArgs] returns a [Mux] exactly when the flags parsed, help was
    not asked for, the sink was given, there is at least one argument, and
    every argument holds exactly one colon.  Otherwise it returns an
    error and no [Mux]; with the flags in order, the error is that of the
    first argument that is not well formed. *)
Theorem parseArgs_accepts (f : ParsedFlags) :
  ((exists m, parseArgs f = (Some m, None, false))
   <-> flag_err f = None
       /\ flag_help f = false
       /\ url (flag_logstash f) <> None
       /\ flag_args f <> []
       /\ Forall (fun a => count_sep a ":" = 1) (flag_args f))
  /\ ((forall m, parseArgs f <> (Some m, None, false))
      -> exists e b, parseArgs f = (None, Some e, b))
  /\ (forall pre a post,
        flag_err f = None -> flag_help f = false -> url (flag_logstash f) <> None ->
        flag_args f = pre ++ a :: post ->
        Forall (fun a => count_sep a ":" = 1) pre ->
        count_sep a ":" <> 1 ->
        parseArgs f = (None, snd (parseStreamArg a), false)).
Proof.
  destruct f as [fe fh fl fa]. unfold parseArgs. simpl.
  assert (LAST : forall pre a post,
             fa = pre ++ a :: post ->
             Forall (fun a => count_sep a ":" = 1) pre ->
             count_sep a ":" <> 1 ->
             parseArgs_streams fa [] = (None, snd (parseStreamArg a))
             /\ snd (parseStreamArg a) <> None).
  { intros pre a post -> F NA. now apply parseArgs_streams_first_error. }
  split; [|split].
  - split.
    + intros [m H]. destruct fe as [e|]; [discriminate H|].
      destruct fh; [discriminate H|].
      destruct (url fl) as [u|]; [|discriminate H].
      destruct fa as [|a fa']; [discriminate H|].
      repeat split; try discriminate.
      destruct (first_malformed (a :: fa')) as [A|(pre & x & post & D & A & NA)]; [exact A|].
      destruct (LAST _ _ _ D A NA) as (E & B). cbn [List.length Nat.eqb] in H.
      rewrite E in H. destruct (snd (parseStreamArg x)); [discriminate H | contradiction].
    + intros (-> & -> & U & NE & A).
      destruct (url fl) as [u|]; [|contradiction].
      destruct fa as [|a fa']; [contradiction|]. cbn [List.length Nat.eqb].
      destruct (parseArgs_streams_ok _ A []) as (ss & E & _). rewrite E.
      eexists; reflexivity.
  - intros N. destruct fe as [e|]; [eexists _, _; reflexivity|].
    destruct fh; [eexists _, _; reflexivity|].
    destruct (url fl) as [u|]; [|eexists _, _; reflexivity].
    destruct fa as [|a fa']; [eexists _, _; reflexivity|]. cbn [List.length Nat.eqb].
    destruct (first_malformed (a :: fa')) as [A|(pre & x & post & D & A & NA)].
    + destruct (parseArgs_streams_ok _ A []) as (ss & E & _).
      cbn [List.length Nat.eqb] in N. rewrite E in N.
      exfalso. exact (N _ eq_refl).
    + destruct (LAST _ _ _ D A NA) as (E & B). rewrite E.
      destruct (snd (parseStreamArg x)) as [e|]; [eexists _, _; reflexivity | contradiction].
  - intros pre a post -> -> U D A NA.
    destruct (url fl) as [u|]; [|contradiction].
    destruct (LAST _ _ _ D A NA) as (E & B).
    destruct fa as [|x fa']; [destruct pre; discriminate D|]. cbn [List.length Nat.eqb].
    rewrite E. destruct (snd (parseStreamArg a)) as [e|]; [reflexivity | contradiction].
Qed.

(** X10.  The [Mux] of [parseArgs]: the sink of the flag, and one stream per
    argument, in the order of the arguments, each with its argument as raw
    specification and not yet open; there is at least one. *)
Theorem parseArgs_result (f : ParsedFlags) (m : Mux) (b : bool) :
  parseArgs f = (Some m, None, b) ->
  logstash m = flag_logstash f
  /\ url (logstash m) <> None
  /\ map Raw (streams m) = flag_args f
  /\ streams m <> []
  /\ Forall (fun s => Source s = None) (streams m).
Proof.
  intros H. assert (A : exists m', parseArgs f = (Some m', None, false)).
  { exists m. rewrite H. f_equal. revert H. unfold parseArgs.
    destruct (flag_err f); [discriminate|]. destruct (flag_help f); [discriminate|].
    destruct (url (flag_logstash f)); [|discriminate].
    destruct (List.length (flag_args f) =? 0); [discriminate|].
    destruct (parseArgs_streams (flag_args f) []) as [[ss|] [e|]]; congruence. }
  revert H. unfold parseArgs.
  destruct (flag_err f); [discriminate|]. destruct (flag_help f); [discriminate|].
  destruct (url (flag_logstash f)) as [u|] eqn:U; [|discriminate].
  destruct (flag_args f) as [|a args] eqn:FA; [discriminate|]. cbn [List.length Nat.eqb].
  destruct (first_malformed (a :: args)) as [W|(pre & x & post & D & W & NA)].
  - destruct (parseArgs_streams_ok _ W []) as (ss & E & M & S). rewrite E. simpl.
    intros [= <- _]. simpl. rewrite U. repeat split; try assumption; try discriminate.
    intros ->. discriminate M.
  - rewrite D. destruct (parseArgs_streams_first_error pre x post W NA []) as (E & B).
    rewrite E. destruct (snd (parseStreamArg x)); [discriminate | contradiction].
Qed.

Lemma parseArgs_result_witness :
  logstash (mkMux healthy_sink [IsPipeStream closed_pipe; IsNamedPipeStream closed_fifo])
    = healthy_sink
  /\ url (logstash (mkMux healthy_sink [IsPipeStream closed_pipe; IsNamedPipeStream closed_fifo]))
     <> None
  /\ map Raw (streams (mkMux healthy_sink
                             [IsPipeStream closed_pipe; IsNamedPipeStream closed_fifo]))
     = ["3:app.error"; "/var/log/x:nginx.access"]
  /\ streams (mkMux healthy_sink [IsPipeStream closed_pipe; IsNamedPipeStream closed_fifo])
     <> []
  /\ Forall (fun s => Source s = None)
            (streams (mkMux healthy_sink
                            [IsPipeStream closed_pipe; IsNamedPipeStream closed_fifo])).
Proof.
  exact (parseArgs_result
           (mkParsedFlags None false healthy_sink ["3:app.error"; "/var/log/x:nginx.access"])
           (mkMux healthy_sink [IsPipeStream closed_pipe; IsNamedPipeStream closed_fifo])
           false eq_refl).
Defined.

(** ** mainInner and main *)

Lemma Mux_Run_nil (m : Mux) (os : OS) (delivered : list error) :
  Mux_Run m os delivered = Returns None ->
  List.length delivered <= List.length (streams m) ->
  (exists m' os', Mux_Configure m os = (Returns None, m', os'))
  /\ Forall (fun e => e = io_EOF) delivered
  /\ delivered <> []
  /\ List.length delivered = List.length (streams m).
Proof.
  unfold Mux_Run. destruct (Mux_Configure m os) as [[o m'] os'] eqn:C.
  destruct o as [[e|]| |]; try discriminate.
  rewrite Mux_Run_launch_length, (Mux_Configure_length _ _ _ _ _ C).
  intros R L. split; [eexists _, _; reflexivity|].
  exact (proj1 (proj1 (Mux_Run_range_policy _ _ L)) R).
Qed.

(** [parseArgs] on any flags: a [Mux] with the sink of the flag and one
    stream per argument, or an error. *)
Lemma parseArgs_cases (f : ParsedFlags) :
  (exists ss,
      parseArgs f = (Some (mkMux (flag_logstash f) ss), None, false)
      /\ map Raw ss = flag_args f /\ flag_args f <> [])
  \/ (exists e b, parseArgs f = (None, Some e, b)).
Proof.
  unfold parseArgs.
  destruct (flag_err f); [right; eexists _, _; reflexivity|].
  destruct (flag_help f); [right; eexists _, _; reflexivity|].
  destruct (url (flag_logstash f)) as [u|]; [|right; eexists _, _; reflexivity].
  destruct (flag_args f) as [|a args]; [right; eexists _, _; reflexivity|].
  cbn [List.length Nat.eqb].
  destruct (first_malformed (a :: args)) as [W|(pre & x & post & D & W & NA)].
  - destruct (parseArgs_streams_ok _ W []) as (ss & E & M & _). rewrite E.
    left. exists ss. repeat split; [exact M | discriminate].
  - rewrite D. destruct (parseArgs_streams_first_error pre x post W NA []) as (E & B).
    rewrite E. destruct (snd (parseStreamArg x)) as [e|]; [|contradiction].
    right. eexists _, _; reflexivity.
Qed.

(** X11.  The program exits with status 0 only when the arguments were accepted,
    [Configure] succeeded, and every stream argument had its runner report
    [io.EOF]: nothing is printed, and as many [io.EOF] were delivered as
    there are arguments (each runner sends at most one). *)
Theorem main_exit_success
    (f : ParsedFlags) (os : OS) (delivered : list error) (out : list string) :
  main_exit f os delivered = Some (out, 0%Z) ->
  List.length delivered <= List.length (flag_args f) ->
  out = []
  /\ (exists m m' os',
        parseArgs f = (Some m, None, false)
        /\ Mux_Configure m os = (Returns None, m', os'))
  /\ Forall (fun e => e = io_EOF) delivered
  /\ List.length delivered = List.length (flag_args f)
  /\ flag_args f <> [].
Proof.
  unfold main_exit, mainInner. intros H L.
  destruct (parseArgs_cases f) as [(ss & E & M & NE)|(e & b & E)];
    rewrite E in H; [|discriminate H].
  assert (LS : List.length (streams (mkMux (flag_logstash f) ss)) = List.length (flag_args f)).
  { rewrite <- M. now rewrite length_map. }
  destruct (Mux_Run (mkMux (flag_logstash f) ss) os delivered) as [[e|]| |] eqn:R;
    try discriminate H.
  injection H as <-. rewrite <- LS in L.
  destruct (Mux_Run_nil _ os delivered R L) as ((m' & os' & C) & A & _ & Q).
  repeat split; try assumption.
  - eexists _, m', os'. split; [exact E | exact C].
  - now rewrite Q.
Qed.

Lemma main_exit_success_witness :
  ([] : list string) = []
  /\ (exists m m' os',
        parseArgs (mkParsedFlags None false healthy_sink ["3:app.error"; "4:app.out"])
          = (Some m, None, false)
        /\ Mux_Configure m quiet_os = (Returns None, m', os'))
  /\ Forall (fun e => e = io_EOF) [io_EOF; io_EOF]
  /\ List.length [io_EOF; io_EOF] = List.length ["3:app.error"; "4:app.out"]
  /\ ["3:app.error"; "4:app.out"] <> [].
Proof.
  refine (main_exit_success
            (mkParsedFlags None false healthy_sink ["3:app.error"; "4:app.out"])
            quiet_os [io_EOF; io_EOF] [] eq_refl _).
  simpl. lia.
Defined.

(** ** Configure *)

Lemma os_stat_add_fifo (os : OS) (q p : string) :
  os_stat (os_files (os_add_fifo os q)) p =
    if String.eqb q p then Some true else os_stat (os_files os) p.
Proof. reflexivity. Qed.

Lemma files_kept_refl (os : OS) : files_kept os os.
Proof. intros p b H. exact H. Qed.

Lemma files_kept_trans (a b c : OS) : files_kept a b -> files_kept b c -> files_kept a c.
Proof. intros AB BC p k H. apply BC, AB, H. Qed.

Lemma only_files_change_refl (os : OS) : only_files_change os os.
Proof. repeat split. Qed.

Lemma only_files_change_trans (a b c : OS) :
  only_files_change a b -> only_files_change b c -> only_files_change a c.
Proof.
  intros (A1 & A2 & A3 & A4 & A5) (B1 & B2 & B3 & B4 & B5).
  repeat split; congruence.
Qed.

(** [Open] on a named pipe: a FIFO is left alone, a free path gets a FIFO,
    and anything else is refused and left alone. *)
Lemma NamedPipeStream_Open_effect (n : NamedPipeStream) (os : OS)
    (err : option error) (os' : OS) :
  NamedPipeStream_Open n os = (err, os') ->
  files_kept os os' /\ only_files_change os os'
  /\ match err with
     | None => os_stat (os_files os') (path n) = Some true
     | Some e =>
         os' = os
         /\ ((os_stat (os_files os) (path n) = Some false
              /\ e = Errorf ("not overwriting non-named pipe: " ++ path n)%string)
             \/ (os_stat (os_files os) (path n) = None /\ os_mkfifo os (path n) = Some e))
     end.
Proof.
  unfold NamedPipeStream_Open.
  destruct (os_stat (os_files os) (path n)) as [[|]|] eqn:ST.
  - intros [= <- <-]. repeat split; [apply files_kept_refl | exact ST].
  - intros [= <- <-]. repeat split; [apply files_kept_refl|]. left. split; reflexivity.
  - destruct (os_mkfifo os (path n)) as [e|] eqn:MK; intros [= <- <-].
    + repeat split; [apply files_kept_refl|]. right. split; reflexivity.
    + repeat split.
      * intros p b H. rewrite os_stat_add_fifo.
        destruct (String.eqb_spec (path n) p) as [<-|NE]; [congruence | exact H].
      * rewrite os_stat_add_fifo. now rewrite String.eqb_refl.
Qed.

(** [Open] on any stream. *)
Lemma Open_effect (s : Stream) (os : OS) (err : option error) (s' : Stream) (os' : OS) :
  Open s os = (err, s', os') ->
  files_kept os os' /\ only_files_change os os'
  /\ match err with
     | None => opened_in os' s s'
     | Some e => s' = s /\ os' = os /\ exists n, s = IsNamedPipeStream n
     end.
Proof.
  destruct s as [p|n]; simpl.
  - intros [= <- <- <-]. repeat split; apply files_kept_refl.
  - destruct (NamedPipeStream_Open n os) as [e os1] eqn:O. intros [= <- <- <-].
    destruct (NamedPipeStream_Open_effect n os e os1 O) as (K & C & R).
    repeat split; try apply C; [exact K|].
    destruct e as [e|].
    + destruct R as (-> & _). repeat split. now exists n.
    + split; [reflexivity | exact R].
Qed.

Lemma opened_in_kept (os os' : OS) (s s' : Stream) :
  files_kept os os' -> only_files_change os os' -> opened_in os s s' -> opened_in os' s s'.
Proof.
  intros K (_ & _ & F & _) O. destruct s as [p|n]; simpl in *.
  - now rewrite F.
  - destruct O as (-> & ST). split; [reflexivity | now apply K].
Qed.

(** The loop of [Configure] when it succeeds: every stream is opened, and
    stays so to the end. *)
Lemma Configure_streams_success (ss : list Stream) :
  forall (os : OS) (ss' : list Stream) (os' : OS),
    Configure_streams ss os = (None, ss', os') ->
    files_kept os os' /\ only_files_change os os' /\ Forall2 (opened_in os') ss ss'.
Proof.
  induction ss as [|s ss IH]; intros os ss' os'; simpl.
  - intros [= <- <-]. repeat split; [apply files_kept_refl | constructor].
  - destruct (Open s os) as [[[e|] s1] os1] eqn:O; [discriminate|].
    destruct (Configure_streams ss os1) as [[e rest] os2] eqn:CS.
    intros [= -> <- <-].
    destruct (Open_effect _ _ _ _ _ O) as (K1 & C1 & R1).
    destruct (IH _ _ _ CS) as (K2 & C2 & F).
    split; [exact (files_kept_trans _ _ _ K1 K2)|].
    split; [exact (only_files_change_trans _ _ _ C1 C2)|].
    constructor; [|exact F]. exact (opened_in_kept _ _ _ _ K2 C2 R1).
Qed.

(** The loop of [Configure] when it fails: the streams before the failing
    one are opened, the failing one is a named pipe whose [Open] returned
    the error, and it and the streams after it are as they were. *)
Lemma Configure_streams_failure (ss : list Stream) :
  forall (os : OS) (e : error) (ss' : list Stream) (os' : OS),
    Configure_streams ss os = (Some e, ss', os') ->
    exists pre n post pre',
      ss = pre ++ IsNamedPipeStream n :: post
      /\ Configure_streams pre os = (None, pre', os')
      /\ NamedPipeStream_Open n os' = (Some e, os')
      /\ ss' = pre' ++ IsNamedPipeStream n :: post.
Proof.
  induction ss as [|s ss IH]; intros os e ss' os'; simpl; [discriminate|].
  destruct (Open s os) as [[[e1|] s1] os1] eqn:O.
  - intros [= <- <- <-].
    destruct (Open_effect _ _ _ _ _ O) as (_ & _ & -> & -> & n & ->).
    exists [], n, ss, []. repeat split. simpl in O.
    destruct (NamedPipeStream_Open n os) as [x y]. now injection O as -> ->.
  - destruct (Configure_streams ss os1) as [[e2 rest] os2] eqn:CS.
    intros [= -> <- <-].
    destruct (IH _ _ _ _ CS) as (pre & n & post & pre' & -> & CP & ON & ->).
    exists (s :: pre), n, post, (s1 :: pre'). repeat split; [|exact ON].
    simpl. now rewrite O, CP.
Qed.

(** X12.  [Configure], on success: the sink holds the connection that the dial
    of its host returned, with nothing written yet; every descriptor stream
    reads from its descriptor and every named pipe is a FIFO of the file
    system, all with their tag and raw specification; the entries of the
    file system that were there keep their kind, and nothing else of the
    system has moved. *)
Theorem Mux_Configure_success (m : Mux) (os : OS) (m' : Mux) (os' : OS) :
  Mux_Configure m os = (Returns None, m', os') ->
  (exists host script,
      url (logstash m) = Some host
      /\ os_dial os host = inr script
      /\ logstash m' =
           mkLogstashService (Some host) (ls_raw (logstash m)) (Some (mkWriter [] [] script)))
  /\ Forall2 (opened_in os') (streams m) (streams m')
  /\ files_kept os os'
  /\ only_files_change os os'.
Proof.
  unfold Mux_Configure, LogstashService_Open.
  destruct (url (logstash m)) as [host|] eqn:U; [|discriminate].
  destruct (os_dial os host) as [e|script] eqn:D; [discriminate|].
  destruct (Configure_streams (streams m) os) as [[e ss'] os1] eqn:CS.
  intros [= -> <- <-].
  destruct (Configure_streams_success _ _ _ _ CS) as (K & C & F).
  repeat split; try apply C; try assumption.
  exists host, script. repeat split. exact D.
Qed.

Lemma Mux_Configure_success_witness :
  (exists host script,
      url (logstash (mkMux healthy_sink [IsPipeStream closed_pipe; IsNamedPipeStream closed_fifo]))
        = Some host
      /\ os_dial quiet_os host = inr script
      /\ healthy_sink =
           mkLogstashService (Some host) (ls_raw healthy_sink) (Some (mkWriter [] [] script)))
  /\ Forall2 (opened_in (os_add_fifo quiet_os "/var/log/x"))
             [IsPipeStream closed_pipe; IsNamedPipeStream closed_fifo]
             [IsPipeStream (open_pipe "" io_EOF); IsNamedPipeStream closed_fifo]
  /\ files_kept quiet_os (os_add_fifo quiet_os "/var/log/x")
  /\ only_files_change quiet_os (os_add_fifo quiet_os "/var/log/x").
Proof.
  exact (Mux_Configure_success
           (mkMux healthy_sink [IsPipeStream closed_pipe; IsNamedPipeStream closed_fifo])
           quiet_os
           (mkMux healthy_sink [IsPipeStream (open_pipe "" io_EOF); IsNamedPipeStream closed_fifo])
           (os_add_fifo quiet_os "/var/log/x") eq_refl).
Defined.

(** X13.  [Configure], on failure.  Either the dial of the sink failed, and no
    stream was opened: the [Mux] and the system are as they were.  Or the
    sink is open and a named pipe refused to open, on a path that holds
    something else than a FIFO or on a failing [Mkfifo]: the streams before
    it are opened, it and the streams after it are as they were. *)
Theorem Mux_Configure_failure (m : Mux) (os : OS) (e : error) (m' : Mux) (os' : OS) :
  Mux_Configure m os = (Returns (Some e), m', os') ->
  (exists host,
      url (logstash m) = Some host /\ os_dial os host = inl e /\ m' = m /\ os' = os)
  \/ (exists pre n post pre',
        sink (logstash m') <> None
        /\ streams m = pre ++ IsNamedPipeStream n :: post
        /\ streams m' = pre' ++ IsNamedPipeStream n :: post
        /\ Forall2 (opened_in os') pre pre'
        /\ ((os_stat (os_files os') (path n) = Some false
             /\ e = Errorf ("not overwriting non-named pipe: " ++ path n)%string)
            \/ (os_stat (os_files os') (path n) = None
                /\ os_mkfifo os' (path n) = Some e))).
Proof.
  unfold Mux_Configure, LogstashService_Open.
  destruct (url (logstash m)) as [host|] eqn:U; [|discriminate].
  destruct (os_dial os host) as [e1|script] eqn:D.
  - intros [= <- <- <-]. left. exists host. repeat split; [exact D|]. now destruct m.
  - destruct (Configure_streams (streams m) os) as [[e1 ss'] os1] eqn:CS.
    intros [= -> <- <-]. right.
    destruct (Configure_streams_failure _ _ _ _ _ CS) as (pre & n & post & pre' & E & CP & ON & ->).
    destruct (Configure_streams_success _ _ _ _ CP) as (_ & _ & F).
    destruct (NamedPipeStream_Open_effect _ _ _ _ ON) as (_ & _ & _ & R).
    exists pre, n, post, pre'. repeat split; try assumption. discriminate.
Qed.

Lemma Mux_Configure_failure_witness :
  (exists host,
      url healthy_sink = Some host
      /\ os_dial os_with_file host
         = inl (Errorf "not overwriting non-named pipe: /etc/passwd")
      /\ mkMux healthy_sink
               [IsPipeStream (open_pipe "" io_EOF); IsNamedPipeStream fifo_on_file;
                IsPipeStream closed_pipe]
         = mkMux healthy_sink
                 [IsPipeStream closed_pipe; IsNamedPipeStream fifo_on_file;
                  IsPipeStream closed_pipe]
      /\ os_with_file = os_with_file)
  \/ (exists pre n post pre',
        sink healthy_sink <> None
        /\ [IsPipeStream closed_pipe; IsNamedPipeStream fifo_on_file; IsPipeStream closed_pipe]
           = pre ++ IsNamedPipeStream n :: post
        /\ [IsPipeStream (open_pipe "" io_EOF); IsNamedPipeStream fifo_on_file;
            IsPipeStream closed_pipe]
           = pre' ++ IsNamedPipeStream n :: post
        /\ Forall2 (opened_in os_with_file) pre pre'
        /\ ((os_stat (os_files os_with_file) (path n) = Some false
             /\ Errorf "not overwriting non-named pipe: /etc/passwd"
                = Errorf ("not overwriting non-named pipe: " ++ path n)%string)
            \/ (os_stat (os_files os_with_file) (path n) = None
                /\ os_mkfifo os_with_file (path n)
                   = Some (Errorf "not overwriting non-named pipe: /etc/passwd")))).
Proof.
  exact (Mux_Configure_failure
           (mkMux healthy_sink
                  [IsPipeStream closed_pipe; IsNamedPipeStream fifo_on_file;
                   IsPipeStream closed_pipe])
           os_with_file
           (Errorf "not overwriting non-named pipe: /etc/passwd")
           (mkMux healthy_sink
                  [IsPipeStream (open_pipe "" io_EOF); IsNamedPipeStream fifo_on_file;
                   IsPipeStream closed_pipe])
           os_with_file eq_refl).
Defined.

(** ** The runner forwards every line *)

Lemma split_lines_cut (data : list byte) :
  forall cur line rest,
    cut_after x0a data = Some (line, rest) ->
    split_lines cur data = (cur ++ line) :: split_lines [] rest.
Proof.
  induction data as [|c data IH]; intros cur line rest; simpl; [discriminate|].
  destruct (Byte.eqb c x0a).
  - now intros [= <- <-].
  - destruct (cut_after x0a data) as [[line' rest']|]; [|discriminate].
    intros [= <- <-]. rewrite (IH (cur ++ [c]) line' rest' eq_refl), <- app_assoc.
    reflexivity.
Qed.

Lemma split_lines_rest (data : list byte) :
  forall cur,
    cut_after x0a data = None ->
    split_lines cur data = match cur ++ data with [] => [] | _ => [cur ++ data] end.
Proof.
  induction data as [|c data IH]; intros cur; simpl.
  - intros _. rewrite app_nil_r. now destruct cur.
  - destruct (Byte.eqb c x0a); [discriminate|].
    destruct (cut_after x0a data) as [[line' rest']|]; [discriminate|].
    intros _. rewrite (IH (cur ++ [c]) eq_refl), <- app_assoc. reflexivity.
Qed.

(** The lines of a pipe are its data, cut. *)
Lemma concat_split_lines (data : list byte) :
  forall cur, List.concat (split_lines cur data) = cur ++ data.
Proof.
  induction data as [|c data IH]; intros cur; simpl.
  - rewrite app_nil_r. destruct cur; [reflexivity | simpl; now rewrite app_nil_r].
  - destruct (Byte.eqb c x0a); simpl.
    + rewrite IH, <- app_assoc. reflexivity.
    + rewrite IH, <- app_assoc. reflexivity.
Qed.

Lemma Forall_skipn {A : Type} (P : A -> Prop) (k : nat) (l : list A) :
  Forall P l -> Forall P (skipn k l).
Proof.
  revert l. induction k as [|k IH]; intros l F; [exact F|].
  destruct F as [|x l Hx F]; [constructor | now apply IH].
Qed.

Lemma sink_after_nil (l : LogstashService) (w : Writer) :
  sink l = Some w -> sink_after l w [] = l.
Proof.
  destruct l as [u r k], w as [c t sc]. simpl. intros ->.
  unfold sink_after. simpl. now rewrite !app_nil_r.
Qed.

Lemma sink_after_app (l : LogstashService) (w : Writer) (out out' : list (list byte)) :
  sink_after (sink_after l w out)
             (mkWriter (w_calls w ++ out) (w_sent w ++ List.concat out)
                       (skipn (List.length out) (w_script w)))
             out'
  = sink_after l w (out ++ out').
Proof.
  unfold sink_after. simpl.
  rewrite <- !app_assoc, List.concat_app, length_app, skipn_skipn.
  now rewrite (Nat.add_comm (List.length out')).
Qed.

(** A write on a connection that does not fail. *)
Lemma Write_ok (w : Writer) (buf : list byte) :
  no_write_fails w ->
  Write w buf =
    (List.length buf, None,
     mkWriter (w_calls w ++ [buf]) (w_sent w ++ List.concat [buf]) (skipn 1 (w_script w))).
Proof.
  unfold no_write_fails, Write. simpl. rewrite app_nil_r.
  destruct (w_script w) as [|r script]; [reflexivity|].
  intros F. inversion F as [|? ? -> _]. reflexivity.
Qed.

Lemma Preread_open (s : Stream) (os : OS) (rd : Reader) :
  Source s = Some rd -> Preread s os = (Returns None, s, os).
Proof.
  destruct s as [p|n]; simpl; unfold Source; simpl; intros E.
  - unfold PipeStream_Preread. now rewrite E.
  - unfold NamedPipeStream_Preread. now rewrite E.
Qed.

Lemma MarkClosed_set_source (s : Stream) (r : option Reader) :
  MarkClosed (set_source s r) = MarkClosed s.
Proof. unfold MarkClosed. apply set_source_twice. Qed.

Section Forwarding.
Context {tables : UnicodeTables}.

Lemma Run_S (fuel : nat) (s : Stream) (l : LogstashService) (os : OS) (single : bool) :
  Run (S fuel) s l os single =
    match readOne s l os with
    | (Returns (Some err), (s', l', os')) =>
        (Reported err, (s', l', os_after_report os' single (Tag s') err))
    | (Returns None, (s', l', os')) => Run fuel s' l' os' single
    | (Panics, st) => (RunnerPanics, st)
    | (Blocks, st) => (RunnerBlocks, st)
    end.
Proof.
  cbn [Run]. destruct (readOne s l os) as [[[e|]| |] [[s' l'] os']]; try reflexivity.
  unfold os_after_report. now destruct single.
Qed.

(** One iteration on an open stream whose reader has a whole line. *)
Lemma readOne_line (s : Stream) (l : LogstashService) (os : OS)
    (rd : Reader) (w : Writer) (line rest : list byte) :
  Source s = Some rd -> sink l = Some w -> no_write_fails w ->
  cut_after x0a (rd_pending rd) = Some (line, rest) ->
  readOne s l os =
    (Returns None,
     (set_source s (Some (mkReader rest (rd_err rd))),
      sink_after l w [processLine line (Tag s)], os)).
Proof.
  intros SRC K F C.
  assert (R : ReadBytes rd x0a = (line, None, mkReader rest (rd_err rd))).
  { unfold ReadBytes. now rewrite C. }
  rewrite (readOne_after_read _ _ _ _ _ _ _ _ _ (Preread_open s os rd SRC) SRC R), K.
  destruct (cut_after_length _ _ _ _ C) as (_ & NE).
  destruct line as [|c line]; [contradiction|]. cbn [List.length Nat.ltb Nat.leb].
  rewrite (Write_ok w _ F). reflexivity.
Qed.

(** One iteration on an open stream whose reader has no whole line left:
    what is left is forwarded, and the error of the file decides. *)
Lemma readOne_last (s : Stream) (l : LogstashService) (os : OS) (rd : Reader) (w : Writer) :
  Source s = Some rd -> sink l = Some w -> no_write_fails w ->
  cut_after x0a (rd_pending rd) = None ->
  readOne s l os =
    if is_EOF (rd_err rd)
    then (Returns None,
          (MarkClosed s, sink_after l w (forwarded (Tag s) (rd_pending rd)), os))
    else (Returns (Some (rd_err rd)),
          (set_source s (Some (mkReader [] (rd_err rd))),
           sink_after l w (forwarded (Tag s) (rd_pending rd)), os)).
Proof.
  intros SRC K F C.
  assert (R : ReadBytes rd x0a = (rd_pending rd, Some (rd_err rd), mkReader [] (rd_err rd))).
  { unfold ReadBytes. now rewrite C. }
  rewrite (readOne_after_read _ _ _ _ _ _ _ _ _ (Preread_open s os rd SRC) SRC R), K.
  unfold forwarded, lines. rewrite (split_lines_rest _ [] C). cbn [app].
  cbv zeta. rewrite MarkClosed_set_source.
  destruct (rd_pending rd) as [|c data].
  - cbn [List.length Nat.ltb Nat.leb map]. rewrite (sink_after_nil l w K).
    now destruct (rd_err rd).
  - cbn [List.length Nat.ltb Nat.leb map]. rewrite (Write_ok w _ F). cbn [fst snd].
    now destruct (rd_err rd).
Qed.

(** The iterations on an open stream up to the end of its file: every line
    goes to the sink; then the runner reports the error of the file, or, on
    [io.EOF], goes on with the stream closed. *)
Lemma Run_drains (n : nat) :
  forall (s : Stream) (l : LogstashService) (os : OS) (rd : Reader) (w : Writer),
    Source s = Some rd -> sink l = Some w -> no_write_fails w ->
    List.length (rd_pending rd) <= n ->
    exists k,
      1 <= k <= List.length (lines (rd_pending rd)) + 1
      /\ forall fuel single,
           Run (k + fuel) s l os single =
             if is_EOF (rd_err rd)
             then Run fuel (MarkClosed s)
                      (sink_after l w (forwarded (Tag s) (rd_pending rd))) os single
             else (Reported (rd_err rd),
                   (set_source s (Some (mkReader [] (rd_err rd))),
                    sink_after l w (forwarded (Tag s) (rd_pending rd)),
                    os_after_report os single (Tag s) (rd_err rd))).
Proof.
  assert (LAST : forall s l os rd w,
             Source s = Some rd -> sink l = Some w -> no_write_fails w ->
             cut_after x0a (rd_pending rd) = None ->
             exists k,
               1 <= k <= List.length (lines (rd_pending rd)) + 1
               /\ forall fuel single,
                    Run (k + fuel) s l os single =
                      if is_EOF (rd_err rd)
                      then Run fuel (MarkClosed s)
                               (sink_after l w (forwarded (Tag s) (rd_pending rd))) os single
                      else (Reported (rd_err rd),
                            (set_source s (Some (mkReader [] (rd_err rd))),
                             sink_after l w (forwarded (Tag s) (rd_pending rd)),
                             os_after_report os single (Tag s) (rd_err rd)))).
  { intros s l os rd w SRC K F C. exists 1. split; [lia|]. intros fuel single.
    change (1 + fuel) with (S fuel). rewrite Run_S, (readOne_last s l os rd w SRC K F C).
    destruct (is_EOF (rd_err rd)); [reflexivity|]. now rewrite Tag_set_source. }
  induction n as [|n IH]; intros s l os rd w SRC K F B;
    destruct (cut_after x0a (rd_pending rd)) as [[line rest]|] eqn:C;
    try (now apply LAST).
  - destruct (cut_after_length _ _ _ _ C) as (L & NE).
    destruct line; [contradiction | simpl in L; lia].
  - destruct (cut_after_length _ _ _ _ C) as (L & NE).
    assert (LT : List.length rest <= n).
    { destruct line; [contradiction | simpl in L; lia]. }
    pose proof (readOne_line s l os rd w line rest SRC K F C) as R1.
    destruct (IH (set_source s (Some (mkReader rest (rd_err rd))))
                 (sink_after l w [processLine line (Tag s)]) os
                 (mkReader rest (rd_err rd))
                 (mkWriter (w_calls w ++ [processLine line (Tag s)])
                           (w_sent w ++ List.concat [processLine line (Tag s)])
                           (skipn 1 (w_script w))))
      as (k & KB & RUN).
    + apply Source_set_source.
    + reflexivity.
    + apply Forall_skipn, F.
    + exact LT.
    + exists (S k). split.
      * unfold lines in *. rewrite (split_lines_cut _ [] line rest C). simpl in *. lia.
      * intros fuel single. change (S k + fuel) with (S (k + fuel)).
        rewrite Run_S, R1, RUN. cbn [rd_err rd_pending].
        rewrite MarkClosed_set_source, set_source_twice, Tag_set_source.
        change (mkWriter (w_calls w ++ [processLine line (Tag s)])
                         (w_sent w ++ List.concat [processLine line (Tag s)])
                         (skipn 1 (w_script w)))
          with (mkWriter (w_calls w ++ [processLine line (Tag s)])
                         (w_sent w ++ List.concat [processLine line (Tag s)])
                         (skipn (List.length [processLine line (Tag s)]) (w_script w))).
        rewrite sink_after_app.
        assert (FW : forwarded (Tag s) (rd_pending rd)
                     = [processLine line (Tag s)] ++ forwarded (Tag s) rest).
        { unfold forwarded, lines. now rewrite (split_lines_cut _ [] line rest C). }
        rewrite FW. reflexivity.
Qed.

(** X14.  The runner of a descriptor stream, on a connection that does not fail:
    with fuel for two iterations more than the pipe has lines, it reports
    the error its pipe ends on ([io.EOF] when the writers close it); by then
    every line of the pipe has been handed to the sink, tagged, one [Write]
    per line and in order, and nothing else; the stream is closed when the
    pipe ended on [io.EOF]; the notice is printed unless the stream is the
    only one. *)
Theorem PipeStream_runner_forwards
    (p : PipeStream) (l : LogstashService) (os : OS) (rd : Reader) (w : Writer)
    (single : bool) (fuel : nat) :
  source (p_base p) = Some rd ->
  sink l = Some w ->
  no_write_fails w ->
  List.length (lines (rd_pending rd)) + 2 <= fuel ->
  Run fuel (IsPipeStream p) l os single =
    (Reported (rd_err rd),
     (set_source (IsPipeStream p)
                 (if is_EOF (rd_err rd) then None else Some (mkReader [] (rd_err rd))),
      sink_after l w (forwarded (tag (p_base p)) (rd_pending rd)),
      os_after_report os single (tag (p_base p)) (rd_err rd))).
Proof.
  intros SRC K F B.
  destruct (Run_drains (List.length (rd_pending rd)) (IsPipeStream p) l os rd w
                       SRC K F (Nat.le_refl _)) as (k & KB & RUN).
  replace fuel with (k + S (fuel - k - 1)) by lia.
  rewrite RUN. destruct (rd_err rd) as [| |] eqn:E; cbn [is_EOF]; try reflexivity.
  rewrite Run_S. unfold MarkClosed. simpl set_source.
  rewrite readOne_closed_pipe by reflexivity. reflexivity.
Qed.

End Forwarding.

Lemma PipeStream_runner_forwards_witness :
  Run (tables := sample_tables) 4
      (IsPipeStream (open_pipe boom_line io_EOF)) healthy_sink quiet_os false =
    (Reported io_EOF,
     (IsPipeStream closed_pipe,
      mkLogstashService (Some "localhost:5000") "tcp://localhost:5000"
        (Some (mkWriter [bytes_of_string boom_tagged] (bytes_of_string boom_tagged) [])),
      os_print quiet_os ("app.error: ending log read loop on condition: EOF" ++ newline)%string)).
Proof.
  refine (PipeStream_runner_forwards (tables := sample_tables)
            (open_pipe boom_line io_EOF) healthy_sink quiet_os
            (mkReader (bytes_of_string boom_line) io_EOF) (mkWriter [] [] [])
            false 4 eq_refl eq_refl _ _).
  - constructor.
  - vm_compute. lia.
Defined.

(** ** The runner of a named pipe *)

Lemma os_after_opens_0 (os : OS) (tag path : string) : os_after_opens os 0 tag path = os.
Proof. destruct os. unfold os_after_opens. simpl. now rewrite app_nil_r. Qed.

Lemma os_after_opens_S (os : OS) (k : nat) (tag path : string) :
  os_after_opens (os_after_opens os 1 tag path) k tag path = os_after_opens os (S k) tag path.
Proof.
  unfold os_after_opens. cbn [os_dial os_files os_mkfifo os_fds os_opens os_stderr].
  rewrite skipn_skipn, Nat.add_1_r, <- app_assoc. reflexivity.
Qed.

Section NamedPipeRunner.
Context {tables : UnicodeTables}.

(** An iteration on a closed named pipe whose open completes is the
    iteration on the opened stream, after the notice. *)
Lemma readOne_reopen (n : NamedPipeStream) (l : LogstashService) (os : OS)
    (file : list byte * error) (rest : list (error + (list byte * error))) :
  source (np_base n) = None ->
  os_opens os = inr file :: rest ->
  readOne (IsNamedPipeStream n) l os =
    readOne (set_source (IsNamedPipeStream n) (Some (newBufferedReader file))) l
            (os_after_opens os 1 (tag (np_base n)) (path n)).
Proof.
  intros C O. unfold readOne at 1.
  assert (P : Preread (IsNamedPipeStream n) os =
              (Returns None,
               set_source (IsNamedPipeStream n) (Some (newBufferedReader file)),
               os_after_opens os 1 (tag (np_base n)) (path n))).
  { simpl. unfold NamedPipeStream_Preread. rewrite C, O.
    unfold os_after_opens, os_print, os_pop_open, opening_notice. simpl. now rewrite O. }
  rewrite P. unfold readOne.
  rewrite (Preread_open _ _ (newBufferedReader file) (Source_set_source _ _)).
  reflexivity.
Qed.

(** The runner of a named pipe goes through the files that end on
    [io.EOF]: after each, the stream is closed and opened again. *)
Lemma Run_through_files (files : list (list byte * error)) :
  forall (n : NamedPipeStream) (l : LogstashService) (os : OS) (w : Writer)
         (rest : list (error + (list byte * error))),
    source (np_base n) = None ->
    sink l = Some w -> no_write_fails w ->
    os_opens os = map inr files ++ rest ->
    Forall (fun file => snd file = io_EOF) files ->
    exists k, forall fuel single,
      Run (k + fuel) (IsNamedPipeStream n) l os single =
        Run fuel (IsNamedPipeStream n)
            (sink_after l w (forwarded_files (tag (np_base n)) files))
            (os_after_opens os (List.length files) (tag (np_base n)) (path n)) single.
Proof.
  induction files as [|file files IH]; intros n l os w rest C K F O E.
  - exists 0. intros fuel single. cbn [List.length plus].
    unfold forwarded_files. cbn [map List.concat].
    now rewrite (sink_after_nil l w K), os_after_opens_0.
  - inversion E as [|? ? E1 E']; subst.
    destruct (Run_drains (List.length (fst file))
                (set_source (IsNamedPipeStream n) (Some (newBufferedReader file))) l
                (os_after_opens os 1 (tag (np_base n)) (path n))
                (newBufferedReader file) w
                (Source_set_source _ _) K F (Nat.le_refl _)) as (k1 & KB & RUN).
    destruct k1 as [|k1]; [lia|].
    destruct (IH n (sink_after l w (forwarded (tag (np_base n)) (fst file)))
                 (os_after_opens os 1 (tag (np_base n)) (path n))
                 (mkWriter (w_calls w ++ forwarded (tag (np_base n)) (fst file))
                           (w_sent w ++ List.concat (forwarded (tag (np_base n)) (fst file)))
                           (skipn (List.length (forwarded (tag (np_base n)) (fst file)))
                                  (w_script w)))
                 rest C eq_refl) as (k2 & RUN2).
    + apply Forall_skipn, F.
    + unfold os_after_opens. cbn [os_opens]. now rewrite O.
    + exact E'.
    + exists (S k1 + k2). intros fuel single.
      replace (S k1 + k2 + fuel) with (S (k1 + (k2 + fuel))) by lia.
      rewrite Run_S, (readOne_reopen n l os file _ C O), <- Run_S.
      change (S (k1 + (k2 + fuel))) with (S k1 + (k2 + fuel)).
      rewrite RUN. cbn [newBufferedReader rd_err rd_pending]. rewrite E1. cbn [is_EOF].
      rewrite MarkClosed_set_source, Tag_set_source.
      assert (M : MarkClosed (IsNamedPipeStream n) = IsNamedPipeStream n).
      { unfold MarkClosed. rewrite <- (set_source_same (IsNamedPipeStream n)) at 2.
        unfold Source. simpl. now rewrite C. }
      rewrite M. change (Tag (IsNamedPipeStream n)) with (tag (np_base n)).
      rewrite RUN2, sink_after_app, os_after_opens_S. reflexivity.
Qed.

(** X15.  The runner of a named pipe, on a connection that does not fail, while
    writers open the FIFO, send their data and close it ([files], each
    ending on [io.EOF]; [rest] is what the opens after them return).  Every
    line of every file is handed to the sink, tagged, in order, with a
    notice on [os.Stderr] for each open.  The end of a file never ends the
    runner: it opens the FIFO again.  It ends only when an open fails, and
    reports that error; or when a file fails with another error than
    [io.EOF], and reports that error after forwarding the data read; when
    no further open completes, it waits in the open for ever. *)
Theorem NamedPipeStream_runner_forwards
    (n : NamedPipeStream) (l : LogstashService) (os : OS) (w : Writer)
    (files : list (list byte * error)) (rest : list (error + (list byte * error))) :
  source (np_base n) = None ->
  sink l = Some w ->
  no_write_fails w ->
  os_opens os = map inr files ++ rest ->
  Forall (fun file => snd file = io_EOF) files ->
  match rest with inr (_, io_EOF) :: _ => False | _ => True end ->
  let tg := tag (np_base n) in
  let os1 := os_after_opens os (List.length files) tg (path n) in
  exists k, forall fuel single,
    Run (k + S fuel) (IsNamedPipeStream n) l os single =
      match rest with
      | [] =>
          (RunnerBlocks,
           (IsNamedPipeStream n, sink_after l w (forwarded_files tg files), os1))
      | inl e :: _ =>
          (Reported e,
           (IsNamedPipeStream n, sink_after l w (forwarded_files tg files),
            os_after_report (os_pop_open os1) single tg e))
      | inr (data, e) :: _ =>
          (Reported e,
           (set_source (IsNamedPipeStream n) (Some (mkReader [] e)),
            sink_after l w (forwarded_files tg (files ++ [(data, e)])),
            os_after_report (os_after_opens os (S (List.length files)) tg (path n))
                            single tg e))
      end.
Proof.
  intros C K F O E NE tg os1.
  destruct (Run_through_files files n l os w rest C K F O E) as (k & RUN).
  fold tg in RUN. fold os1 in RUN.
  assert (O1 : os_opens os1 = rest).
  { unfold os1, os_after_opens. cbn [os_opens]. rewrite O.
    rewrite <- (length_map (@inr error (list byte * error)) files).
    now rewrite skipn_app, skipn_all, Nat.sub_diag. }
  assert (OS1 : os_after_opens os1 1 tg (path n)
                = os_after_opens os (S (List.length files)) tg (path n)).
  { unfold os1, os_after_opens.
    cbn [os_dial os_files os_mkfifo os_fds os_opens os_stderr].
    rewrite skipn_skipn, <- app_assoc, <- repeat_app, Nat.add_1_r. reflexivity. }
  clearbody os1.
  destruct rest as [|[e|[data e]] rest].
  - exists k. intros fuel single. rewrite RUN, Run_S.
    unfold readOne, Preread, NamedPipeStream_Preread. now rewrite C, O1.
  - exists k. intros fuel single. rewrite RUN, Run_S.
    unfold readOne, Preread, NamedPipeStream_Preread. now rewrite C, O1.
  - assert (EE : is_EOF e = false) by (destruct e; [contradiction | reflexivity..]).
    destruct (Run_drains (List.length data)
                (set_source (IsNamedPipeStream n) (Some (newBufferedReader (data, e))))
                (sink_after l w (forwarded_files tg files))
                (os_after_opens os1 1 tg (path n))
                (newBufferedReader (data, e))
                (mkWriter (w_calls w ++ forwarded_files tg files)
                          (w_sent w ++ List.concat (forwarded_files tg files))
                          (skipn (List.length (forwarded_files tg files)) (w_script w)))
                (Source_set_source _ _) eq_refl (Forall_skipn _ _ _ F) (Nat.le_refl _))
      as (k1 & KB & RUN1).
    destruct k1 as [|k1]; [lia|].
    exists (k + k1). intros fuel single.
    replace (k + k1 + S fuel) with (k + (S k1 + fuel)) by lia.
    rewrite RUN. change (S k1 + fuel) with (S (k1 + fuel)).
    rewrite Run_S, (readOne_reopen n _ os1 (data, e) rest C O1), <- Run_S.
    change (S (k1 + fuel)) with (S k1 + fuel).
    rewrite RUN1. cbn [newBufferedReader rd_err rd_pending fst snd]. rewrite EE.
    rewrite set_source_twice, Tag_set_source, sink_after_app, OS1.
    unfold forwarded_files. rewrite map_app, List.concat_app. cbn [map List.concat fst].
    rewrite app_nil_r. reflexivity.
Qed.

End NamedPipeRunner.

Lemma NamedPipeStream_runner_forwards_witness :
  exists k, forall fuel single,
    Run (tables := sample_tables) (k + S fuel) (IsNamedPipeStream closed_fifo)
        healthy_sink one_writer_os single =
      (Reported (SysError "open /var/log/x: permission denied"),
       (IsNamedPipeStream closed_fifo,
        sink_after healthy_sink (mkWriter [] [] [])
          (forwarded_files (tables := sample_tables) "nginx.access"
                           [(bytes_of_string ("GET /" ++ newline), io_EOF)]),
        os_after_report
          (os_pop_open (os_after_opens one_writer_os 1 "nginx.access" "/var/log/x"))
          single "nginx.access" (SysError "open /var/log/x: permission denied"))).
Proof.
  refine (NamedPipeStream_runner_forwards (tables := sample_tables)
            closed_fifo healthy_sink one_writer_os (mkWriter [] [] [])
            [(bytes_of_string ("GET /" ++ newline), io_EOF)]
            [inl (SysError "open /var/log/x: permission denied")]
            eq_refl eq_refl _ eq_refl _ I).
  - constructor.
  - repeat constructor.
Defined.

(** ** What a runner leaves alone *)

Lemma same_stream_refl (s : Stream) : same_stream s s.
Proof. destruct s; repeat split. Qed.

Lemma same_stream_trans (a b c : Stream) :
  same_stream a b -> same_stream b c -> same_stream a c.
Proof.
  unfold same_stream. intros (T1 & R1 & K1) (T2 & R2 & K2).
  repeat split; try congruence.
  destruct a, b, c; try contradiction; congruence.
Qed.

Lemma same_stream_set_source (s : Stream) (r : option Reader) :
  same_stream s (set_source s r).
Proof. destruct s; repeat split. Qed.

Lemma writer_grows_refl (w : Writer) : writer_grows w w.
Proof. split; exists []; now rewrite app_nil_r. Qed.

Lemma writer_grows_trans (a b c : Writer) :
  writer_grows a b -> writer_grows b c -> writer_grows a c.
Proof.
  intros ((c1 & C1) & (t1 & T1)) ((c2 & C2) & (t2 & T2)). split.
  - exists (c1 ++ c2). now rewrite C2, C1, app_assoc.
  - exists (t1 ++ t2). now rewrite T2, T1, app_assoc.
Qed.

Lemma Write_grows (w : Writer) (buf : list byte) :
  writer_grows w (snd (Write w buf)).
Proof.
  unfold Write. destruct (w_script w) as [|[|k e] script]; simpl;
    split; eexists; reflexivity.
Qed.

Lemma runner_frame_refl (s : Stream) (l : LogstashService) (os : OS) :
  runner_frame s l os s l os.
Proof.
  unfold runner_frame. repeat split; try apply same_stream_refl.
  - destruct (sink l); [apply writer_grows_refl | exact I].
  - now exists 0.
  - exists []. now rewrite app_nil_r.
Qed.

Lemma runner_frame_trans (s : Stream) (l : LogstashService) (os : OS)
    (s1 : Stream) (l1 : LogstashService) (os1 : OS)
    (s2 : Stream) (l2 : LogstashService) (os2 : OS) :
  runner_frame s l os s1 l1 os1 -> runner_frame s1 l1 os1 s2 l2 os2 ->
  runner_frame s l os s2 l2 os2.
Proof.
  unfold runner_frame.
  intros (A1 & A2 & A3 & A4 & A5 & A6 & A7 & A8 & (k1 & A9) & (p1 & A10))
         (B1 & B2 & B3 & B4 & B5 & B6 & B7 & B8 & (k2 & B9) & (p2 & B10)).
  repeat split; try congruence.
  - apply (same_stream_trans _ _ _ A1 B1).
  - apply (same_stream_trans _ _ _ A1 B1).
  - apply (same_stream_trans _ _ _ A1 B1).
  - destruct (sink l), (sink l1), (sink l2); try contradiction; try exact I.
    exact (writer_grows_trans _ _ _ A4 B4).
  - exists (k2 + k1). now rewrite B9, A9, skipn_skipn.
  - exists (p1 ++ p2). now rewrite B10, A10, app_assoc.
Qed.

Lemma runner_frame_print (s : Stream) (l : LogstashService) (os : OS) (line : string) :
  runner_frame s l os s l (os_print os line).
Proof.
  unfold runner_frame. repeat split; try apply same_stream_refl.
  - destruct (sink l); [apply writer_grows_refl | exact I].
  - now exists 0.
  - now exists [line].
Qed.

Lemma Preread_frame (s : Stream) (l : LogstashService) (os : OS) :
  runner_frame s l os (snd (fst (Preread s os))) l (snd (Preread s os)).
Proof.
  destruct s as [p|n]; simpl; [apply runner_frame_refl|].
  unfold NamedPipeStream_Preread.
  destruct (source (np_base n)); [apply runner_frame_refl|].
  destruct (os_opens os) as [|[e|file] rest] eqn:O; simpl snd; simpl fst.
  - apply runner_frame_refl.
  - unfold runner_frame. repeat split; try apply same_stream_refl.
    + destruct (sink l); [apply writer_grows_refl | exact I].
    + exists 1. simpl. now rewrite O.
    + exists []. simpl. now rewrite app_nil_r.
  - unfold runner_frame. repeat split.
    + destruct (sink l); [apply writer_grows_refl | exact I].
    + exists 1. simpl. now rewrite O.
    + eexists. reflexivity.
Qed.

Section Frame.
Context {tables : UnicodeTables}.

Lemma readOne_frame (s : Stream) (l : LogstashService) (os : OS) :
  runner_frame s l os (fst (fst (snd (readOne s l os))))
               (snd (fst (snd (readOne s l os)))) (snd (snd (readOne s l os))).
Proof.
  pose proof (Preread_frame s l os) as P. unfold readOne.
  destruct (Preread s os) as [[[[e|]| |] s1] os1]; cbn [fst snd] in *; try exact P.
  destruct (Source s1) as [rd|]; [|exact P].
  destruct (ReadBytes rd x0a) as [[buf err] rd'].
  assert (S2 : forall l2,
             runner_frame s1 l os1 (set_source s1 (Some rd')) l2 os1 ->
             runner_frame s l os (set_source s1 (Some rd')) l2 os1
             /\ runner_frame s l os (MarkClosed (set_source s1 (Some rd'))) l2 os1).
  { intros l2 Q. split; [exact (runner_frame_trans _ _ _ _ _ _ _ _ _ P Q)|].
    refine (runner_frame_trans _ _ _ _ _ _ _ _ _ P _).
    destruct Q as (Q1 & Q). split; [|exact Q].
    rewrite MarkClosed_set_source. apply same_stream_set_source. }
  assert (B : runner_frame s1 l os1 (set_source s1 (Some rd')) l os1).
  { destruct (runner_frame_refl s1 l os1) as (_ & Q).
    split; [apply same_stream_set_source | exact Q]. }
  destruct (0 <? List.length buf).
  - destruct (sink l) as [w|] eqn:K.
    + pose proof (Write_grows w (processLine buf (Tag (set_source s1 (Some rd'))))) as G.
      destruct (Write w (processLine buf (Tag (set_source s1 (Some rd'))))) as [[k e2] w'].
      cbn [snd] in G.
      assert (Q : runner_frame s1 l os1 (set_source s1 (Some rd'))
                    (mkLogstashService (url l) (ls_raw l) (Some w')) os1).
      { destruct B as (B1 & B2 & B3 & _ & B'). repeat split; try apply B1; try apply B'.
        cbn [sink]. now rewrite K. }
      destruct (S2 _ Q) as (Q1 & Q2).
      destruct err as [[| |]|]; [| | |destruct e2]; cbn [fst snd]; assumption.
    + cbn [fst snd]. apply (S2 l B).
  - destruct (S2 l B) as (Q1 & Q2).
    destruct err as [[| |]|]; cbn [fst snd]; assumption.
Qed.

(** X16.  A runner, for any number of iterations and however it ends, leaves
    the stream its tag, its raw specification and its descriptor or path,
    and the sink its address; it only adds to what was handed to the
    connection and to what it accepted; it changes nothing of the file
    system, only uses up opens of the FIFO and adds lines to [os.Stderr]. *)
Theorem Run_frame (fuel : nat) :
  forall (s : Stream) (l : LogstashService) (os : OS) (single : bool),
    runner_frame s l os
      (fst (fst (snd (Run fuel s l os single))))
      (snd (fst (snd (Run fuel s l os single))))
      (snd (snd (Run fuel s l os single))).
Proof.
  induction fuel as [|fuel IH]; intros s l os single; [apply runner_frame_refl|].
  rewrite Run_S. pose proof (readOne_frame s l os) as R.
  destruct (readOne s l os) as [[[e|]| |] [[s' l'] os']]; cbn [fst snd] in *;
    try exact R.
  - refine (runner_frame_trans _ _ _ _ _ _ _ _ _ R _).
    unfold os_after_report. destruct single;
      [apply runner_frame_refl | apply runner_frame_print].
  - exact (runner_frame_trans _ _ _ _ _ _ _ _ _ R (IH s' l' os' single)).
Qed.

(** ** A named pipe never ends on io.EOF *)

Lemma readOne_named_never_EOF (n : NamedPipeStream) (l : LogstashService) (os : OS) :
  opens_without_EOF (os_opens os) ->
  sink_without_EOF l ->
  exists o n' l' os',
    readOne (IsNamedPipeStream n) l os = (o, (IsNamedPipeStream n', l', os'))
    /\ o <> Returns (Some io_EOF)
    /\ opens_without_EOF (os_opens os')
    /\ sink_without_EOF l'.
Proof.
  intros OP SK.
  assert (P : exists o n1 os1,
             Preread (IsNamedPipeStream n) os = (o, IsNamedPipeStream n1, os1)
             /\ o <> Returns (Some io_EOF)
             /\ opens_without_EOF (os_opens os1)).
  { simpl. unfold NamedPipeStream_Preread.
    destruct (source (np_base n)).
    - eexists _, _, _. repeat split; [discriminate | exact OP].
    - destruct (os_opens os) as [|[e|file] rest] eqn:O.
      + eexists _, _, _. repeat split; [discriminate|]. now rewrite O.
      + eexists _, _, _. repeat split.
        * inversion OP as [|? ? H _]. destruct e; [contradiction | discriminate..].
        * simpl. rewrite O. now inversion OP.
      + eexists _, _, _. repeat split; [discriminate|].
        simpl. rewrite O. now inversion OP. }
  destruct P as (o & n1 & os1 & P & NE & OP1). unfold readOne. rewrite P.
  destruct o as [[e|]| |]; try (eexists _, _, _, _; repeat split; eassumption).
  destruct (Source (IsNamedPipeStream n1)) as [rd|];
    [|eexists _, _, _, _; repeat split; [discriminate | assumption..]].
  destruct (ReadBytes rd x0a) as [[buf err] rd'].
  cbn [set_source MarkClosed].
  destruct (0 <? List.length buf).
  - unfold sink_without_EOF in SK. destruct (sink l) as [w|] eqn:K.
    + assert (W : forall buf',
                 snd (fst (Write w buf')) <> Some io_EOF
                 /\ script_without_EOF (w_script (snd (Write w buf')))).
      { intros buf'. unfold Write.
        destruct (w_script w) as [|[|k e] script]; simpl.
        - split; [discriminate | constructor].
        - split; [discriminate | now inversion SK].
        - inversion SK as [|? ? H T]. split; [|exact T].
          destruct e; [contradiction | discriminate..]. }
      match goal with
      | |- context [Write w ?b] =>
          specialize (W b); destruct (Write w b) as [[k e2] w']
      end.
      cbn [fst snd] in W. destruct W as (W1 & W2).
      destruct err as [[| |]|]; [| | |destruct e2 as [[| |]|]];
        eexists _, _, _, _; (split; [reflexivity|]);
        (split; [first [discriminate | congruence]|]); (split; [exact OP1|]);
        unfold sink_without_EOF; exact W2.
    + eexists _, _, _, _; (split; [reflexivity|]); repeat split;
        [discriminate | exact OP1 | unfold sink_without_EOF; now rewrite K].
  - destruct err as [[| |]|];
      eexists _, _, _, _; (split; [reflexivity|]); repeat split;
        try discriminate; assumption.
Qed.

(** X17.  The runner of a named pipe never reports [io.EOF], however long it
    runs, unless an open of the FIFO or a write on the connection fails
    with that very error: the end of a file makes it open the FIFO again. *)
Theorem NamedPipeStream_never_reports_EOF (fuel : nat) :
  forall (n : NamedPipeStream) (l : LogstashService) (os : OS) (single : bool),
    opens_without_EOF (os_opens os) ->
    sink_without_EOF l ->
    fst (Run fuel (IsNamedPipeStream n) l os single) <> Reported io_EOF.
Proof.
  induction fuel as [|fuel IH]; intros n l os single OP SK; [discriminate|].
  rewrite Run_S.
  destruct (readOne_named_never_EOF n l os OP SK) as (o & n' & l' & os' & R & NE & OP' & SK').
  rewrite R. destruct o as [[e|]| |]; cbn [fst]; try discriminate.
  - intros [= ->]. now apply NE.
  - now apply IH.
Qed.

End Frame.

Lemma NamedPipeStream_never_reports_EOF_witness :
  fst (Run (tables := sample_tables) 5 (IsNamedPipeStream closed_fifo)
           broken_sink one_writer_os false) <> Reported io_EOF.
Proof.
  refine (NamedPipeStream_never_reports_EOF (tables := sample_tables) 5
            closed_fifo broken_sink one_writer_os false _ _).
  - repeat constructor.
  - repeat constructor.
Defined.

(** ** The runs of the goroutines, to their end *)

Lemma reaches_trans (a b c : system) : reaches a b -> reaches b c -> reaches a c.
Proof.
  intros AB BC. induction BC as [|mid final _ IH ST]; [exact AB|].
  exact (reaches_step a mid final IH ST).
Qed.

(** The buffer never holds more than the channel has room for. *)
Lemma buffer_bounded (m : Mux) (st : system) :
  reaches (Mux_Run_start m) st -> List.length (ch_buf (chan st)) <= 10.
Proof.
  induction 1 as [|mid final R IH ST]; [simpl; lia|].
  destruct (run_invariant_holds m mid R) as (_ & _ & C & _).
  destruct ST as [k snd_ fin ch mn rcv e
                |k s1 e s2 fin ch ch' mn rcv SND
                |k snd_ fin ch ch' n rcv e RCV]; simpl in *.
  - exact IH.
  - unfold chan_send in SND.
    destruct (Nat.ltb_spec (List.length (ch_buf ch)) (ch_cap ch)) as [LT|]; [|discriminate].
    injection SND as <-. simpl. rewrite length_app. simpl. lia.
  - unfold chan_recv in RCV. destruct (ch_buf ch) as [|x buf]; [discriminate|].
    injection RCV as _ <-. simpl in *. lia.
Qed.

(** With as many values received as there are streams, at least one, the
    loop has returned. *)
Lemma range_state_full (k : nat) (delivered : list error) :
  List.length delivered = k -> k <> 0 ->
  exists r, range_state (Z.of_nat k) delivered = Returned r.
Proof.
  intros L NZ. pose proof (Mux_Run_range_state delivered (Z.of_nat k)) as RS.
  destruct (Mux_Run_range_policy k delivered) as (P1 & P2); [lia|].
  destruct (range_state (Z.of_nat k) delivered) as [n|r]; [|now exists r].
  exfalso. destruct (first_error delivered) as [A|(pre & e & rest & D & A & NE)].
  - assert (N : delivered <> []) by (intros ->; simpl in L; lia).
    rewrite (proj2 P1 (conj A (conj N L))) in RS. discriminate RS.
  - rewrite (P2 _ _ _ D A NE) in RS. discriminate RS.
Qed.

(** X18.  With at most ten streams no runner ever waits at its send: in every
    state of every run, whether the loop of [Run] is still receiving or has
    returned, the buffer has room for the error of each runner that stands
    at its send. *)
Theorem ten_streams_never_wait (m : Mux) (st : system) (e : error) :
  List.length (streams m) <= 10 ->
  reaches (Mux_Run_start m) st ->
  In e (sending st) ->
  exists ch', chan_send (chan st) e = Some ch'.
Proof.
  intros L R IN. destruct (run_invariant_holds m st R) as (T & B & C & _).
  unfold chan_send. rewrite C.
  assert (S1 : 1 <= List.length (sending st)).
  { destruct (sending st); [contradiction | simpl; lia]. }
  destruct (Nat.ltb_spec (List.length (ch_buf (chan st))) 10) as [LT|GE]; [|lia].
  eexists; reflexivity.
Qed.

Lemma ten_streams_never_wait_witness :
  exists ch', chan_send (chan two_pipes_ended) io_EOF = Some ch'.
Proof.
  refine (ten_streams_never_wait (pipes_mux 2) two_pipes_ended io_EOF _ _ _).
  - simpl. lia.
  - refine (do_moves_sound [RunnerEnds io_EOF; RunnerEnds io_EOF] _ _ _ _ (reaches_start _)).
    vm_compute; reflexivity.
  - left. reflexivity.
Defined.

(** X19.  Once every runner has left its loop, [Run] returns.  In such a state
    of a run with at least one stream, as long as the loop has not returned
    a move can be made; every move leaves the runners out of their loops
    and brings the end nearer; and the run can go on to a state where the
    loop has returned. *)
Theorem Run_returns_once_runners_end (m : Mux) (st : system) :
  streams m <> [] ->
  reaches (Mux_Run_start m) st ->
  looping st = 0 ->
  ((exists r, main st = Returned r) \/ exists st', step st st')
  /\ (forall st', step st st' -> looping st' = 0 /\ moves_left st' < moves_left st)
  /\ (exists final r, reaches st final /\ main final = Returned r).
Proof.
  intros NE R L0.
  assert (PROGRESS : forall st, reaches (Mux_Run_start m) st -> looping st = 0 ->
                       (exists r, main st = Returned r) \/ exists st', step st st').
  { clear st R L0. intros st R L0.
    destruct (run_invariant_holds m st R) as (T & B & C & M).
    pose proof (buffer_bounded m st R) as BB.
    destruct st as [k snd_ fin [cap buf] mn rcv]. simpl in *. subst k cap.
    destruct mn as [n|r]; [|left; now exists r]. right.
    destruct buf as [|x buf].
    - destruct snd_ as [|e snd_].
      + exfalso. simpl in *.
        destruct (range_state_full (List.length (streams m)) rcv) as (r & E).
        * lia.
        * destruct (streams m); [contradiction | discriminate].
        * rewrite Mux_Run_launch_length, E in M. discriminate M.
      + eexists. apply (step_runner_sends 0 [] e snd_). reflexivity.
    - eexists. apply step_main_receives. reflexivity. }
  assert (DOWN : forall st st', looping st = 0 -> step st st' ->
                   looping st' = 0 /\ moves_left st' < moves_left st).
  { clear. intros st st' L0 ST. unfold moves_left.
    destruct ST as [k snd_ fin ch mn rcv e
                  |k s1 e s2 fin ch ch' mn rcv SND
                  |k snd_ fin ch ch' n rcv e RCV]; simpl in *.
    - discriminate L0.
    - split; [exact L0|]. unfold chan_send in SND.
      destruct (List.length (ch_buf ch) <? ch_cap ch); [|discriminate].
      injection SND as <-. simpl. rewrite !length_app. simpl. lia.
    - split; [exact L0|]. unfold chan_recv in RCV.
      destruct (ch_buf ch) as [|x buf]; [discriminate|].
      injection RCV as _ <-. simpl. lia. }
  split; [exact (PROGRESS st R L0)|]. split; [exact (fun st' => DOWN st st' L0)|].
  remember (moves_left st) as k eqn:K.
  assert (B : moves_left st <= k) by lia. clear K.
  revert st R L0 B. induction k as [|k IH]; intros st R L0 B.
  - destruct (PROGRESS st R L0) as [(r & E)|(st' & ST)].
    + exists st, r. split; [constructor | exact E].
    + destruct (DOWN st st' L0 ST). lia.
  - destruct (PROGRESS st R L0) as [(r & E)|(st' & ST)].
    + exists st, r. split; [constructor | exact E].
    + destruct (DOWN st st' L0 ST) as (L0' & LT).
      destruct (IH st' (reaches_step _ _ _ R ST) L0') as (final & r & RF & E); [lia|].
      exists final, r. split; [|exact E].
      exact (reaches_trans _ _ _ (reaches_step _ _ _ (reaches_start st) ST) RF).
Qed.

Lemma Run_returns_once_runners_end_witness :
  ((exists r, main two_pipes_ended = Returned r) \/ exists st', step two_pipes_ended st')
  /\ (forall st', step two_pipes_ended st' ->
                  looping st' = 0 /\ moves_left st' < moves_left two_pipes_ended)
  /\ (exists final r, reaches two_pipes_ended final /\ main final = Returned r).
Proof.
  refine (Run_returns_once_runners_end (pipes_mux 2) two_pipes_ended _ _ eq_refl).
  - discriminate.
  - refine (do_moves_sound [RunnerEnds io_EOF; RunnerEnds io_EOF] _ _ _ _ (reaches_start _)).
    vm_compute; reflexivity.
Defined.

(** Runners that leave their loop, one after the other, on the same error. *)
Lemma reaches_runners_end (start : system) (e : error) (j : nat) :
  forall (k : nat) (snd_ : list error) (fin : nat) (ch : Chan) (mn : main_state)
         (rcv : list error),
    reaches start (mkSystem (j + k) snd_ fin ch mn rcv) ->
    reaches start (mkSystem k (snd_ ++ repeat e j) fin ch mn rcv).
Proof.
  induction j as [|j IH]; intros k snd_ fin ch mn rcv R.
  - simpl. now rewrite app_nil_r.
  - change (repeat e (S j)) with ([e] ++ repeat e j). rewrite app_assoc.
    apply IH. replace (j + k) with (S (j + k) - 1) by lia.
    replace (S (j + k) - 1) with (j + k) by lia.
    exact (reaches_step _ _ _ R (step_runner_ends (j + k) snd_ fin ch mn rcv e)).
Qed.

(** Runners that send, one after the other, while the buffer has room. *)
Lemma reaches_runners_send (start : system) (e : error) (j : nat) :
  forall (k : nat) (rest : list error) (fin : nat) (buf : list error) (mn : main_state)
         (rcv : list error),
    List.length buf + j <= 10 ->
    reaches start (mkSystem k (repeat e j ++ rest) fin (mkChan 10 buf) mn rcv) ->
    reaches start (mkSystem k rest (j + fin) (mkChan 10 (buf ++ repeat e j)) mn rcv).
Proof.
  induction j as [|j IH]; intros k rest fin buf mn rcv B R.
  - simpl. now rewrite app_nil_r.
  - change (repeat e (S j)) with ([e] ++ repeat e j). rewrite app_assoc.
    replace (S j + fin) with (j + S fin) by lia.
    apply IH; [rewrite length_app; simpl; lia|].
    refine (reaches_step _ _ _ R _).
    apply (step_runner_sends k [] e (repeat e j ++ rest)).
    unfold chan_send. simpl.
    destruct (Nat.ltb_spec (List.length buf) 10) as [LT|GE]; [reflexivity | lia].
Qed.

(** X20.  With twelve streams or more, runners can be left waiting at their send
    for ever.  One runner ends on an error [e] that is not [io.EOF] and the
    loop of [Run] returns on it; the others end on [io.EOF]; ten of them
    fill the buffer; the rest stand at their send, and whatever happens
    from there, they stay. *)
Theorem twelve_streams_leave_runners_waiting (m : Mux) (k : nat) (e : error) :
  List.length (streams m) = k + 12 ->
  e <> io_EOF ->
  reaches (Mux_Run_start m) (stuck_senders k e)
  /\ chan_send (chan (stuck_senders k e)) io_EOF = None
  /\ forall st,
       reaches (stuck_senders k e) st ->
       main st = Returned (Some e)
       /\ chan st = chan (stuck_senders k e)
       /\ k + 1 <= List.length (sending st).
Proof.
  intros L NE. split; [|split].
  - unfold Mux_Run_start, Mux_Run_chan, make_chan. rewrite Mux_Run_launch_length, L.
    set (start := mkSystem (k + 12) [] 0 (mkChan 10 []) (Ranging (Z.of_nat (k + 12))) []).
    assert (R1 : reaches start
                   (mkSystem (k + 11 + 0) [] 1 (mkChan 10 []) (Returned (Some e)) [e])).
    { assert (B : Mux_Run_body (Z.of_nat (k + 12)) e = Returned (Some e)).
      { unfold Mux_Run_body. destruct e; [contradiction | reflexivity..]. }
      rewrite <- B. rewrite Nat.add_0_r.
      apply reaches_step with (mkSystem (k + 11) [] 1 (mkChan 10 [e])
                                        (Ranging (Z.of_nat (k + 12))) []).
      - apply reaches_step with (mkSystem (k + 11) ([] ++ [e]) 0 (mkChan 10 [])
                                          (Ranging (Z.of_nat (k + 12))) []).
        + apply reaches_step with start; [constructor|].
          unfold start. replace (k + 12) with (S (k + 11)) at 1 by lia.
          apply step_runner_ends.
        + apply (step_runner_sends (k + 11) [] e [] 0 (mkChan 10 []) (mkChan 10 [e])).
          reflexivity.
      - apply (step_main_receives (k + 11) [] 1 (mkChan 10 [e]) (mkChan 10 []) _ [] e).
        reflexivity. }
    apply (reaches_runners_end start io_EOF (k + 11) 0) in R1. simpl app in R1.
    replace (k + 11) with (10 + S k) in R1 by lia. rewrite repeat_app in R1.
    apply (reaches_runners_send start io_EOF 10 0 (repeat io_EOF (S k)) 1 []) in R1;
      [exact R1 | simpl; lia].
  - reflexivity.
  - intros st R.
    destruct (full_after_return (stuck_senders k e) st (Some e) eq_refl eq_refl R)
      as (C & M & _ & G).
    repeat split; try assumption.
    simpl in G. rewrite repeat_length in G. lia.
Qed.

Lemma twelve_streams_leave_runners_waiting_witness :
  reaches (Mux_Run_start (pipes_mux 13))
          (stuck_senders 1 (SysError "read: input/output error"))
  /\ chan_send (chan (stuck_senders 1 (SysError "read: input/output error"))) io_EOF = None
  /\ forall st,
       reaches (stuck_senders 1 (SysError "read: input/output error")) st ->
       main st = Returned (Some (SysError "read: input/output error"))
       /\ chan st = chan (stuck_senders 1 (SysError "read: input/output error"))
       /\ 1 + 1 <= List.length (sending st).
Proof.
  refine (twelve_streams_leave_runners_waiting (pipes_mux 13) 1
            (SysError "read: input/output error") eq_refl _).
  discriminate.
Defined.

(** ** The quoted tag is a closed literal *)

Lemma byte_val_range (b : byte) : (0 <= byte_val b < 256)%Z.
Proof. unfold byte_val. pose proof (Byte.to_N_bounded b). lia. Qed.

Lemma byte_val_of_val (z : Z) : byte_val (byte_of_val z) = (z mod 256)%Z.
Proof.
  unfold byte_of_val, byte_val. pose proof (Z.mod_pos_bound z 256 eq_refl) as B.
  destruct (Byte.of_N (Z.to_N (z mod 256))) as [b|] eqn:E.
  - apply Byte.to_of_N in E. rewrite E. lia.
  - apply Byte.of_N_None_iff in E. lia.
Qed.

Lemma bit7_high (v : Z) : (0 <= v < 256)%Z -> Z.testbit v 7 = true -> (128 <= v)%Z.
Proof.
  intros B T. destruct (Z_lt_le_dec v 128) as [LT|GE]; [|exact GE]. exfalso.
  destruct (Z.eq_dec v 0) as [->|NZ]; [discriminate T|].
  rewrite Z.bits_above_log2 in T; [discriminate T | lia|].
  apply Z.log2_lt_pow2; [lia | simpl; lia].
Qed.

(** A byte made with one of the marks [0x80], [0xC0], [0xE0], [0xF0] of
    UTF-8 is above [0x7F]. *)
Lemma marked_byte_high (mark x : Z) :
  Z.testbit mark 7 = true -> (128 <= byte_val (byte_of_val (Z.lor mark x)))%Z.
Proof.
  intros M. rewrite byte_val_of_val. apply bit7_high.
  - apply Z.mod_pos_bound. reflexivity.
  - change 256%Z with (2 ^ 8)%Z. rewrite Z.mod_pow2_bits_low by lia.
    rewrite Z.lor_spec, M. reflexivity.
Qed.

Lemma high_byte_literal (b : byte) : (128 <= byte_val b)%Z -> literal_byte b = true.
Proof.
  intros H. unfold literal_byte, printable.
  repeat match goal with
         | |- context [(?a <=? ?b)%Z] => destruct (Z.leb_spec a b)
         | |- context [(?a =? ?b)%Z] => destruct (Z.eqb_spec a b)
         end; simpl; try reflexivity; lia.
Qed.

Lemma literal_byte_of_val (z : Z) :
  (32 <= z <= 126)%Z -> z <> 34%Z -> z <> 92%Z -> literal_byte (byte_of_val z) = true.
Proof.
  intros B N1 N2. unfold literal_byte, printable. rewrite byte_val_of_val.
  rewrite Z.mod_small by lia.
  repeat match goal with
         | |- context [(?a <=? ?b)%Z] => destruct (Z.leb_spec a b)
         | |- context [(?a =? ?b)%Z] => destruct (Z.eqb_spec a b)
         end; simpl; try reflexivity; lia.
Qed.

Lemma literal_byte_printable (b : byte) : literal_byte b = true -> printable b = true.
Proof.
  unfold literal_byte. intros H.
  apply andb_true_iff in H as [H _]. now apply andb_true_iff in H as [H _].
Qed.

Lemma literal_body_plain (chunk rest : list byte) :
  forallb literal_byte chunk = true ->
  literal_body (chunk ++ rest) = literal_body rest.
Proof.
  induction chunk as [|c chunk IH]; intros F; [reflexivity|].
  simpl in F. apply andb_true_iff in F as [Fc F]. cbn [app literal_body].
  rewrite Fc, (IH F).
  unfold literal_byte in Fc. apply andb_true_iff in Fc as [_ Fc].
  apply negb_true_iff in Fc. now rewrite Fc.
Qed.

Lemma literal_body_escape (e : byte) (chunk rest : list byte) :
  printable e = true ->
  forallb literal_byte chunk = true ->
  literal_body ((x5c :: e :: chunk) ++ rest) = literal_body rest.
Proof.
  intros P F. cbn [app literal_body].
  change (byte_val x5c =? 92)%Z with true. cbv iota. rewrite P.
  now apply literal_body_plain.
Qed.

Section ClosedLiteral.
Context {tables : UnicodeTables}.

Lemma lowerhex_literal (n : Z) : literal_byte (lowerhex n) = true.
Proof.
  unfold lowerhex. change 15%Z with (Z.ones 4). rewrite Z.land_ones by lia.
  pose proof (Z.mod_pos_bound n (2 ^ 4) eq_refl) as B. change (2 ^ 4)%Z with 16%Z in *.
  destruct (Z.ltb_spec (n mod 16) 10); apply literal_byte_of_val; lia.
Qed.

Lemma hex_digits_literal (r : Z) (shifts : list Z) :
  forallb literal_byte (hex_digits r shifts) = true.
Proof.
  unfold hex_digits. induction shifts as [|s shifts IH]; [reflexivity|].
  simpl. now rewrite lowerhex_literal, IH.
Qed.

Lemma AppendRune_literal (r : Z) :
  IsPrint r = true -> r <> 34%Z -> r <> 92%Z ->
  forallb literal_byte (AppendRune r) = true.
Proof.
  intros P N1 N2. unfold AppendRune.
  destruct (in_range 0 127 r) eqn:R1.
  - unfold in_range in R1. apply andb_true_iff in R1 as [A B].
    apply Z.leb_le in A, B.
    unfold IsPrint in P. destruct (Z.leb_spec r 255); [|lia].
    unfold in_range in P.
    destruct (Z.leb_spec 32 r), (Z.leb_spec r 126); simpl in P.
    + cbn [forallb]. rewrite literal_byte_of_val by lia. reflexivity.
    + destruct (Z.leb_spec 161 r); [lia | discriminate P].
    + destruct (Z.leb_spec 161 r); [lia | discriminate P].
    + destruct (Z.leb_spec 161 r); [lia | discriminate P].
  - destruct (in_range 0 2047 r).
    + cbn [forallb]. rewrite !high_byte_literal by (now apply marked_byte_high). reflexivity.
    + destruct (negb (in_range 0 MaxRune r) || in_range 55296 57343 r);
        [reflexivity|].
      destruct (r <=? 65535)%Z; cbn [forallb];
        rewrite !high_byte_literal by (now apply marked_byte_high); reflexivity.
Qed.

(** What [appendEscapedRune] appends leaves the reading of a literal where
    it was. *)
Lemma appendEscapedRune_closed (r : Z) (rest : list byte) :
  literal_body (appendEscapedRune r ++ rest) = literal_body rest.
Proof.
  unfold appendEscapedRune.
  destruct (Z.eqb_spec r 34) as [->|N1]; [reflexivity|].
  destruct (Z.eqb_spec r 92) as [->|N2]; [reflexivity|]. cbn [orb].
  destruct (IsPrint r) eqn:P.
  { apply literal_body_plain. now apply AppendRune_literal. }
  repeat match goal with
         | |- context [(r =? ?b)%Z] => destruct (Z.eqb_spec r b) as [->|]; [reflexivity|]
         end.
  destruct ((r <? 32)%Z || false);
    [apply literal_body_escape; [reflexivity | apply hex_digits_literal]|].
  destruct (negb (ValidRune r));
    [apply literal_body_escape; [reflexivity | apply hex_digits_literal]|].
  destruct (r <? 65536)%Z;
    apply literal_body_escape; try reflexivity; apply hex_digits_literal.
Qed.

Lemma appendQuoted_loop_closed (fuel : nat) :
  forall s rest : list byte,
    literal_body (appendQuoted_loop fuel s ++ rest) = literal_body rest.
Proof.
  induction fuel as [|fuel IH]; intros s rest; [reflexivity|].
  destruct s as [|c s]; [reflexivity|]. rewrite appendQuoted_loop_cons.
  destruct (if nonASCII c then DecodeRune (c :: s) else (byte_val c, 1)) as [r width].
  destruct (Nat.eqb width 1 && (r =? RuneError)%Z).
  - rewrite <- app_assoc.
    rewrite (literal_body_escape x78 (hex_digits (byte_val c) [4; 0]%Z));
      [apply IH | reflexivity | apply hex_digits_literal].
  - rewrite <- app_assoc, appendEscapedRune_closed. apply IH.
Qed.

(** What [%q] prints is a closed literal, whatever the string holds. *)
Lemma Quote_closed (tag : string) :
  exists body,
    bytes_of_string (Quote tag) = [x22] ++ body ++ [x22]
    /\ literal_body body = true.
Proof.
  exists (appendQuoted_loop (List.length (bytes_of_string tag)) (bytes_of_string tag)).
  split.
  - unfold Quote, bytes_of_string, string_of_bytes.
    now rewrite list_byte_of_string_of_list_byte.
  - rewrite <- (app_nil_r (appendQuoted_loop _ _)). apply appendQuoted_loop_closed.
Qed.

(** X21.  On a line that is a JSON object, whatever the tag holds (quotes,
    backslashes, line feeds, bytes that are no UTF-8), what [processLine]
    adds is one closed string literal and the closing brace: between the
    two double quotes no double quote stands without a backslash before it,
    no backslash is left without a byte after it, and there is no control
    byte.  So a tag cannot end its string, bring members of its own into
    the record, or break the line. *)
Theorem processLine_tag_is_closed_literal
    (buf : list byte) (tag : string) (interior : list byte) :
  TrimSpace buf = x7b :: interior ++ [x7d] ->
  exists body,
    processLine buf tag = tag_member_front interior ++ [x22] ++ body ++ [x22; x7d; x0a]
    /\ literal_body body = true.
Proof.
  intros E. destruct (Quote_closed tag) as (body & Q & L). exists body.
  split; [|exact L]. rewrite (processLine_object _ _ _ E).
  unfold tag_member_front, Sprintf_tag_member, Sprintf_tag_object.
  destruct (hasNonSpace interior).
  - rewrite <- !append_assoc. rewrite !bytes_of_string_app, Q.
    rewrite <- !app_assoc. reflexivity.
  - rewrite <- !append_assoc. rewrite !bytes_of_string_app, Q.
    rewrite <- !app_assoc. reflexivity.
Qed.

End ClosedLiteral.

Lemma processLine_tag_is_closed_literal_witness :
  exists body,
    processLine (tables := sample_tables)
      (bytes_of_string ("{" ++ dquote ++ "a" ++ dquote ++ ":1}" ++ newline)%string)
      ("my" ++ dquote ++ "tag")%string
    = tag_member_front (bytes_of_string (dquote ++ "a" ++ dquote ++ ":1")%string)
        ++ [x22] ++ body ++ [x22; x7d; x0a]
    /\ literal_body body = true.
Proof.
  refine (processLine_tag_is_closed_literal (tables := sample_tables)
            (bytes_of_string ("{" ++ dquote ++ "a" ++ dquote ++ ":1}" ++ newline)%string)
            ("my" ++ dquote ++ "tag")%string
            (bytes_of_string (dquote ++ "a" ++ dquote ++ ":1")%string) _).
  vm_compute; reflexivity.
Defined.

Example literal_body_examples :
  literal_body (bytes_of_string "app.error") = true
  /\ literal_body [x6d; x79; x5c; x22; x74; x61; x67] = true
  /\ literal_body [x6d; x79; x22; x74; x61; x67] = false
  /\ literal_body [x61; x5c] = false
  /\ literal_body [x61; x0a] = false
  /\ literal_body [x5c; x5c; x22] = false.
Proof. repeat split. Qed.

(** ** The runner stops at the first write that fails *)

Lemma cut_after_whole_line (line rest : list byte) :
  whole_line line -> cut_after x0a (line ++ rest) = Some (line, rest).
Proof.
  intros (body & -> & F). induction F as [|b body Hb _ IH]; [reflexivity|].
  simpl. destruct (Byte.eqb b x0a) eqn:E.
  - apply Byte.byte_dec_bl in E. contradiction.
  - simpl in IH. now rewrite IH.
Qed.

Section FailedWrite.
Context {tables : UnicodeTables}.

(** One iteration on an open stream whose reader has a whole line, with
    whatever the write returns. *)
Lemma readOne_line_written (s : Stream) (l : LogstashService) (os : OS)
    (rd : Reader) (w : Writer) (line rest : list byte) :
  Source s = Some rd -> sink l = Some w ->
  cut_after x0a (rd_pending rd) = Some (line, rest) ->
  readOne s l os =
    (Returns (snd (fst (Write w (processLine line (Tag s))))),
     (set_source s (Some (mkReader rest (rd_err rd))),
      mkLogstashService (url l) (ls_raw l)
                        (Some (snd (Write w (processLine line (Tag s))))),
      os)).
Proof.
  intros SRC K C.
  assert (R : ReadBytes rd x0a = (line, None, mkReader rest (rd_err rd))).
  { unfold ReadBytes. now rewrite C. }
  rewrite (readOne_after_read _ _ _ _ _ _ _ _ _ (Preread_open s os rd SRC) SRC R), K.
  destruct (cut_after_length _ _ _ _ C) as (_ & NE).
  destruct line as [|c line]; [contradiction|]. cbn [List.length Nat.ltb Nat.leb].
  cbv zeta. now destruct (snd (fst (Write w (processLine (c :: line) (Tag s))))).
Qed.

(** The iterations over whole lines whose writes succeed. *)
Lemma Run_whole_lines (done : list (list byte)) :
  forall (s : Stream) (l : LogstashService) (os : OS) (w : Writer)
         (rest : list byte) (err : error) (script : list WriteResult)
         (fuel : nat) (single : bool),
    Source s = Some (mkReader (List.concat done ++ rest) err) ->
    Forall whole_line done ->
    sink l = Some w ->
    w_script w = repeat WriteOk (List.length done) ++ script ->
    Run (List.length done + fuel) s l os single =
      Run fuel (set_source s (Some (mkReader rest err)))
          (mkLogstashService (url l) (ls_raw l)
             (Some (mkWriter (w_calls w ++ map (fun ln => processLine ln (Tag s)) done)
                             (w_sent w
                                ++ List.concat (map (fun ln => processLine ln (Tag s)) done))
                             script)))
          os single.
Proof.
  induction done as [|line done IH]; intros s l os w rest err script fuel single SRC F K SC.
  - cbn [List.length plus List.concat map app] in *. rewrite !app_nil_r.
    f_equal.
    + rewrite <- SRC. unfold Source. destruct s as [[[t r o] d]|[[t r o] d]]; reflexivity.
    + destruct l as [u r k], w as [c t sc]. simpl in *. now subst.
  - inversion F as [|? ? WL F']; subst.
    cbn [List.length plus]. rewrite Run_S.
    cbn [List.concat] in SRC. rewrite <- app_assoc in SRC.
    rewrite (readOne_line_written s l os _ w line (List.concat done ++ rest) SRC K
               (cut_after_whole_line _ _ WL)).
    cbn [List.length repeat app] in SC.
    assert (W : Write w (processLine line (Tag s)) =
                (List.length (processLine line (Tag s)), None,
                 mkWriter (w_calls w ++ [processLine line (Tag s)])
                          (w_sent w ++ processLine line (Tag s))
                          (repeat WriteOk (List.length done) ++ script))).
    { unfold Write. now rewrite SC. }
    rewrite W. cbn [fst snd rd_err].
    erewrite IH; [|apply Source_set_source | exact F' | reflexivity | reflexivity].
    rewrite set_source_twice, Tag_set_source. cbn [url ls_raw w_calls w_sent map List.concat].
    now rewrite <- !app_assoc.
Qed.

(** X22.  The first write that fails ends the runner, when it is the write of a
    whole line: the runner reports the error of the write; the lines before
    have gone through, the line itself went as far as the connection took
    it, and what the pipe holds after that line is never read. *)
Theorem runner_stops_at_failed_write
    (s : Stream) (l : LogstashService) (os : OS) (w : Writer)
    (done : list (list byte)) (line rest : list byte) (err : error)
    (k : nat) (e : error) (script : list WriteResult) (fuel : nat) (single : bool) :
  Source s = Some (mkReader (List.concat done ++ line ++ rest) err) ->
  Forall whole_line done ->
  whole_line line ->
  sink l = Some w ->
  w_script w = repeat WriteOk (List.length done) ++ WriteErr k e :: script ->
  Run (List.length done + S fuel) s l os single =
    (Reported e,
     (set_source s (Some (mkReader rest err)),
      mkLogstashService (url l) (ls_raw l)
        (Some (mkWriter
                 (w_calls w ++ map (fun ln => processLine ln (Tag s)) (done ++ [line]))
                 (w_sent w ++ List.concat (map (fun ln => processLine ln (Tag s)) done)
                    ++ firstn k (processLine line (Tag s)))
                 script)),
      os_after_report os single (Tag s) e)).
Proof.
  intros SRC F WL K SC.
  rewrite (Run_whole_lines done s l os w (line ++ rest) err _ (S fuel) single SRC F K SC).
  rewrite Run_S.
  erewrite (readOne_line_written _ _ os (mkReader (line ++ rest) err) _ line rest);
    [|apply Source_set_source | reflexivity | exact (cut_after_whole_line _ _ WL)].
  unfold Write. cbn [w_script w_calls w_sent fst snd rd_err url ls_raw].
  rewrite set_source_twice, !Tag_set_source, map_app. cbn [map].
  now rewrite <- !app_assoc.
Qed.

End FailedWrite.

Lemma runner_stops_at_failed_write_witness :
  Run (tables := sample_tables) (1 + 1)
      (IsPipeStream (open_pipe ("one" ++ newline ++ "two" ++ newline ++ "three" ++ newline)
                               io_EOF))
      (sink_with [WriteOk; WriteErr 0 (SysError "write: broken pipe")]) quiet_os true =
    (Reported (SysError "write: broken pipe"),
     (IsPipeStream (open_pipe ("three" ++ newline) io_EOF),
      mkLogstashService (Some "localhost:5000") "tcp://localhost:5000"
        (Some (mkWriter
                 [bytes_of_string ("app.error: one" ++ newline);
                  bytes_of_string ("app.error: two" ++ newline)]
                 (bytes_of_string ("app.error: one" ++ newline))
                 [])),
      quiet_os)).
Proof.
  refine (runner_stops_at_failed_write (tables := sample_tables)
            (IsPipeStream (open_pipe ("one" ++ newline ++ "two" ++ newline ++ "three" ++ newline)
                                     io_EOF))
            (sink_with [WriteOk; WriteErr 0 (SysError "write: broken pipe")]) quiet_os
            (mkWriter [] [] [WriteOk; WriteErr 0 (SysError "write: broken pipe")])
            [bytes_of_string ("one" ++ newline)] (bytes_of_string ("two" ++ newline))
            (bytes_of_string ("three" ++ newline)) io_EOF
            0 (SysError "write: broken pipe") [] 0 true eq_refl _ _ eq_refl eq_refl).
  - constructor; [|constructor].
    exists (bytes_of_string "one"). split; [reflexivity|].
    repeat constructor; discriminate.
  - exists (bytes_of_string "two"). split; [reflexivity|].
    repeat constructor; discriminate.
Defined.
